(** * devtools/blindedpath: blinded onion-message routes

    A shallow embedding of the [create] and [unwrap] commands of the
    blinded-path tool.  The program is a single [main]; everything it
    calls apart from three small helpers ([hash_e_and_ss], [next_pubkey],
    [next_privkey]) lives in libraries (secp256k1, libsodium, the sphinx
    and wire modules), which are taken here as an interface, [Prims]. *)

From Stdlib Require Import ZArith NArith List String Ascii Strings.Byte Lia Bool.
From stdpp Require Import base option list gmap strings.

Local Open Scope string_scope.
Local Open Scope list_scope.

(** ** Bytes and C strings *)

Abbreviation bytes := (list byte).

(** [tal_bytelen]/[tal_count] of a byte array. *)
Definition tal_bytelen (p : bytes) : N := N.of_nat (length p).

(** [memset(&e, c, n)] on an [n]-byte object. *)
Definition memset (c : byte) (n : nat) : bytes := repeat c n.

Fixpoint strchr_mem (c : ascii) (s : string) : bool :=
  match s with
  | EmptyString => false
  | String d s' => if Ascii.eqb c d then true else strchr_mem c s'
  end.

(** [strcspn(s, reject)]: length of the longest prefix of [s] free of the
    characters of [reject]. *)
Fixpoint strcspn (s reject : string) : nat :=
  match s with
  | EmptyString => 0
  | String c s' => if strchr_mem c reject then 0 else S (strcspn s' reject)
  end.

(** The first [n] characters of [s]: what a callee sees of [(s, n)]. *)
Fixpoint str_take (n : nat) (s : string) : string :=
  match n, s with
  | S n', String c s' => String c (str_take n' s')
  | _, _ => EmptyString
  end.

Definition streq (a b : string) : bool := String.eqb a b.

(** [argv[i]]; the program only reads below [argc]. *)
Definition arg (argv : list string) (i : nat) : string := nth i argv "".

(** ** The process monad: standard output, [errx], [abort], [return] *)

Inductive halt : Type :=
| Exited (code : Z) (stderr : string)   (* errx(code, msg), or return code *)
| Aborted.                              (* abort(), or a failed assert *)

(** A computation prints chunks (one per [printf]) and either yields a
    value or halts the process. *)
Definition M (A : Type) : Type := (list string * (halt + A))%type.

Definition ret {A} (a : A) : M A := ([], inr a).

Definition bind {A B} (m : M A) (f : A -> M B) : M B :=
  match m with
  | (out, inl h) => (out, inl h)
  | (out, inr a) => let '(out', r) := f a in (out ++ out', r)
  end.

Notation "'do' x <- m ; k" := (bind m (fun x => k))
  (at level 10, x name, m at level 100, k at level 200).
Notation "'run' m ; k" := (bind m (fun _ => k))
  (at level 10, m at level 100, k at level 200).

Definition printf (s : string) : M unit := ([s], inr tt).
Definition errx {A} (code : Z) (msg : string) : M A := ([], inl (Exited code msg)).
Definition abort {A} : M A := ([], inl Aborted).
Definition return_ {A} (code : Z) : M A := ([], inl (Exited code "")).

(** [if (!f(...)) errx(1, msg)] and [if (f(...) != 1) abort()]. *)
Definition or_errx {A} (o : option A) (msg : string) : M A :=
  match o with Some a => ret a | None => errx 1 msg end.
Definition or_abort {A} (o : option A) : M A :=
  match o with Some a => ret a | None => abort end.
Definition assert (c : bool) : M unit := if c then ret tt else abort.

(** [for (i = lo; i < lo + n; i++) st = body(i, st)]. *)
Fixpoint for_loop {St} (n i : nat) (body : nat -> St -> M St) (st : St) : M St :=
  match n with
  | O => ret st
  | S n' => do st' <- body i st; for_loop n' (S i) body st'
  end.

(** What the parent process observes. *)
Definition stdout {A} (m : M A) : list string := fst m.
Definition status (m : M unit) : halt :=
  match snd m with inl h => h | inr _ => Exited 0 "" end.
Definition exit_code (h : halt) : option Z :=
  match h with Exited c _ => Some c | Aborted => None end.

(** ** External interface *)

Inductive nextcase_t := ONION_END | ONION_FORWARD.

(** The two fields of [struct tlv_onionmsg_payload] the tool touches. *)
Record tlv_onionmsg_payload (pubkey : Type) := mk_payload {
  next_node_id : option pubkey;
  enctlv : option bytes
}.
Arguments mk_payload {pubkey}.
Arguments next_node_id {pubkey}.
Arguments enctlv {pubkey}.

(** [struct route_step]. *)
Record route_step (onionpacket : Type) := mk_route_step {
  nextcase : nextcase_t;
  raw_payload : bytes;
  next : onionpacket
}.
Arguments mk_route_step {onionpacket}.
Arguments nextcase {onionpacket}.
Arguments raw_payload {onionpacket}.
Arguments next {onionpacket}.

(** The locals of the [create] branch; the four [tal_arr] arrays are
    maps from index to the value written there. *)
Record create_state (pubkey : Type) := mk_cs {
  cs_e : bytes;
  cs_nodes : gmap nat pubkey;
  cs_pk_e : gmap nat pubkey;
  cs_b : gmap nat pubkey;
  cs_rho : gmap nat bytes
}.
Arguments mk_cs {pubkey}.
Arguments cs_e {pubkey}.
Arguments cs_nodes {pubkey}.
Arguments cs_pk_e {pubkey}.
Arguments cs_b {pubkey}.
Arguments cs_rho {pubkey}.

(** What the [unwrap] branch holds once the packet has been processed. *)
Record unwrap_state (pubkey onionpacket : Type) := mk_us {
  us_blinding : pubkey;
  us_ss : bytes;
  us_rho : bytes;
  us_onion_ss : bytes;
  us_rs : route_step onionpacket
}.
Arguments mk_us {pubkey onionpacket}.
Arguments us_blinding {pubkey onionpacket}.
Arguments us_ss {pubkey onionpacket}.
Arguments us_rho {pubkey onionpacket}.
Arguments us_onion_ss {pubkey onionpacket}.
Arguments us_rs {pubkey onionpacket}.

(** A wire cursor [(cursor, max)]: [None] after [fromwire_fail], which
    sets [cursor = NULL] and [max = 0]. *)
Definition cursor := option bytes.
Definition max_of (c : cursor) : N :=
  match c with Some l => tal_bytelen l | None => 0%N end.

(** The library functions [main] calls.  A function returning a success
    flag and writing through a pointer is an [option]. *)
Class Prims := {
  pubkey : Type;
  onionpacket : Type;
  (* bitcoin/pubkey, secp256k1 *)
  pubkey_from_privkey : bytes -> option pubkey;
  secp256k1_ecdh : pubkey -> bytes -> option bytes;
  secp256k1_ec_pubkey_tweak_mul : pubkey -> bytes -> option pubkey;
  secp256k1_ec_privkey_tweak_mul : bytes -> bytes -> option bytes;
  pubkey_to_der : pubkey -> bytes;
  pubkey_from_hexstr : string -> option pubkey;
  pubkey_to_string : pubkey -> string;      (* type_to_string(struct pubkey) *)
  (* sha256, common/hmac *)
  sha256 : bytes -> bytes;
  subkey_from_hmac : string -> bytes -> bytes;
  (* libsodium chacha20-poly1305 (ietf), no associated data *)
  aead_encrypt : bytes -> bytes -> bytes -> bytes;          (* m, npub, key *)
  aead_decrypt : bytes -> bytes -> bytes -> option bytes;   (* c, npub, key *)
  (* wire *)
  towire_encmsg_tlvs : tlv_onionmsg_payload pubkey -> bytes;
  towire_onionmsg_payload : tlv_onionmsg_payload pubkey -> bytes;
  fromwire_onionmsg_payload : cursor -> option (tlv_onionmsg_payload pubkey);
  bigsize_put : N -> bytes;
  fromwire_bigsize : cursor -> N * cursor;
  (* common/sphinx *)
  TOTAL_PACKET_SIZE : nat;
  parse_onionpacket : bytes -> option onionpacket;
  ephemeralkey : onionpacket -> pubkey;
  process_onionpacket : onionpacket -> bytes -> option (route_step onionpacket);
  serialize_onionpacket : onionpacket -> bytes;
  (* ccan/str/hex, common/utils *)
  hex_decode : string -> nat -> option bytes;
  tal_hex : bytes -> string
}.

(** libsodium constants. *)
Definition crypto_aead_chacha20poly1305_ietf_ABYTES : N := 16.
Definition npub : bytes := repeat x00 12.

(** [sizeof(struct privkey)]. *)
Definition sizeof_privkey : nat := 32.

Section Program.
Context `{P : Prims}.

(** ** The three helpers *)

(** [hash_e_and_ss]: SHA256 over the DER key followed by the secret. *)
Definition hash_e_and_ss (e : pubkey) (ss : bytes) : bytes :=
  sha256 (pubkey_to_der e ++ ss).

Definition next_pubkey (pk : pubkey) (h : bytes) : M pubkey :=
  or_abort (secp256k1_ec_pubkey_tweak_mul pk h).

Definition next_privkey (e : bytes) (h : bytes) : M bytes :=
  or_abort (secp256k1_ec_privkey_tweak_mul e h).

(** ** create *)

(** Reading an array slot.  Every slot is written before it is read
    (see [create_from_complete]); the [None] case is unreachable. *)
Definition rd {A} (o : option A) : M A := or_abort o.

(** Body of the first loop (lines 132-158). *)
Definition create_derive (argv : list string) (num i : nat)
    (st : create_state pubkey) : M (create_state pubkey) :=
  let a := arg argv (2 + i) in
  do node <- or_errx (pubkey_from_hexstr (str_take (strcspn a "/") a))
                     (a ++ " not a valid pubkey");
  let nodes := <[i := node]> (cs_nodes st) in
  do ss <- or_abort (secp256k1_ecdh node (cs_e st));
  let hmac := subkey_from_hmac "blinded_node_id" ss in
  do b_i <- (if negb (i =? 0)%nat
             then or_abort (secp256k1_ec_pubkey_tweak_mul node hmac)
             else ret node);
  let b := <[i := b_i]> (cs_b st) in
  let rho := <[i := subkey_from_hmac "rho" ss]> (cs_rho st) in
  do pk_e_i <- rd (cs_pk_e st !! i);
  let h := hash_e_and_ss pk_e_i ss in
  do pk_e <- (if negb (i =? num - 1)%nat
              then do nx <- next_pubkey pk_e_i h;
                   ret (<[i + 1 := nx]> (cs_pk_e st))
              else ret (cs_pk_e st));
  do e <- next_privkey (cs_e st) h;
  ret (mk_cs e nodes pk_e b rho).

(** Body of the second loop (lines 164-201): build and print hop [i]. *)
Definition create_print (st : create_state pubkey) (i : nat) (_ : unit)
    : M unit :=
  do node_next <- rd (cs_nodes st !! (i + 1));
  let inner := mk_payload (Some node_next) None in
  let p := towire_encmsg_tlvs inner in
  do rho_i <- rd (cs_rho st !! i);
  let outer := mk_payload None (Some (aead_encrypt p npub rho_i)) in
  let p := towire_onionmsg_payload outer in
  let buf := bigsize_put (tal_bytelen p) in
  do b_i <- rd (cs_b st !! i);
  printf (pubkey_to_string b_i ++ "/" ++ tal_hex buf ++ tal_hex p ++ " ").

(** The branch after [memset(&e, 6, sizeof(e))], for any initial [e]. *)
Definition create_from (e0 : bytes) (argv : list string) : M unit :=
  let argc := length argv in
  let num := argc - 2 in
  if (argc <? 3)%nat then errx 1 "create requires at least one nodeid" else
  do pk_e0 <- or_abort (pubkey_from_privkey e0);
  do st <- for_loop num 0 (create_derive argv num)
             (mk_cs e0 ∅ {[ 0 := pk_e0 ]} ∅ ∅);
  do pk0 <- rd (cs_pk_e st !! 0);
  run printf ("Blinding: " ++ pubkey_to_string pk0 ++ String "010" "");
  run for_loop (num - 1) 0 (create_print st) tt;
  do b_last <- rd (cs_b st !! (num - 1));
  printf (pubkey_to_string b_last ++ "/00" ++ String "010" "").

(** "Randomness, chosen with a fair dice roll!" *)
Definition create (argv : list string) : M unit :=
  create_from (memset x06 sizeof_privkey) argv.

(** ** unwrap *)

(** Lines 221-267: arguments, secrets, and the call into sphinx. *)
Definition unwrap_process (first : bool) (argv : list string)
    : M (unwrap_state pubkey onionpacket) :=
  if negb (length argv =? 5)%nat
  then errx 1 "unwrap requires privkey, onion and blinding" else
  do privkey <- or_errx (hex_decode (arg argv 2) sizeof_privkey)
                  ("Invalid private key hex '" ++ arg argv 2 ++ "'");
  do onion <- or_errx (hex_decode (arg argv 3) TOTAL_PACKET_SIZE)
                ("Invalid onion " ++ arg argv 3);
  do blinding <- or_errx (pubkey_from_hexstr (arg argv 4))
                   ("Invalid blinding " ++ arg argv 4);
  do op <- or_errx (parse_onionpacket onion) "Unparsable onion";
  do ss <- or_abort (secp256k1_ecdh blinding privkey);
  let rho := subkey_from_hmac "rho" ss in
  let hmac := subkey_from_hmac "blinded_node_id" ss in
  let res := ephemeralkey op in
  do res <- (if negb first
             then or_abort (secp256k1_ec_pubkey_tweak_mul res hmac)
             else ret res);
  do onion_ss <- or_abort (secp256k1_ecdh res privkey);
  do rs <- or_errx (process_onionpacket op onion_ss)
             "Could not process onionpacket";
  ret (mk_us blinding ss rho onion_ss rs).

(** Lines 269-278: length prefix and outer TLV of the raw payload. *)
Definition unwrap_decode (rs : route_step onionpacket)
    : M (tlv_onionmsg_payload pubkey) :=
  let c := Some (raw_payload rs) in
  let '(len, c) := fromwire_bigsize c in
  let max := max_of c in
  run assert (len =? max)%N;
  or_errx (fromwire_onionmsg_payload c)
          ("Invalid payload " ++ tal_hex (raw_payload rs)).

(** Lines 280-313. *)
Definition unwrap_deliver (us : unwrap_state pubkey onionpacket)
    (outer : tlv_onionmsg_payload pubkey) : M unit :=
  let rs := us_rs us in
  match nextcase rs with
  | ONION_END => run printf ("TERMINAL" ++ String "010" ""); return_ 0
  | ONION_FORWARD =>
    do enc <- or_errx (enctlv outer) "No enctlv field";
    if (tal_bytelen enc <? crypto_aead_chacha20poly1305_ietf_ABYTES)%N
    then errx 1 "enctlv field too short" else
    do dec <- or_errx (aead_decrypt enc npub (us_rho us))
                "Failed to decrypt enctlv field";
    run printf ("Contents: " ++ tal_hex dec ++ String "010" "");
    let h := hash_e_and_ss (us_blinding us) (us_ss us) in
    do res <- next_pubkey (us_blinding us) h;
    run printf ("Next blinding: " ++ pubkey_to_string res ++ String "010" "");
    printf ("Next onion: " ++ tal_hex (serialize_onionpacket (next rs))
              ++ String "010" "")
  end.

Definition unwrap (first : bool) (argv : list string) : M unit :=
  do us <- unwrap_process first argv;
  do outer <- unwrap_decode (us_rs us);
  unwrap_deliver us outer.

(** ** main, after [opt_parse] has consumed [--first-node] *)

Definition main (first : bool) (argv : list string) : M unit :=
  if (length argv <? 2)%nat then errx 1 "You must specify create or unwrap" else
  if streq (arg argv 1) "create" then create argv
  else if streq (arg argv 1) "unwrap" then unwrap first argv
  else errx 1 "Either create or unwrap!".

End Program.


(** ** Specification-side definitions *)

(** Two runs look the same from outside: same standard output, same way
    of ending (the text on standard error may differ). *)
Definition same_run {A} (m1 m2 : M A) : Prop :=
  fst m1 = fst m2 /\
  match snd m1, snd m2 with
  | inl h1, inl h2 => exit_code h1 = exit_code h2
  | inr a1, inr a2 => a1 = a2
  | _, _ => False
  end.

(** [a] with an optional [/<scid>] appended. *)
Definition with_scid (a : string) (scid : option string) : string :=
  match scid with
  | Some s => (a ++ "/" ++ s)%string
  | None => a
  end.

Section Spec.
Context `{P : Prims}.

Definition nl : string := String "010" "".
Definition TERMINAL : string := "TERMINAL" ++ nl.

(** The effective ephemeral key: the onion's own key, tweaked unless this
    is the first node. *)
Definition effective_ephemeral (first : bool) (op : onionpacket) (ss : bytes)
    : option pubkey :=
  if first then Some (ephemeralkey op)
  else secp256k1_ec_pubkey_tweak_mul (ephemeralkey op)
         (subkey_from_hmac "blinded_node_id" ss).

(** What [unwrap_process] has established when it returns [us]. *)
Record processed (first : bool) (argv : list string) (us : unwrap_state pubkey onionpacket)
    (privkey : bytes) (op : onionpacket) : Prop := {
  pr_argc : length argv = 5;
  pr_privkey : hex_decode (arg argv 2) sizeof_privkey = Some privkey;
  pr_onion : exists onion, hex_decode (arg argv 3) TOTAL_PACKET_SIZE = Some onion
                           /\ parse_onionpacket onion = Some op;
  pr_blinding : pubkey_from_hexstr (arg argv 4) = Some (us_blinding us);
  pr_ss : secp256k1_ecdh (us_blinding us) privkey = Some (us_ss us);
  pr_rho : us_rho us = subkey_from_hmac "rho" (us_ss us);
  pr_onion_ss : exists res, effective_ephemeral first op (us_ss us) = Some res
                            /\ secp256k1_ecdh res privkey = Some (us_onion_ss us);
  pr_rs : process_onionpacket op (us_onion_ss us) = Some (us_rs us)
}.

(** The two claims of the specification that the code does not bear
    out, as the specification words them. *)

(** "Terminal delivery is reported exactly when the mix-net layer signals
    route termination and no enctlv is present." *)
Definition terminal_claim (first : bool) (argv : list string) : Prop :=
  forall us outer o0 o1,
    unwrap_process first argv = (o0, inr us) ->
    unwrap_decode (us_rs us) = (o1, inr outer) ->
    (In TERMINAL (stdout (unwrap first argv))
     <-> nextcase (us_rs us) = ONION_END /\ enctlv outer = None).

(** "effectiveEphemeral = E if this is the first hop, else
    tweakPoint(E, tweak); onion_ss = deriveSharedSecret(k(r),
    effectiveEphemeral)", with E the received blinding point. *)
Definition onion_ss_claim (first : bool) (argv : list string) : Prop :=
  forall o0 us,
    unwrap_process first argv = (o0, inr us) ->
    exists k eff,
      hex_decode (arg argv 2) sizeof_privkey = Some k /\
      (if first then eff = us_blinding us
       else secp256k1_ec_pubkey_tweak_mul (us_blinding us)
              (subkey_from_hmac "blinded_node_id" (us_ss us)) = Some eff) /\
      secp256k1_ecdh eff k = Some (us_onion_ss us).

(** Sizes of the fixed buffers: [PUBKEY_CMPR_LEN] and [struct secret]. *)
Class Sizes : Prop := {
  der_len : forall p, length (pubkey_to_der p) = 33;
  ecdh_len : forall p k ss, secp256k1_ecdh p k = Some ss -> length ss = 32
}.

(** *** The sender's ratchet, as the specification writes it *)

(** The node id argument as [pubkey_from_hexstr] is given it: the
    characters before the first slash. *)
Definition node_of_arg (a : string) : option pubkey :=
  pubkey_from_hexstr (str_take (strcspn a "/") a).

(** [argv[2..]] names the nodes [ns]. *)
Definition node_args (argv : list string) (ns : list pubkey) : Prop :=
  Forall2 (fun a n => node_of_arg a = Some n) (drop 2 argv) ns.

Section Chain.
Variables (e0 : bytes) (E0 : pubkey) (ns : list pubkey).

(** ss(i) = deriveSharedSecret(e(i), node(i)) *)
Definition hop_ss (oe : option bytes) (i : nat) : option bytes :=
  e ← oe; n ← ns !! i; secp256k1_ecdh n e.

(** h(i) = SHA256(compressed(E(i)) ++ ss(i)) *)
Definition hop_h (oE : option pubkey) (oss : option bytes) : option bytes :=
  E ← oE; ss ← oss; Some (sha256 (pubkey_to_der E ++ ss)).

(** (e(i), E(i)): e(i+1) = tweakScalar(e(i), h(i)),
    E(i+1) = tweakPoint(E(i), h(i)). *)
Fixpoint eph_at (i : nat) : option bytes * option pubkey :=
  match i with
  | O => (Some e0, Some E0)
  | S j =>
    let '(oe, oE) := eph_at j in
    let oh := hop_h oE (hop_ss oe j) in
    (e ← oe; h ← oh; secp256k1_ec_privkey_tweak_mul e h,
     E ← oE; h ← oh; secp256k1_ec_pubkey_tweak_mul E h)
  end.

Definition e_at (i : nat) : option bytes := fst (eph_at i).
Definition E_at (i : nat) : option pubkey := snd (eph_at i).
Definition ss_at (i : nat) : option bytes := hop_ss (e_at i) i.
Definition h_at (i : nat) : option bytes := hop_h (E_at i) (ss_at i).

(** tweak(i) = deriveSubkey("blinded_node_id", ss(i)) *)
Definition tweak_at (i : nat) : option bytes :=
  subkey_from_hmac "blinded_node_id" <$> ss_at i.

(** rho(i) = deriveSubkey("rho", ss(i)) *)
Definition rho_at (i : nat) : option bytes :=
  subkey_from_hmac "rho" <$> ss_at i.

(** blindedId(i) = node(i) if i == 0, else tweakPoint(node(i), tweak(i)) *)
Definition blindedId (i : nat) : option pubkey :=
  n ← ns !! i;
  if (i =? 0)%nat then Some n
  else t ← tweak_at i; secp256k1_ec_pubkey_tweak_mul n t.

(** The state before iteration [i] of the first loop of [create]. *)
Definition derive_inv (i : nat) (st : create_state pubkey) : Prop :=
  e_at i = Some (cs_e st) /\
  (i < length ns -> exists E, E_at i = Some E /\ cs_pk_e st !! i = Some E) /\
  cs_pk_e st !! 0 = Some E0 /\
  forall j, j < i ->
    cs_nodes st !! j = ns !! j /\
    (exists b, blindedId j = Some b /\ cs_b st !! j = Some b) /\
    (exists r, rho_at j = Some r /\ cs_rho st !! j = Some r).

(** Every library call of the ratchet succeeds on these nodes. *)
Definition derivable : Prop :=
  is_Some (e_at (length ns)) /\ forall i, i < length ns -> is_Some (blindedId i).

(** The payload of a forwarding hop: outer TLV holding the encrypted
    inner TLV that names the next node. *)
Definition hop_payload (rho : bytes) (nxt : pubkey) : bytes :=
  towire_onionmsg_payload
    (mk_payload None
       (Some (aead_encrypt (towire_encmsg_tlvs (mk_payload (Some nxt) None))
                npub rho))).

(** The chunk [create] prints for forwarding hop [i]. *)
Definition hop_line (i : nat) : option string :=
  b ← blindedId i; rho ← rho_at i; nxt ← ns !! (i + 1);
  let p := hop_payload rho nxt in
  Some (pubkey_to_string b ++ "/" ++ tal_hex (bigsize_put (tal_bytelen p))
          ++ tal_hex p ++ " ")%string.

(** The chunk printed for the last hop. *)
Definition last_line (i : nat) : option string :=
  b ← blindedId i; Some (pubkey_to_string b ++ "/00" ++ nl)%string.

Definition blinding_line : string := "Blinding: " ++ pubkey_to_string E0 ++ nl.

(** The raw payload handed to sphinx for hop [i]: the printed length
    prefix followed by the outer TLV; a lone zero byte for the last hop. *)
Definition hop_raw (i : nat) : option bytes :=
  if (i + 1 <? length ns)%nat then
    rho ← rho_at i; nxt ← ns !! (i + 1);
    let p := hop_payload rho nxt in
    Some (bigsize_put (tal_bytelen p) ++ p)
  else Some [x00].

Definition route_hop (i : nat) : option (pubkey * bytes) :=
  b ← blindedId i; raw ← hop_raw i; Some (b, raw).

(** The path [create] describes: one (blinded id, raw payload) per node. *)
Definition sender_route : option (list (pubkey * bytes)) :=
  mapM route_hop (seq 0 (length ns)).

(** Everything a complete [create] run prints, chunk by chunk. *)
Definition create_lines : option (list string) :=
  mids ← mapM hop_line (seq 0 (length ns - 1));
  l ← last_line (length ns - 1);
  Some (blinding_line :: mids ++ [l]).

End Chain.

(** *** How a path is written on the command line *)

Definition hop_arg (hop : pubkey * bytes) : string :=
  pubkey_to_string hop.1 ++ "/" ++ tal_hex hop.2.

Fixpoint route_lines (route : list (pubkey * bytes)) : list string :=
  match route with
  | [] => []
  | hop :: rest =>
    match rest with
    | [] => [(hop_arg hop ++ nl)%string]
    | _ :: _ => (hop_arg hop ++ " ")%string :: route_lines rest
    end
  end.

Definition render (E0 : pubkey) (route : list (pubkey * bytes)) : list string :=
  blinding_line E0 :: route_lines route.

(** A raw payload that starts with its own length. *)
Definition framed (raw : bytes) : Prop :=
  exists body, raw = bigsize_put (tal_bytelen body) ++ body.

(** *** Unwrapping hop after hop

    Node [ns[0]] unwraps with its key [kxs[0]] (hex) what it was given;
    every further node is given the blinding point and the onion the
    node before it printed.  Each node but the last must print the inner
    TLV naming its successor; the last must print [TERMINAL]. *)
Fixpoint unwrap_chain (prog : string) (ns : list pubkey) (kxs : list string)
    (first : bool) (blinding onion : string) : Prop :=
  match ns, kxs with
  | _ :: ns', kx :: kxs' =>
    let result := main first [prog; "unwrap"; kx; onion; blinding] in
    match ns' with
    | [] => result = ([TERMINAL], inl (Exited 0 ""))
    | n' :: _ =>
      exists blinding' onion',
        result
        = ([ ("Contents: "
                ++ tal_hex (towire_encmsg_tlvs (mk_payload (Some n') None))
                ++ nl)%string;
             ("Next blinding: " ++ blinding' ++ nl)%string;
             ("Next onion: " ++ onion' ++ nl)%string ], inr tt)
        /\ unwrap_chain prog ns' kxs' false blinding' onion'
    end
  | _, _ => False
  end.

(** *** Laws of the libraries *)

(** Scalar multiplication on the curve. *)
Class GroupLaws : Prop := {
  pub_tweak : forall a t a' A,
    secp256k1_ec_privkey_tweak_mul a t = Some a' ->
    pubkey_from_privkey a = Some A ->
    pubkey_from_privkey a' = secp256k1_ec_pubkey_tweak_mul A t;
  ecdh_comm : forall a b A B,
    pubkey_from_privkey a = Some A -> pubkey_from_privkey b = Some B ->
    secp256k1_ecdh B a = secp256k1_ecdh A b;
  ecdh_tweak_comm : forall a b A B t A' B',
    pubkey_from_privkey a = Some A -> pubkey_from_privkey b = Some B ->
    secp256k1_ec_pubkey_tweak_mul A t = Some A' ->
    secp256k1_ec_pubkey_tweak_mul B t = Some B' ->
    secp256k1_ecdh A' b = secp256k1_ecdh B' a;
  tweak_valid : forall A B t,
    secp256k1_ec_pubkey_tweak_mul A t = None ->
    secp256k1_ec_pubkey_tweak_mul B t = None
}.

(** AEAD, wire and hex encodings decode what they encode. *)
Class CodecLaws : Prop := {
  aead_roundtrip : forall m n k, aead_decrypt (aead_encrypt m n k) n k = Some m;
  aead_length : forall m n k, length (aead_encrypt m n k) = length m + 16;
  bigsize_roundtrip : forall n rest, (n < 2 ^ 64)%N ->
    fromwire_bigsize (Some (bigsize_put n ++ rest)) = (n, Some rest);
  bigsize_put_0 : bigsize_put 0 = [x00];
  outer_roundtrip : forall c,
    let p := towire_onionmsg_payload (mk_payload None (Some c)) in
    (tal_bytelen p < 2 ^ 64)%N ->
    exists t, fromwire_onionmsg_payload (Some p) = Some t /\ enctlv t = Some c;
  outer_empty : is_Some (fromwire_onionmsg_payload (Some []));
  hex_roundtrip : forall l, hex_decode (tal_hex l) (length l) = Some l;
  tal_hex_app : forall a b, tal_hex (a ++ b) = (tal_hex a ++ tal_hex b)%string;
  tal_hex_x00 : tal_hex [x00] = "00";
  pubkey_string_roundtrip : forall p,
    pubkey_from_hexstr (pubkey_to_string p) = Some p
}.

(** Modelled from the spec: the mix-net packet library (common/sphinx),
    absent from the sources, through the contract the specification
    gives for it ([parse], [process], [serialize]) and the sender's side
    of that contract: the onion built for a path, processed with the
    shared secret of its first hop, yields that hop's payload and the
    onion for the rest of the path. *)
Class MixNet : Type := {
  create_onionpacket : bytes -> list (pubkey * bytes) -> option onionpacket;
  onion_wire : forall s path op,
    create_onionpacket s path = Some op ->
    length (serialize_onionpacket op) = TOTAL_PACKET_SIZE /\
    parse_onionpacket (serialize_onionpacket op) = Some op;
  onion_ephemeral : forall s path op,
    create_onionpacket s path = Some op ->
    pubkey_from_privkey s = Some (ephemeralkey op);
  onion_fits : forall s path op,
    create_onionpacket s path = Some op ->
    Forall (fun hop => (tal_bytelen hop.2 < 2 ^ 64)%N) path;
  onion_peel : forall s b raw rest op,
    create_onionpacket s ((b, raw) :: rest) = Some op ->
    framed raw ->
    exists ss rs,
      secp256k1_ecdh b s = Some ss /\
      process_onionpacket op ss = Some rs /\
      raw_payload rs = raw /\
      match rest with
      | [] => nextcase rs = ONION_END
      | _ :: _ =>
        nextcase rs = ONION_FORWARD /\
        exists s', create_onionpacket s' rest = Some (next rs)
      end
}.

End Spec.
Arguments Sizes P : clear implicits.
Arguments GroupLaws P : clear implicits.
Arguments CodecLaws P : clear implicits.
Arguments MixNet P : clear implicits.

(** ** Definitions for the properties of the error and output paths *)

Section Paths.
Context `{P : Prims}.

(** The array slots the first loop of [create] has written when it
    enters iteration [i]: [pk_e[0]] from before the loop, and
    [nodes[j]], [b[j]], [rho[j]] for every [j < i]. *)
Definition slots_written (E0 : pubkey) (i : nat) (st : create_state pubkey)
    : Prop :=
  cs_pk_e st !! 0 = Some E0 /\
  forall j, j < i ->
    is_Some (cs_nodes st !! j) /\ is_Some (cs_b st !! j)
    /\ is_Some (cs_rho st !! j).

(** The first [i] node id arguments are valid public keys. *)
Definition ids_valid (argv : list string) (i : nat) : Prop :=
  forall j, j < i -> is_Some (node_of_arg (arg argv (2 + j))).

(** The message of line 140. *)
Definition not_a_valid_pubkey (a : string) : string :=
  a ++ " not a valid pubkey".

(** A chunk of the second loop of [create]: blinded id, a slash, the
    payload in hex behind its own length, a space. *)
Definition hop_entry (l : string) : Prop :=
  exists b p,
    l = (pubkey_to_string b ++ "/" ++ tal_hex (bigsize_put (tal_bytelen p))
           ++ tal_hex p ++ " ")%string.

(** The chunk of line 203. *)
Definition last_entry (b : pubkey) : string :=
  pubkey_to_string b ++ "/00" ++ nl.

End Paths.

Section Failures.
Context `{P : Prims}.

(** Why [unwrap] gave up before it had a processed packet (lines
    221-267): the first check that failed, with its message. *)
Definition input_failure (first : bool) (argv : list string) (msg : string)
    : Prop :=
  (length argv <> 5 /\ msg = "unwrap requires privkey, onion and blinding") \/
  length argv = 5 /\
  ((hex_decode (arg argv 2) sizeof_privkey = None /\
    msg = ("Invalid private key hex '" ++ arg argv 2 ++ "'")%string) \/
   exists privkey, hex_decode (arg argv 2) sizeof_privkey = Some privkey /\
   ((hex_decode (arg argv 3) TOTAL_PACKET_SIZE = None /\
     msg = ("Invalid onion " ++ arg argv 3)%string) \/
    exists onion, hex_decode (arg argv 3) TOTAL_PACKET_SIZE = Some onion /\
    ((pubkey_from_hexstr (arg argv 4) = None /\
      msg = ("Invalid blinding " ++ arg argv 4)%string) \/
     exists blinding, pubkey_from_hexstr (arg argv 4) = Some blinding /\
     ((parse_onionpacket onion = None /\ msg = "Unparsable onion") \/
      exists op ss res onion_ss,
        parse_onionpacket onion = Some op /\
        secp256k1_ecdh blinding privkey = Some ss /\
        effective_ephemeral first op ss = Some res /\
        secp256k1_ecdh res privkey = Some onion_ss /\
        process_onionpacket op onion_ss = None /\
        msg = "Could not process onionpacket")))).

(** Why [unwrap] gave up on the payload of a processed packet (lines
    269-304). *)
Definition payload_failure (us : unwrap_state pubkey onionpacket) (msg : string)
    : Prop :=
  let c := fromwire_bigsize (Some (raw_payload (us_rs us))) in
  fst c = max_of (snd c) /\
  ((fromwire_onionmsg_payload (snd c) = None /\
    msg = ("Invalid payload " ++ tal_hex (raw_payload (us_rs us)))%string) \/
   exists outer,
     fromwire_onionmsg_payload (snd c) = Some outer /\
     nextcase (us_rs us) = ONION_FORWARD /\
     ((enctlv outer = None /\ msg = "No enctlv field") \/
      exists enc, enctlv outer = Some enc /\
        (((tal_bytelen enc < crypto_aead_chacha20poly1305_ietf_ABYTES)%N /\
          msg = "enctlv field too short") \/
         ((crypto_aead_chacha20poly1305_ietf_ABYTES <= tal_bytelen enc)%N /\
          aead_decrypt enc npub (us_rho us) = None /\
          msg = "Failed to decrypt enctlv field")))).

(** The three lines of a forwarding run. *)
Definition forward_lines (dec : bytes) (nb : pubkey) (nxt : onionpacket)
    : list string :=
  [ ("Contents: " ++ tal_hex dec ++ nl)%string;
    ("Next blinding: " ++ pubkey_to_string nb ++ nl)%string;
    ("Next onion: " ++ tal_hex (serialize_onionpacket nxt) ++ nl)%string ].

End Failures.

(** ** A small executable instance of the interface

    Used to run the tool on concrete inputs.  The group is the additive
    group of integers modulo the prime 251 (a point is a residue,
    stored in a byte), the hash is a polynomial checksum, the
    AEAD appends a keyed tag, and sphinx keeps its layout (with a shorter
    routing information field) but encrypts nothing.  Hex, bigsize and the TLV stream are the real encodings. *)

Module Toy.

Definition byte_of (n : N) : byte :=
  match Byte.of_N n with Some b => b | None => x00 end.

(** Big-endian integers. *)
Definition be_value (l : bytes) : N :=
  fold_left (fun acc b => (acc * 256 + Byte.to_N b)%N) l 0%N.

Fixpoint be_bytes (k : nat) (n : N) : bytes :=
  match k with
  | O => []
  | S k' => be_bytes k' (n / 256)%N ++ [byte_of (n mod 256)%N]
  end.

Fixpoint bytes_eqb (a b : bytes) : bool :=
  match a, b with
  | [], [] => true
  | x :: a', y :: b' => Byte.eqb x y && bytes_eqb a' b'
  | _, _ => false
  end.

(** *** Hex *)

Definition hex_digit (n : N) : ascii :=
  match n with
  | 0 => "0" | 1 => "1" | 2 => "2" | 3 => "3" | 4 => "4" | 5 => "5"
  | 6 => "6" | 7 => "7" | 8 => "8" | 9 => "9" | 10 => "a" | 11 => "b"
  | 12 => "c" | 13 => "d" | 14 => "e" | _ => "f"
  end%N%char.

Definition hex_val (c : ascii) : option N :=
  let n := N_of_ascii c in
  if (48 <=? n)%N && (n <=? 57)%N then Some (n - 48)%N
  else if (97 <=? n)%N && (n <=? 102)%N then Some (n - 87)%N
  else if (65 <=? n)%N && (n <=? 70)%N then Some (n - 55)%N
  else None.

Fixpoint tal_hex (l : bytes) : string :=
  match l with
  | [] => EmptyString
  | b :: l' =>
    String (hex_digit (Byte.to_N b / 16)) (String (hex_digit (Byte.to_N b mod 16))
      (tal_hex l'))
  end.

Fixpoint unhex (s : string) : option bytes :=
  match s with
  | EmptyString => Some []
  | String a (String b s') =>
    match hex_val a, hex_val b, unhex s' with
    | Some hi, Some lo, Some l => Some (byte_of (16 * hi + lo) :: l)
    | _, _, _ => None
    end
  | String _ EmptyString => None
  end.

Definition hex_decode (s : string) (n : nat) : option bytes :=
  match unhex s with
  | Some l => if (length l =? n)%nat then Some l else None
  | None => None
  end.

(** *** Hash and HMAC *)

Definition modulus : N := 2147483647.

Definition checksum (l : bytes) : N :=
  fold_left (fun acc b => ((acc * 257 + Byte.to_N b + 1) mod modulus)%N) l 7%N.

Definition sha (l : bytes) : bytes := be_bytes 32 (1 + checksum l).

Definition hmac (label : string) (ss : bytes) : bytes :=
  sha (list_byte_of_string label ++ ss).

(** *** The group *)

Definition q : N := 251.

(** A point is the multiple [val p] of the generator 1. *)
Definition val (p : byte) : N := Byte.to_N p.
Definition pt (v : N) : byte := byte_of v.

(** The scalar a 32-byte string stands for. *)
Definition sv (k : bytes) : N := be_value k mod q.

Definition pub (k : bytes) : option byte :=
  if (sv k =? 0)%N then None else Some (pt (sv k)).

Definition der (p : byte) : bytes := x02 :: repeat x00 31 ++ [p].

Definition ecdh (p : byte) (k : bytes) : option bytes :=
  if (sv k =? 0)%N then None else Some (sha (der (pt ((val p * sv k) mod q)))).

Definition pubkey_tweak_mul (p : byte) (t : bytes) : option byte :=
  if (sv t =? 0)%N then None else Some (pt ((val p * sv t) mod q)).

Definition privkey_tweak_mul (a t : bytes) : option bytes :=
  let r := ((sv a * sv t) mod q)%N in
  if (r =? 0)%N then None else Some (be_bytes 32 r).

Definition pubkey_from_der (l : bytes) : option byte :=
  match l with
  | x02 :: rest =>
    if bytes_eqb (firstn 31 rest) (repeat x00 31) && (length rest =? 32)%nat
    then nth_error rest 31 else None
  | _ => None
  end.

Definition pubkey_from_hexstr (s : string) : option byte :=
  match hex_decode s 33 with Some l => pubkey_from_der l | None => None end.

Definition pubkey_to_string (p : byte) : string := tal_hex (der p).

(** *** AEAD: the message followed by a 16-byte keyed tag *)

Definition tag (m npub key : bytes) : bytes := skipn 16 (sha (key ++ npub ++ m)).

Definition aead_encrypt (m npub key : bytes) : bytes := m ++ tag m npub key.

Definition aead_decrypt (c npub key : bytes) : option bytes :=
  if (length c <? 16)%nat then None else
  let m := firstn (length c - 16) c in
  if bytes_eqb (skipn (length c - 16) c) (tag m npub key) then Some m else None.

(** *** bigsize *)

Definition bigsize_put (n : N) : bytes :=
  if (n <? 253)%N then [byte_of n]
  else if (n <? 65536)%N then xfd :: be_bytes 2 n
  else if (n <? 4294967296)%N then xfe :: be_bytes 4 n
  else xff :: be_bytes 8 n.

(** Read [k] big-endian bytes, refusing values below [least]. *)
Definition bigsize_tail (k : nat) (least : N) (l : bytes) : option (N * bytes) :=
  if (length l <? k)%nat then None else
  let v := be_value (firstn k l) in
  if (v <? least)%N then None else Some (v, skipn k l).

Definition bigsize_get (l : bytes) : option (N * bytes) :=
  match l with
  | [] => None
  | b :: l' =>
    let v := Byte.to_N b in
    if (v <? 253)%N then Some (v, l')
    else if (v =? 253)%N then bigsize_tail 2 253 l'
    else if (v =? 254)%N then bigsize_tail 4 65536 l'
    else bigsize_tail 8 4294967296 l'
  end.

Definition fromwire_bigsize (c : cursor) : N * cursor :=
  match c with
  | Some l =>
    match bigsize_get l with
    | Some (v, l') => (v, Some l')
    | None => (0%N, None)
    end
  | None => (0%N, None)
  end.

(** *** TLV streams: next_node_id is type 4, enctlv type 10 *)

Definition towire_field (type : N) (v : option bytes) : bytes :=
  match v with
  | Some v => bigsize_put type ++ bigsize_put (tal_bytelen v) ++ v
  | None => []
  end.

Definition towire_onionmsg_payload (t : tlv_onionmsg_payload byte) : bytes :=
  towire_field 4 (der <$> next_node_id t) ++ towire_field 10 (enctlv t).

Definition towire_encmsg_tlvs (t : tlv_onionmsg_payload byte) : bytes :=
  towire_field 4 (der <$> next_node_id t).

(** Split a stream into (type, value) records. *)
Fixpoint tlv_records (fuel : nat) (l : bytes) : option (list (N * bytes)) :=
  match l with
  | [] => Some []
  | _ =>
    match fuel with
    | O => None
    | S fuel' =>
      match bigsize_get l with
      | Some (type, l1) =>
        match bigsize_get l1 with
        | Some (len, l2) =>
          if (tal_bytelen l2 <? len)%N then None else
          match tlv_records fuel' (skipn (N.to_nat len) l2) with
          | Some rs => Some ((type, firstn (N.to_nat len) l2) :: rs)
          | None => None
          end
        | None => None
        end
      | None => None
      end
    end
  end.

(** Fill the record; types must increase, unknown even types are refused. *)
Fixpoint tlv_fill (least : N) (rs : list (N * bytes))
    (t : tlv_onionmsg_payload byte) : option (tlv_onionmsg_payload byte) :=
  match rs with
  | [] => Some t
  | (type, v) :: rs' =>
    if (type <? least)%N then None
    else if (type =? 4)%N then
      match pubkey_from_der v with
      | Some n => tlv_fill (type + 1) rs' (mk_payload (Some n) (enctlv t))
      | None => None
      end
    else if (type =? 10)%N then
      tlv_fill (type + 1) rs' (mk_payload (next_node_id t) (Some v))
    else if N.even type then None
    else tlv_fill (type + 1) rs' t
  end.

Definition fromwire_onionmsg_payload (c : cursor)
    : option (tlv_onionmsg_payload byte) :=
  match c with
  | Some l =>
    match tlv_records (length l) l with
    | Some rs => tlv_fill 0 rs (mk_payload None None)
    | None => None
    end
  | None => None
  end.

(** *** sphinx without the encryption *)

Definition ROUTING_INFO_SIZE : nat := 256.
Definition HMAC_SIZE : nat := 32.

Record onionpacket := mk_op {
  op_version : byte;
  op_ephemeralkey : byte;
  op_routinginfo : bytes;
  op_hmac : bytes
}.

Definition serialize_onionpacket (op : onionpacket) : bytes :=
  op_version op :: der (op_ephemeralkey op) ++ op_routinginfo op ++ op_hmac op.

Definition parse_onionpacket (l : bytes) : option onionpacket :=
  match l with
  | x00 :: l' =>
    if (length l' =? 33 + ROUTING_INFO_SIZE + HMAC_SIZE)%nat then
      match pubkey_from_der (firstn 33 l') with
      | Some e =>
        Some (mk_op x00 e (firstn ROUTING_INFO_SIZE (skipn 33 l'))
                    (skipn (33 + ROUTING_INFO_SIZE) l'))
      | None => None
      end
    else None
  | _ => None
  end.

Definition mac (ss routinginfo : bytes) : bytes := sha (ss ++ routinginfo).

Definition pad (frames : bytes) : bytes :=
  frames ++ repeat x00 (ROUTING_INFO_SIZE - length frames).

(** The blinding factor of a hop, as sphinx derives it. *)
Definition blind (e : byte) (ss : bytes) : bytes := sha (der e ++ ss).

(** [has_realm] is the last argument of the library function: when set,
    a zero length prefix announces the legacy fixed 32-byte payload.  The
    tool always passes [false]. *)
Definition process_onionpacket (has_realm : bool) (op : onionpacket) (ss : bytes)
    : option (route_step onionpacket) :=
  let ri := op_routinginfo op in
  if negb (bytes_eqb (op_hmac op) (mac ss ri)) then None else
  match bigsize_get ri with
  | None => None
  | Some (len, body) =>
    let payload_size :=
      if has_realm && (len =? 0)%N && (32 <=? length body)%nat then 32%N else len in
    let plen := length ri - length body + N.to_nat payload_size in
    if (length ri <? plen + HMAC_SIZE)%nat then None else
    let nh := firstn HMAC_SIZE (skipn plen ri) in
    let e' := default (op_ephemeralkey op)
                (pubkey_tweak_mul (op_ephemeralkey op) (blind (op_ephemeralkey op) ss)) in
    Some (mk_route_step
            (if bytes_eqb nh (repeat x00 HMAC_SIZE) then ONION_END else ONION_FORWARD)
            (firstn plen ri)
            (mk_op (op_version op) e'
               (skipn (plen + HMAC_SIZE) ri ++ repeat x00 (plen + HMAC_SIZE)) nh))
  end.

(** The sender: frames and HMAC of the packet for [path], session key [s]. *)
Fixpoint layers (s : bytes) (path : list (byte * bytes)) : option (byte * bytes * bytes) :=
  match path with
  | [] => None
  | (b, raw) :: rest =>
    match pub s, ecdh b s with
    | Some e, Some ss =>
      let inner :=
        match rest with
        | [] => Some ([], repeat x00 HMAC_SIZE)
        | _ =>
          match privkey_tweak_mul s (blind e ss) with
          | Some s' =>
            match layers s' rest with
            | Some (_, fr, hm) => Some (fr, hm)
            | None => None
            end
          | None => None
          end
        end in
      match inner with
      | Some (fr, hm) =>
        let frames := raw ++ hm ++ fr in
        if (ROUTING_INFO_SIZE <? length frames)%nat then None
        else Some (e, frames, mac ss (pad frames))
      | None => None
      end
    | _, _ => None
    end
  end.

Definition create_onionpacket (s : bytes) (path : list (byte * bytes))
    : option onionpacket :=
  match layers s path with
  | Some (e, fr, hm) => Some (mk_op x00 e (pad fr) hm)
  | None => None
  end.

Definition prims_with (has_realm : bool) : Prims :=
  Build_Prims byte onionpacket
    pub ecdh pubkey_tweak_mul privkey_tweak_mul der
    pubkey_from_hexstr pubkey_to_string
    sha hmac
    aead_encrypt aead_decrypt
    towire_encmsg_tlvs towire_onionmsg_payload fromwire_onionmsg_payload
    bigsize_put fromwire_bigsize
    (1 + 33 + ROUTING_INFO_SIZE + HMAC_SIZE)
    parse_onionpacket op_ephemeralkey (process_onionpacket has_realm)
    serialize_onionpacket
    hex_decode tal_hex.

(** The library as the tool calls it. *)
Definition prims : Prims := prims_with false.

(** The same library answering as it does to callers that accept legacy
    payloads. *)
Definition legacy_prims : Prims := prims_with true.

End Toy.

(** ** Concrete runs on the small instance *)

Module Scenario.

Definition prog : string := "blindedpath".

(** Three nodes: private keys 11, 23 and 101. *)
Definition kA : bytes := Toy.be_bytes 32 11.
Definition kB : bytes := Toy.be_bytes 32 23.
Definition kC : bytes := Toy.be_bytes 32 101.
Definition nA : byte := x0b.
Definition nB : byte := x17.
Definition nC : byte := x65.
Definition nodes : list byte := [nA; nB; nC].
Definition keys : list bytes := [kA; kB; kC].
Definition keys_hex : list string := map Toy.tal_hex keys.

(** [create]'s ephemeral key and its public half. *)
Definition e0 : bytes := memset x06 sizeof_privkey.
Definition E0 : byte := xdc.

Definition node_ids : list string :=
  [Toy.pubkey_to_string nA; (Toy.pubkey_to_string nB ++ "/0102")%string;
   Toy.pubkey_to_string nC].
Definition create_argv : list string := prog :: "create" :: node_ids.

(** The same nodes, written differently. *)
Definition create_argv' : list string :=
  [prog; "create"; (Toy.pubkey_to_string nA ++ "/2a")%string;
   Toy.pubkey_to_string nB; (Toy.pubkey_to_string nC ++ "/")%string].

Definition create_lines3 : list string :=
  Eval vm_compute in fst (create (P:=Toy.prims) create_argv).

Definition route3 : list (byte * bytes) :=
  default [] (sender_route (P:=Toy.prims) e0 E0 nodes).

(** The onion the sender's sphinx builds, session key 77. *)
Definition session : bytes := Toy.be_bytes 32 77.
Definition no_onion : Toy.onionpacket := Toy.mk_op x00 x00 [] [].
Definition onion (path : list (byte * bytes)) : Toy.onionpacket :=
  default no_onion (Toy.create_onionpacket session path).

Definition unwrap_argv (k : bytes) (op : Toy.onionpacket) (blinding : byte)
    : list string :=
  [prog; "unwrap"; Toy.tal_hex k; Toy.tal_hex (Toy.serialize_onionpacket op);
   Toy.pubkey_to_string blinding].

(** What a computation returned, for runs known to return. *)
Definition returned {A} (d : A) (m : M A) : A :=
  match snd m with inr a => a | inl _ => d end.
Definition no_state : unwrap_state byte Toy.onionpacket :=
  mk_us x00 [] [] [] (mk_route_step ONION_END [] no_onion).
Definition state_after (P : Prims) (first : bool) (argv : list string)
    (d : unwrap_state pubkey onionpacket) : unwrap_state pubkey onionpacket :=
  returned d (unwrap_process first argv).
Definition outer_after (P : Prims) (us : unwrap_state pubkey onionpacket)
    : tlv_onionmsg_payload pubkey :=
  returned (mk_payload None None) (unwrap_decode (us_rs us)).

(** A length-prefixed payload. *)
Definition frame (p : bytes) : bytes := Toy.bigsize_put (tal_bytelen p) ++ p.

(** Node A, first hop of the three-node route. *)
Definition argv_A : list string :=
  Eval vm_compute in unwrap_argv kA (onion route3) E0.
Definition us_A : unwrap_state byte Toy.onionpacket :=
  Eval vm_compute in state_after Toy.prims true argv_A no_state.
Definition lines_A : list string :=
  Eval vm_compute in fst (unwrap (P:=Toy.prims) true argv_A).

(** Node A alone on a route. *)
Definition route1 : list (byte * bytes) := [(nA, [x00])].
Definition argv_T : list string :=
  Eval vm_compute in unwrap_argv kA (onion route1) E0.
Definition us_T : unwrap_state byte Toy.onionpacket :=
  Eval vm_compute in state_after Toy.prims true argv_T no_state.
Definition outer_T : tlv_onionmsg_payload byte :=
  Eval vm_compute in outer_after Toy.prims us_T.

(** The same run against a sphinx that accepts legacy payloads. *)
Definition us_L : unwrap_state byte Toy.onionpacket :=
  Eval vm_compute in state_after Toy.legacy_prims true argv_T no_state.

(** Node A alone on a route, its payload carrying an enctlv all the same. *)
Definition stray_enctlv : bytes := repeat x2a 16.
Definition route_X : list (byte * bytes) :=
  [(nA, frame (Toy.towire_onionmsg_payload (mk_payload None (Some stray_enctlv))))].
Definition argv_X : list string :=
  Eval vm_compute in unwrap_argv kA (onion route_X) E0.
Definition us_X : unwrap_state byte Toy.onionpacket :=
  Eval vm_compute in state_after Toy.prims true argv_X no_state.

(** Node A asked to forward, with an empty payload. *)
Definition route2 : list (byte * bytes) := [(nA, [x00]); (nB, [x00])].
Definition argv_F : list string :=
  Eval vm_compute in unwrap_argv kA (onion route2) E0.
Definition us_F : unwrap_state byte Toy.onionpacket :=
  Eval vm_compute in state_after Toy.prims true argv_F no_state.
Definition outer_F : tlv_onionmsg_payload byte :=
  Eval vm_compute in outer_after Toy.prims us_F.

(** Node B as a later hop: the sender addressed its blinded identity. *)
Definition ss_B : bytes := default [] (Toy.ecdh E0 kB).
Definition blinded_B : byte :=
  default x00 (Toy.pubkey_tweak_mul nB (Toy.hmac "blinded_node_id" ss_B)).
Definition route_B : list (byte * bytes) := [(blinded_B, [x00])].
Definition argv_B : list string :=
  Eval vm_compute in unwrap_argv kB (onion route_B) E0.
Definition us_B : unwrap_state byte Toy.onionpacket :=
  Eval vm_compute in state_after Toy.prims false argv_B no_state.

End Scenario.

(** ** Further concrete runs *)

Module Scenario2.
Import Scenario.

(** A second node id that is no public key, scid and all. *)
Definition argv_bad : list string :=
  [prog; "create"; Toy.pubkey_to_string nA; "zz/0102"; Toy.pubkey_to_string nC].

(** Node B as a later hop: its onion, and its blinded private key. *)
Definition op_B : Toy.onionpacket := Eval vm_compute in onion route_B.
Definition onion_B : bytes := Eval vm_compute in Toy.serialize_onionpacket op_B.
Definition bk_B : bytes :=
  Eval vm_compute in
    default [] (Toy.privkey_tweak_mul kB (Toy.hmac "blinded_node_id" (us_ss us_B))).

(** A single node for which the first multiplication of the ephemeral
    private key fails. *)
Definition nZ : byte := xea.
Definition ss_Z : bytes := Eval vm_compute in default [] (Toy.ecdh nZ e0).

(** The slots of a two-node [create] after its first loop, and node A's
    step once sphinx has handed the payload back. *)
Definition rho_A : bytes := repeat x07 32.
Definition st_AB : create_state byte :=
  mk_cs e0 {[ 0 := nA; 1 := nB ]} {[ 0 := E0 ]} {[ 0 := nA ]} {[ 0 := rho_A ]}.
Definition raw_AB : bytes :=
  Eval vm_compute in
    frame (Toy.towire_onionmsg_payload
             (mk_payload None
                (Some (Toy.aead_encrypt
                         (Toy.towire_encmsg_tlvs (mk_payload (Some nB) None))
                         npub rho_A)))).
Definition us_AB : unwrap_state byte Toy.onionpacket :=
  mk_us E0 [] rho_A [] (mk_route_step ONION_FORWARD raw_AB no_onion).

(** The arrays of the three-node run when its first loop returns. *)
Definition no_slots : create_state byte := mk_cs [] ∅ ∅ ∅ ∅.
Definition st_3 : create_state byte :=
  returned no_slots
    (for_loop 3 0 (create_derive (P:=Toy.prims) create_argv 3)
       (mk_cs e0 ∅ {[ 0 := E0 ]} ∅ ∅)).

(** The route of nodes A and B alone. *)
Definition create_argv2 : list string :=
  [prog; "create"; Toy.pubkey_to_string nA; (Toy.pubkey_to_string nB ++ "/0102")%string].
Definition create_lines2 : list string :=
  Eval vm_compute in fst (create (P:=Toy.prims) create_argv2).

End Scenario2.

(** ** Reasoning about the process monad *)

Lemma bind_inr {A B} (m : M A) (f : A -> M B) out b :
  bind m f = (out, inr b) ->
  exists out1 a out2, m = (out1, inr a) /\ f a = (out2, inr b) /\ out = out1 ++ out2.
Proof.
  unfold bind. destruct m as [o1 [h|a]]; [discriminate|].
  destruct (f a) as [o2 r] eqn:E. intros [= <- <-]. eauto 6.
Qed.

Lemma bind_ret_l {A B} (a : A) (f : A -> M B) : bind (ret a) f = f a.
Proof. unfold bind, ret. destruct (f a). reflexivity. Qed.

Lemma bind_halt {A B} out h (f : A -> M B) : bind (out, inl h) f = (out, inl h).
Proof. reflexivity. Qed.

Lemma bind_val {A B} out (a : A) (f : A -> M B) :
  bind (out, inr a) f = (out ++ fst (f a), snd (f a)).
Proof. unfold bind. destruct (f a). reflexivity. Qed.

Lemma or_abort_inr {A} (o : option A) out a :
  or_abort o = (out, inr a) -> o = Some a /\ out = [].
Proof. destruct o; cbv; intros [= <- <-] || discriminate; auto. Qed.

Lemma or_errx_inr {A} (o : option A) msg out a :
  or_errx o msg = (out, inr a) -> o = Some a /\ out = [].
Proof. destruct o; cbv; intros [= <- <-] || discriminate; auto. Qed.

Lemma assert_inr c out u : assert c = (out, inr u) -> c = true /\ out = [].
Proof. destruct c; cbv; intros [= <- <-] || discriminate; auto. Qed.

Lemma ret_inr {A} (a a' : A) out : ret a = (out, inr a') -> a = a' /\ out = [].
Proof. cbv. intros [= <- <-]. auto. Qed.

(** Peel one successful [bind] off a hypothesis, naming the value and
    what is known about the step that produced it. *)
Tactic Notation "peel" hyp(H) "as" ident(a) ident(H1) :=
  let o1 := fresh "out" in let o2 := fresh "out" in
  apply bind_inr in H; destruct H as (o1 & a & o2 & H1 & H & ->);
  first [ apply or_abort_inr in H1; destruct H1 as [H1 ->]
        | apply or_errx_inr in H1; destruct H1 as [H1 ->]
        | apply assert_inr in H1; destruct H1 as [H1 ->]
        | idtac ].

(** Case on the next fallible call of a computation whose output is
    being computed. *)
Ltac step_opt :=
  match goal with
  | |- context [or_errx ?o _] => destruct o; cbn [or_errx]
  | |- context [or_abort ?o] => destruct o; cbn [or_abort]
  end; [rewrite bind_ret_l | reflexivity].

Lemma same_run_refl {A} (m : M A) : same_run m m.
Proof. split; [reflexivity|]. destruct (snd m); reflexivity. Qed.

Lemma same_run_bind {A B} (m1 m2 : M A) (f1 f2 : A -> M B) :
  same_run m1 m2 -> (forall a, same_run (f1 a) (f2 a)) ->
  same_run (bind m1 f1) (bind m2 f2).
Proof.
  destruct m1 as [o1 [h1|a1]], m2 as [o2 [h2|a2]]; intros [Ho Hr] Hf;
    simpl in Ho, Hr; subst; try contradiction.
  - split; [reflexivity|exact Hr].
  - unfold bind. specialize (Hf a2).
    destruct (f1 a2) as [p1 r1], (f2 a2) as [p2 r2]. destruct Hf as [Hp Hr].
    simpl in Hp, Hr. subst. split; [reflexivity|exact Hr].
Qed.

Lemma same_run_for_loop {St} (b1 b2 : nat -> St -> M St) :
  (forall i st, same_run (b1 i st) (b2 i st)) ->
  forall n i st, same_run (for_loop n i b1 st) (for_loop n i b2 st).
Proof.
  intros Hb n. induction n as [|n IH]; intros i st; simpl.
  - apply same_run_refl.
  - apply same_run_bind; [apply Hb|]. intros st'. apply IH.
Qed.

Lemma same_run_eq {A} (m1 m2 : M A) a :
  same_run m1 m2 -> snd m1 = inr a -> m1 = m2.
Proof.
  destruct m1 as [o1 r1], m2 as [o2 r2]. intros [Ho Hr] E. simpl in *. subst.
  destruct r2; [contradiction|]. congruence.
Qed.

Section Facts.
Context `{P : Prims}.

(** A loop over [i < hi] whose body keeps an invariant and prints nothing. *)
Lemma for_loop_silent {St} (I : nat -> St -> Prop) (body : nat -> St -> M St) hi :
  (forall i st out st', i < hi -> I i st -> body i st = (out, inr st') ->
     out = [] /\ I (S i) st') ->
  forall n i st out st',
    n + i <= hi -> I i st -> for_loop n i body st = (out, inr st') ->
    out = [] /\ I (n + i) st'.
Proof.
  intros Hbody n. induction n as [|n IH]; intros i st out st' Hle Hi Hrun; simpl in *.
  - apply ret_inr in Hrun as [<- ->]. auto.
  - apply bind_inr in Hrun as (o1 & st1 & o2 & H1 & H2 & ->).
    destruct (Hbody i st o1 st1 ltac:(lia) Hi H1) as [-> Hi'].
    destruct (IH (S i) st1 o2 st' ltac:(lia) Hi' H2) as [-> Hn].
    split; [reflexivity|]. replace (S (n + i)) with (n + S i) by lia. exact Hn.
Qed.

(** A loop over [i < hi] whose body prints one chunk per iteration. *)
Lemma for_loop_chunks {St} (Q : nat -> string -> Prop) (body : nat -> St -> M St) hi :
  (forall i st out st', i < hi -> body i st = (out, inr st') ->
     exists l, out = [l] /\ Q i l) ->
  forall n i st out st',
    n + i <= hi -> for_loop n i body st = (out, inr st') ->
    length out = n /\ forall j l, out !! j = Some l -> Q (i + j) l.
Proof.
  intros Hbody n. induction n as [|n IH]; intros i st out st' Hle Hrun; simpl in *.
  - apply ret_inr in Hrun as [<- ->]. split; [reflexivity|]. intros j l Hl.
    rewrite lookup_nil in Hl. discriminate.
  - apply bind_inr in Hrun as (o1 & st1 & o2 & H1 & H2 & ->).
    destruct (Hbody i st o1 st1 ltac:(lia) H1) as (l0 & -> & Hq).
    destruct (IH (S i) st1 o2 st' ltac:(lia) H2) as [Hlen Hn].
    split; [simpl; lia|]. intros [|j] l Hl; simpl in Hl.
    + injection Hl as <-. replace (i + 0) with i by lia. exact Hq.
    + replace (i + S j) with (S i + j) by lia. apply Hn. exact Hl.
Qed.

(** A loop whose body always returns, silently, returns. *)
Lemma for_loop_runs {St} (I : nat -> St -> Prop) (body : nat -> St -> M St) hi :
  (forall i st, i < hi -> I i st ->
     exists st', body i st = ([], inr st') /\ I (S i) st') ->
  forall n i st,
    n + i <= hi -> I i st ->
    exists st', for_loop n i body st = ([], inr st') /\ I (n + i) st'.
Proof.
  intros Hbody n. induction n as [|n IH]; intros i st Hle Hi.
  - exists st. split; [reflexivity|exact Hi].
  - destruct (Hbody i st ltac:(lia) Hi) as (st1 & H1 & Hi1).
    destruct (IH (S i) st1 ltac:(lia) Hi1) as (st' & H2 & Hn).
    exists st'. cbn [for_loop]. rewrite H1, bind_val, H2.
    split; [reflexivity|]. replace (S n + i) with (n + S i) by lia. exact Hn.
Qed.

(** A loop whose body always prints and returns, returns. *)
Lemma for_loop_prints (body : nat -> unit -> M unit) hi :
  (forall i, i < hi -> exists l, body i tt = ([l], inr tt)) ->
  forall n i, n + i <= hi -> exists out, for_loop n i body tt = (out, inr tt).
Proof.
  intros Hbody n. induction n as [|n IH]; intros i Hle.
  - exists []. reflexivity.
  - destruct (Hbody i ltac:(lia)) as (l & H1).
    destruct (IH (S i) ltac:(lia)) as (out & H2).
    exists (l :: out). cbn [for_loop]. rewrite H1, bind_val, H2. reflexivity.
Qed.

End Facts.


(** ** unwrap: what a run that got through sphinx has computed *)

Section Unwrap.
Context `{P : Prims}.

Lemma unwrap_process_inr first argv out us :
  unwrap_process first argv = (out, inr us) ->
  out = [] /\ exists privkey op, processed first argv us privkey op.
Proof.
  unfold unwrap_process. intros H.
  destruct (length argv =? 5)%nat eqn:Hargc; simpl in H; [|discriminate].
  apply Nat.eqb_eq in Hargc.
  peel H as k Hk. peel H as onion Hon. peel H as bl Hb. peel H as op Hop.
  peel H as ss Hss.
  apply bind_inr in H as (o4 & res & o5 & Hres & H & ->).
  peel H as oss Hoss. peel H as rs Hrs.
  apply ret_inr in H as [<- ->]. simpl.
  assert (effective_ephemeral first op ss = Some res /\ o4 = []) as [Heff ->].
  { unfold effective_ephemeral. destruct first; simpl in Hres.
    - apply ret_inr in Hres as [-> ->]. auto.
    - apply or_abort_inr in Hres as [-> ->]. auto. }
  split; [reflexivity|]. exists k, op.
  constructor; simpl; eauto.
Qed.

Lemma unwrap_decode_inr rs out outer :
  unwrap_decode rs = (out, inr outer) ->
  out = [] /\
  fst (fromwire_bigsize (Some (raw_payload rs)))
    = max_of (snd (fromwire_bigsize (Some (raw_payload rs)))) /\
  fromwire_onionmsg_payload (snd (fromwire_bigsize (Some (raw_payload rs))))
    = Some outer.
Proof.
  unfold unwrap_decode. destruct (fromwire_bigsize _) as [len c]. simpl.
  intros H. peel H as u Hlen.
  apply or_errx_inr in H as [Hd ->]. apply N.eqb_eq in Hlen. auto.
Qed.

(** Once sphinx and the outer TLV are through, the run is the delivery. *)
Lemma unwrap_reached first argv us outer o0 o1 :
  unwrap_process first argv = (o0, inr us) ->
  unwrap_decode (us_rs us) = (o1, inr outer) ->
  unwrap first argv = unwrap_deliver us outer.
Proof.
  intros H0 H1. unfold unwrap.
  destruct (unwrap_process_inr _ _ _ _ H0) as [-> _].
  destruct (unwrap_decode_inr _ _ _ H1) as [-> _].
  rewrite H0, bind_val. simpl. rewrite H1, bind_val. simpl.
  destruct (unwrap_deliver us outer). reflexivity.
Qed.

Lemma deliver_end us outer :
  nextcase (us_rs us) = ONION_END ->
  unwrap_deliver us outer = ([TERMINAL], inl (Exited 0 "")).
Proof. unfold unwrap_deliver. intros ->. reflexivity. Qed.

Lemma deliver_forward_not_terminal us outer :
  nextcase (us_rs us) = ONION_FORWARD ->
  ~ In TERMINAL (stdout (unwrap_deliver us outer)).
Proof.
  unfold unwrap_deliver. intros ->.
  destruct (enctlv outer) as [enc|]; simpl; [|tauto].
  destruct (tal_bytelen enc <? _)%N; simpl; [tauto|].
  destruct (aead_decrypt _ _ _) as [dec|]; simpl; [|tauto].
  unfold next_pubkey.
  destruct (secp256k1_ec_pubkey_tweak_mul _ _) as [nb|]; simpl.
  - unfold TERMINAL. intros [H|[H|[H|[]]]]; discriminate H.
  - unfold TERMINAL. intros [H|[]]; discriminate H.
Qed.

End Unwrap.

Section UnwrapDeliver.
Context `{P : Prims}.

Lemma unwrap_process_silent first argv : stdout (unwrap_process first argv) = [].
Proof.
  unfold unwrap_process.
  destruct (negb _); [reflexivity|].
  do 5 step_opt.
  destruct first; simpl negb; cbv iota.
  - rewrite bind_ret_l. step_opt.
    destruct (process_onionpacket _ _); reflexivity.
  - do 2 step_opt.
    destruct (process_onionpacket _ _); reflexivity.
Qed.

Lemma unwrap_decode_silent rs : stdout (unwrap_decode rs) = [].
Proof.
  unfold unwrap_decode. destruct (fromwire_bigsize _) as [len c].
  destruct (len =? max_of c)%N; [|reflexivity]. simpl assert. rewrite bind_ret_l.
  destruct (fromwire_onionmsg_payload c); reflexivity.
Qed.

(** A run that falls off the end of [main] went through every step of
    the forwarding case. *)
Lemma deliver_inr us outer out u :
  unwrap_deliver us outer = (out, inr u) ->
  nextcase (us_rs us) = ONION_FORWARD /\
  exists enc dec nb,
    enctlv outer = Some enc /\
    (crypto_aead_chacha20poly1305_ietf_ABYTES <= tal_bytelen enc)%N /\
    aead_decrypt enc npub (us_rho us) = Some dec /\
    secp256k1_ec_pubkey_tweak_mul (us_blinding us)
      (hash_e_and_ss (us_blinding us) (us_ss us)) = Some nb /\
    out = [ ("Contents: " ++ tal_hex dec ++ nl)%string;
            ("Next blinding: " ++ pubkey_to_string nb ++ nl)%string;
            ("Next onion: " ++ tal_hex (serialize_onionpacket (next (us_rs us)))
               ++ nl)%string ].
Proof.
  unfold unwrap_deliver. destruct (nextcase (us_rs us)); [discriminate|].
  intros H. split; [reflexivity|].
  peel H as enc Henc.
  destruct (tal_bytelen enc <? _)%N eqn:Hlen; [discriminate|].
  apply N.ltb_ge in Hlen.
  peel H as dec Hdec.
  apply bind_inr in H as (oa & [] & ob & Hp1 & H & ->).
  apply bind_inr in H as (oc & nb & od & Hnb & H & ->).
  apply or_abort_inr in Hnb as [Hnb ->].
  apply bind_inr in H as (oe & [] & og & Hp2 & H & ->).
  injection Hp1 as <-. injection Hp2 as <-. injection H as <-.
  exists enc, dec, nb. repeat split; auto.
Qed.

End UnwrapDeliver.

(** *** Running unwrap forward *)

Section UnwrapForward.
Context `{P : Prims}.

Lemma unwrap_forward first prog kx onion bl k on E op ss res oss rs p outer :
  hex_decode kx sizeof_privkey = Some k ->
  hex_decode onion TOTAL_PACKET_SIZE = Some on ->
  pubkey_from_hexstr bl = Some E ->
  parse_onionpacket on = Some op ->
  secp256k1_ecdh E k = Some ss ->
  effective_ephemeral first op ss = Some res ->
  secp256k1_ecdh res k = Some oss ->
  process_onionpacket op oss = Some rs ->
  fromwire_bigsize (Some (raw_payload rs)) = (tal_bytelen p, Some p) ->
  fromwire_onionmsg_payload (Some p) = Some outer ->
  unwrap first [prog; "unwrap"; kx; onion; bl]
  = unwrap_deliver (mk_us E ss (subkey_from_hmac "rho" ss) oss rs) outer.
Proof.
  intros Hk Hon Hbl Hop Hss Hres Hoss Hrs Hlen Hout.
  unfold unwrap, unwrap_process. cbn [length Nat.eqb negb arg nth].
  rewrite Hk. cbn [or_errx]. rewrite bind_ret_l.
  rewrite Hon. cbn [or_errx]. rewrite bind_ret_l.
  rewrite Hbl. cbn [or_errx]. rewrite bind_ret_l.
  rewrite Hop. cbn [or_errx]. rewrite bind_ret_l.
  rewrite Hss. cbn [or_abort]. rewrite bind_ret_l.
  assert ((if negb first
           then or_abort (secp256k1_ec_pubkey_tweak_mul (ephemeralkey op)
                            (subkey_from_hmac "blinded_node_id" ss))
           else ret (ephemeralkey op)) = ret res) as ->.
  { unfold effective_ephemeral in Hres. destruct first; cbn [negb].
    - congruence.
    - rewrite Hres. reflexivity. }
  rewrite bind_ret_l.
  rewrite Hoss. cbn [or_abort]. rewrite bind_ret_l.
  rewrite Hrs. cbn [or_errx]. rewrite !bind_ret_l.
  cbn [us_rs]. unfold unwrap_decode. rewrite Hlen. cbn [max_of].
  rewrite N.eqb_refl. cbn [assert]. rewrite bind_ret_l.
  rewrite Hout. cbn [or_errx]. rewrite bind_ret_l. reflexivity.
Qed.

Lemma deliver_forward us outer enc dec nb :
  nextcase (us_rs us) = ONION_FORWARD ->
  enctlv outer = Some enc ->
  (crypto_aead_chacha20poly1305_ietf_ABYTES <= tal_bytelen enc)%N ->
  aead_decrypt enc npub (us_rho us) = Some dec ->
  secp256k1_ec_pubkey_tweak_mul (us_blinding us)
    (hash_e_and_ss (us_blinding us) (us_ss us)) = Some nb ->
  unwrap_deliver us outer
  = ([ ("Contents: " ++ tal_hex dec ++ nl)%string;
       ("Next blinding: " ++ pubkey_to_string nb ++ nl)%string;
       ("Next onion: " ++ tal_hex (serialize_onionpacket (next (us_rs us)))
          ++ nl)%string ], inr tt).
Proof.
  intros Hc Henc Hlen Hdec Hnb. unfold unwrap_deliver. rewrite Hc, Henc.
  cbn [or_errx]. rewrite bind_ret_l.
  apply N.ltb_ge in Hlen. rewrite Hlen, Hdec. cbn [or_errx]. rewrite bind_ret_l.
  unfold next_pubkey. rewrite Hnb. reflexivity.
Qed.

End UnwrapForward.

(** ** The ratchet of the specification *)

Section Ratchet.
Context `{P : Prims}.
Variables (e0 : bytes) (E0 : pubkey) (ns : list pubkey).

(** One step of the ratchet, read backwards. *)
Lemma eph_at_S i e' :
  e_at e0 E0 ns (S i) = Some e' ->
  exists e E n ss,
    e_at e0 E0 ns i = Some e /\ E_at e0 E0 ns i = Some E /\
    ns !! i = Some n /\ secp256k1_ecdh n e = Some ss /\
    secp256k1_ec_privkey_tweak_mul e (hash_e_and_ss E ss) = Some e' /\
    E_at e0 E0 ns (S i) = secp256k1_ec_pubkey_tweak_mul E (hash_e_and_ss E ss).
Proof.
  unfold e_at, E_at. cbn [eph_at]. destruct (eph_at e0 E0 ns i) as [oe oE].
  cbn [fst snd]. unfold hop_h, hop_ss.
  destruct oe as [e|]; [|discriminate]. cbn [mbind option_bind].
  destruct oE as [E|]; [|discriminate]. cbn [mbind option_bind].
  destruct (ns !! i) as [n|]; [|discriminate]. cbn [mbind option_bind].
  destruct (secp256k1_ecdh n e) as [ss|] eqn:Hss; [|discriminate].
  cbn [mbind option_bind].
  intros H. exists e, E, n, ss. repeat split; auto.
Qed.

Lemma e_at_le n j :
  is_Some (e_at e0 E0 ns n) -> j <= n -> is_Some (e_at e0 E0 ns j).
Proof.
  intros Hn Hle. induction Hle as [|n Hle IH]; [exact Hn|].
  apply IH. destruct Hn as [e' He'].
  destruct (eph_at_S _ _ He') as (e & _ & _ & _ & He & _). eauto.
Qed.

(** Everything hop [i] of a complete derivation has. *)
Lemma hop_facts i :
  is_Some (e_at e0 E0 ns (length ns)) -> i < length ns ->
  exists e E n ss,
    e_at e0 E0 ns i = Some e /\ E_at e0 E0 ns i = Some E /\
    ns !! i = Some n /\ secp256k1_ecdh n e = Some ss /\
    ss_at e0 E0 ns i = Some ss /\
    is_Some (e_at e0 E0 ns (S i)) /\
    E_at e0 E0 ns (S i) = secp256k1_ec_pubkey_tweak_mul E (hash_e_and_ss E ss).
Proof.
  intros HN Hi. destruct (e_at_le _ (S i) HN ltac:(lia)) as [e' He'].
  destruct (eph_at_S _ _ He') as (e & E & n & ss & He & HE & Hn & Hss & _ & HES).
  exists e, E, n, ss. repeat split; eauto.
  unfold ss_at, hop_ss. rewrite He. cbn [mbind option_bind].
  rewrite Hn. exact Hss.
Qed.

(** The ratchet keeps the two halves of the ephemeral key together. *)
Lemma pub_e_at (G : GroupLaws P) i e E :
  pubkey_from_privkey e0 = Some E0 ->
  e_at e0 E0 ns i = Some e -> E_at e0 E0 ns i = Some E ->
  pubkey_from_privkey e = Some E.
Proof.
  intros H0. revert e E. induction i as [|i IH]; intros e E He HE.
  - cbv in He, HE. congruence.
  - destruct (eph_at_S _ _ He) as (e1 & E1 & n & ss & He1 & HE1 & _ & _ & Ht & HES).
    rewrite (pub_tweak _ _ _ _ Ht (IH _ _ He1 HE1)), <- HES. exact HE.
Qed.

End Ratchet.

(** ** create: the first loop computes the ratchet *)

Section Create.
Context `{P : Prims}.

Lemma arg_lookup (argv : list string) i a : argv !! i = Some a -> arg argv i = a.
Proof. unfold arg. intros H. rewrite nth_lookup, H. reflexivity. Qed.

Lemma node_args_length argv ns : node_args argv ns -> length ns = length argv - 2.
Proof.
  unfold node_args. intros H. apply Forall2_length in H.
  rewrite length_drop in H. lia.
Qed.

Lemma node_args_lookup argv ns i n :
  node_args argv ns -> ns !! i = Some n -> node_of_arg (arg argv (2 + i)) = Some n.
Proof.
  unfold node_args. intros H Hn.
  destruct (Forall2_lookup_r _ _ _ _ _ H Hn) as (a & Ha & Hp).
  rewrite lookup_drop in Ha. rewrite (arg_lookup _ _ _ Ha). exact Hp.
Qed.

Section Derive.
Variables (e0 : bytes) (E0 : pubkey) (ns : list pubkey) (argv : list string).
Hypothesis Hargs : node_args argv ns.

Lemma derive_inv_init :
  derive_inv e0 E0 ns 0 (mk_cs e0 ∅ {[ 0 := E0 ]} ∅ ∅).
Proof.
  split; [reflexivity|]. split; [|split].
  - intros _. exists E0. split; [reflexivity|]. apply lookup_singleton_eq.
  - apply lookup_singleton_eq.
  - intros j Hj. lia.
Qed.

Lemma create_derive_step i st out st' :
  i < length ns -> derive_inv e0 E0 ns i st ->
  create_derive argv (length ns) i st = (out, inr st') ->
  out = [] /\ derive_inv e0 E0 ns (S i) st'.
Proof.
  intros Hi (He & HE & HE0 & Hold) H.
  destruct (HE Hi) as (E & HEi & Hpk). clear HE.
  destruct (lookup_lt_is_Some_2 ns i Hi) as [n Hn].
  pose proof (node_args_lookup _ _ _ _ Hargs Hn) as Hparse.
  unfold create_derive in H.
  peel H as node Hnode.
  unfold node_of_arg in Hparse. rewrite Hparse in Hnode. injection Hnode as <-.
  peel H as ss Hss.
  apply bind_inr in H as (ob & b_i & ob' & Hb & H & ->).
  peel H as pk_e_i Hrd.
  rewrite Hpk in Hrd. injection Hrd as <-.
  apply bind_inr in H as (op & pk_e & op' & Hpke & H & ->).
  peel H as e' He'.
  apply ret_inr in H as [<- ->].
  (* the secrets of hop i *)
  assert (ss_at e0 E0 ns i = Some ss) as Hssi.
  { unfold ss_at, hop_ss. rewrite He. simpl. rewrite Hn. simpl. exact Hss. }
  assert (h_at e0 E0 ns i = Some (hash_e_and_ss E ss)) as Hhi.
  { unfold h_at, hop_h. rewrite HEi, Hssi. reflexivity. }
  assert (blindedId e0 E0 ns i = Some b_i /\ ob = []) as [Hbi ->].
  { unfold blindedId, tweak_at. rewrite Hn, Hssi. simpl.
    destruct (i =? 0)%nat; simpl in Hb.
    - apply ret_inr in Hb as [<- ->]. auto.
    - apply or_abort_inr in Hb as [-> ->]. auto. }
  assert (eph_at e0 E0 ns (S i)
          = (Some e', secp256k1_ec_pubkey_tweak_mul E (hash_e_and_ss E ss))) as HS.
  { simpl. unfold e_at in He. unfold E_at in HEi.
    unfold ss_at, e_at in Hssi. unfold h_at, E_at, ss_at, e_at in Hhi.
    destruct (eph_at e0 E0 ns i) as [oe oE]. simpl in *. subst oe oE.
    rewrite Hhi. simpl. rewrite He'. reflexivity. }
  assert (op = [] /\ pk_e !! 0 = Some E0 /\
          (S i < length ns ->
           exists E', secp256k1_ec_pubkey_tweak_mul E (hash_e_and_ss E ss) = Some E'
                      /\ pk_e !! S i = Some E')) as (-> & Hpk0 & HpkS).
  { destruct (i =? length ns - 1)%nat eqn:Hlast; simpl in Hpke.
    - apply ret_inr in Hpke as [<- ->]. apply Nat.eqb_eq in Hlast.
      repeat split; auto. lia.
    - apply bind_inr in Hpke as (oa & nx & oc & Hnx & Hr & ->).
      apply or_abort_inr in Hnx as [Hnx ->]. apply ret_inr in Hr as [<- ->].
      repeat split.
      + rewrite lookup_insert_ne by lia. exact HE0.
      + intros _. exists nx. split; [exact Hnx|].
        replace (i + 1) with (S i) by lia. apply lookup_insert_eq. }
  split; [reflexivity|].
  unfold derive_inv, e_at, E_at. rewrite HS. simpl.
  split; [reflexivity|]. split; [exact HpkS|]. split; [exact Hpk0|].
  intros j Hj. destruct (decide (j = i)) as [->|Hne].
  - rewrite !lookup_insert_eq. split; [auto|]. split; [eauto|].
    exists (subkey_from_hmac "rho" ss). split; [|reflexivity].
    unfold rho_at. rewrite Hssi. reflexivity.
  - rewrite !lookup_insert_ne by congruence. apply Hold. lia.
Qed.

Lemma create_print_step st i out u :
  derive_inv e0 E0 ns (length ns) st -> i + 1 < length ns ->
  create_print st i tt = (out, inr u) ->
  exists l, out = [l] /\ hop_line e0 E0 ns i = Some l.
Proof.
  intros (_ & _ & _ & Hall) Hi H. unfold create_print in H.
  destruct (Hall (i + 1) Hi) as (Hn1 & _ & _).
  destruct (Hall i ltac:(lia)) as (_ & (b & Hb & Hbm) & (r & Hr & Hrm)).
  peel H as nxt Hnxt. rewrite Hn1 in Hnxt.
  peel H as rho_i Hrho. rewrite Hrm in Hrho. injection Hrho as <-.
  peel H as b_i Hbi. rewrite Hbm in Hbi. injection Hbi as <-.
  injection H as <-. eexists. split; [reflexivity|].
  unfold hop_line. rewrite Hb, Hr. simpl. rewrite Hnxt. reflexivity.
Qed.

(** Conversely: when every library call of the ratchet succeeds, each
    iteration goes through; no array slot is read before it is written. *)
Lemma create_derive_runs i st :
  derivable e0 E0 ns -> i < length ns -> derive_inv e0 E0 ns i st ->
  exists st', create_derive argv (length ns) i st = ([], inr st')
              /\ derive_inv e0 E0 ns (S i) st'.
Proof.
  intros [HeN Hbl] Hi Hinv.
  assert (exists st', create_derive argv (length ns) i st = ([], inr st')) as [st' Hrun].
  { destruct Hinv as (He & HE & _ & _).
    destruct (hop_facts e0 E0 ns i HeN Hi)
      as (e & E & n & ss & He' & HE' & Hn & Hss & Hssat & [e1 HeS] & HES).
    rewrite He in He'. injection He' as <-.
    destruct (HE Hi) as (E1 & HE1 & Hpk). rewrite HE' in HE1. injection HE1 as <-.
    destruct (eph_at_S _ _ _ _ _ HeS)
      as (e2 & E2 & n2 & ss2 & He2 & HE2 & Hn2 & Hss2 & Hpriv & _).
    rewrite He in He2. injection He2 as <-. rewrite HE' in HE2. injection HE2 as <-.
    rewrite Hn in Hn2. injection Hn2 as <-. rewrite Hss in Hss2. injection Hss2 as <-.
    pose proof (node_args_lookup _ _ _ _ Hargs Hn) as Hparse.
    unfold node_of_arg in Hparse. unfold create_derive.
    rewrite Hparse. cbn [or_errx]. rewrite bind_ret_l.
    rewrite Hss. cbn [or_abort]. rewrite bind_ret_l.
    assert (exists b, (if negb (i =? 0)%nat
                       then or_abort (secp256k1_ec_pubkey_tweak_mul n
                                        (subkey_from_hmac "blinded_node_id" ss))
                       else ret n) = ret b) as [b ->].
    { destruct (Hbl i Hi) as [b Hb]. unfold blindedId, tweak_at in Hb.
      rewrite Hn, Hssat in Hb. cbn in Hb.
      destruct (i =? 0)%nat; cbn [negb]; [eauto|]. rewrite Hb. eauto. }
    rewrite bind_ret_l. unfold rd. rewrite Hpk. cbn [or_abort]. rewrite bind_ret_l.
    assert (exists m, (if negb (i =? length ns - 1)%nat
                       then do nx <- next_pubkey E (hash_e_and_ss E ss);
                            ret (<[i + 1 := nx]> (cs_pk_e st))
                       else ret (cs_pk_e st)) = ret m) as [m ->].
    { destruct (i =? length ns - 1)%nat eqn:Hlast; cbn [negb]; [eauto|].
      apply Nat.eqb_neq in Hlast.
      destruct (hop_facts e0 E0 ns (S i) HeN ltac:(lia))
        as (_ & E' & _ & _ & _ & HE'S & _).
      rewrite HES in HE'S. unfold next_pubkey. rewrite HE'S.
      cbn [or_abort]. rewrite bind_ret_l. eauto. }
    rewrite bind_ret_l. unfold next_privkey. rewrite Hpriv.
    cbn [or_abort]. rewrite bind_ret_l. eauto. }
  exists st'. split; [exact Hrun|].
  exact (proj2 (create_derive_step i st [] st' Hi Hinv Hrun)).
Qed.

Lemma create_print_runs st i :
  derive_inv e0 E0 ns (length ns) st -> i + 1 < length ns ->
  exists l, create_print st i tt = ([l], inr tt).
Proof.
  intros (_ & _ & _ & Hall) Hi. unfold create_print, rd.
  destruct (Hall (i + 1) Hi) as (Hn1 & _ & _).
  destruct (Hall i ltac:(lia)) as (_ & (b & _ & Hbm) & (r & _ & Hrm)).
  destruct (lookup_lt_is_Some_2 ns (i + 1) Hi) as [nxt Hnxt].
  rewrite Hn1, Hnxt. cbn [or_abort]. rewrite bind_ret_l.
  rewrite Hrm. cbn [or_abort]. rewrite bind_ret_l.
  rewrite Hbm. cbn [or_abort]. rewrite bind_ret_l. eauto.
Qed.

End Derive.

(** [create] runs to completion whenever the ratchet is derivable: the
    only ways out are the [errx] and [abort] calls of the source. *)
Lemma create_from_complete e0 E0 argv ns :
  node_args argv ns -> 0 < length ns ->
  pubkey_from_privkey e0 = Some E0 -> derivable e0 E0 ns ->
  exists lines, create_from e0 argv = (lines, inr tt).
Proof.
  intros Hargs Hpos HE0 Hder.
  pose proof (node_args_length _ _ Hargs) as Hnum.
  unfold create_from. rewrite <- Hnum.
  replace (length argv <? 3)%nat with false by (symmetry; apply Nat.ltb_ge; lia).
  rewrite HE0. cbn [or_abort]. rewrite bind_ret_l.
  destruct (for_loop_runs (derive_inv e0 E0 ns) (create_derive argv (length ns))
              (length ns)
              (fun i st Hi Hinv => create_derive_runs e0 E0 ns argv Hargs i st Hder Hi Hinv)
              (length ns) 0 _ ltac:(lia) (derive_inv_init e0 E0 ns))
    as (st & -> & Hinv).
  rewrite Nat.add_0_r in Hinv. rewrite bind_val. cbn [fst snd app].
  pose proof Hinv as (_ & _ & Hpk0 & Hall).
  unfold rd at 1. rewrite Hpk0. cbn [or_abort]. rewrite bind_ret_l.
  destruct (for_loop_prints (create_print st) (length ns - 1)
              (fun i Hi => create_print_runs e0 E0 ns st i Hinv ltac:(lia))
              (length ns - 1) 0 ltac:(lia)) as (out & Hout).
  destruct (Hall (length ns - 1) ltac:(lia)) as (_ & (b & _ & Hbm) & _).
  eexists. unfold printf at 1. rewrite bind_val. cbn [fst snd].
  rewrite Hout, bind_val. cbn [fst snd].
  unfold rd. rewrite Hbm. cbn [or_abort]. rewrite bind_ret_l. reflexivity.
Qed.

Lemma mapM_seq_lookup {A} (f : nat -> option A) n (out : list A) :
  length out = n -> (forall j l, out !! j = Some l -> f (0 + j) = Some l) ->
  mapM f (seq 0 n) = Some out.
Proof.
  intros Hlen Hall. apply mapM_Some.
  apply Forall2_same_length_lookup_2.
  - rewrite length_seq. congruence.
  - intros i x y Hx Hy. apply lookup_seq in Hx as [-> _]. apply Hall, Hy.
Qed.

(** A complete [create] run: the ratchet went through for every node and
    the output is [create_lines]. *)
Lemma create_from_inr e0 argv ns lines u :
  node_args argv ns -> create_from e0 argv = (lines, inr u) ->
  exists E0,
    pubkey_from_privkey e0 = Some E0 /\ 0 < length ns /\
    is_Some (e_at e0 E0 ns (length ns)) /\
    create_lines e0 E0 ns = Some lines.
Proof.
  intros Hargs H. unfold create_from in H.
  pose proof (node_args_length _ _ Hargs) as Hnum. rewrite <- Hnum in H.
  destruct (length argv <? 3)%nat eqn:Hargc; [discriminate|].
  apply Nat.ltb_ge in Hargc.
  peel H as E0 HE0. exists E0.
  apply bind_inr in H as (o1 & st & o2 & Hloop & H & ->).
  destruct (for_loop_silent (derive_inv e0 E0 ns) _ (length ns)
              (create_derive_step e0 E0 ns argv Hargs)
              (length ns) 0 _ _ _ ltac:(lia) (derive_inv_init e0 E0 ns) Hloop)
    as [-> Hinv].
  rewrite Nat.add_0_r in Hinv.
  pose proof Hinv as (He & _ & Hpk0 & Hall).
  peel H as pk0 Hrd. rewrite Hpk0 in Hrd. injection Hrd as <-.
  apply bind_inr in H as (o3 & [] & o4 & Hp & H & ->). injection Hp as <-.
  apply bind_inr in H as (o5 & [] & o6 & Hloop2 & H & ->).
  assert (forall i (s : unit) o s', i < length ns - 1 ->
            create_print st i s = (o, inr s') ->
            exists l, o = [l] /\ hop_line e0 E0 ns i = Some l) as Hbody.
  { intros i [] o s' Hi Hrun.
    apply (create_print_step e0 E0 ns st i o s' Hinv); [lia | exact Hrun]. }
  destruct (for_loop_chunks (fun i l => hop_line e0 E0 ns i = Some l) _
              (length ns - 1) Hbody (length ns - 1) 0 _ _ _ ltac:(lia) Hloop2)
    as [Hlen Hmid].
  peel H as b_last Hbl. injection H as <-.
  destruct (Hall (length ns - 1) ltac:(lia)) as (_ & (b & Hb & Hbm) & _).
  rewrite Hbm in Hbl. injection Hbl as <-.
  split; [exact HE0|]. split; [lia|]. split; [eauto|].
  unfold create_lines. rewrite (mapM_seq_lookup _ _ _ Hlen Hmid). simpl.
  unfold last_line. rewrite Hb. reflexivity.
Qed.

(** *** Two argument lists naming the same nodes *)

Lemma create_derive_same argv1 argv2 num i st :
  node_of_arg (arg argv1 (2 + i)) = node_of_arg (arg argv2 (2 + i)) ->
  same_run (create_derive argv1 num i st) (create_derive argv2 num i st).
Proof.
  intros Hn. unfold create_derive. unfold node_of_arg in Hn. rewrite Hn. clear Hn.
  destruct (pubkey_from_hexstr _) as [n|]; cbn [or_errx].
  - rewrite !bind_ret_l. apply same_run_refl.
  - split; reflexivity.
Qed.

Lemma create_from_same e0 argv1 argv2 :
  length argv1 = length argv2 ->
  (forall i, node_of_arg (arg argv1 (2 + i)) = node_of_arg (arg argv2 (2 + i))) ->
  same_run (create_from e0 argv1) (create_from e0 argv2).
Proof.
  intros Hlen Hn. unfold create_from. rewrite Hlen.
  destruct (length argv2 <? 3)%nat; [apply same_run_refl|].
  apply same_run_bind; [apply same_run_refl|]. intros E0.
  apply same_run_bind; [|intros st; apply same_run_refl].
  apply same_run_for_loop. intros i st. apply create_derive_same, Hn.
Qed.

(** The characters before the first slash survive an appended suffix. *)
Lemma strcspn_take_app a s :
  str_take (strcspn (a ++ "/" ++ s) "/") (a ++ "/" ++ s)
  = str_take (strcspn a "/") a.
Proof.
  induction a as [|c a IH]; simpl.
  - reflexivity.
  - destruct (Ascii.eqb c "/"); [reflexivity|]. simpl. f_equal. exact IH.
Qed.

Lemma node_of_arg_with_scid a scid :
  node_of_arg (with_scid a scid) = node_of_arg a.
Proof.
  destruct scid as [s|]; [|reflexivity].
  unfold node_of_arg, with_scid. rewrite strcspn_take_app. reflexivity.
Qed.

End Create.

Section CreateOutput.
Context `{P : Prims}.

Lemma stdout_bind {A B} (m : M A) (f : A -> M B) :
  stdout (bind m f)
  = stdout m ++ match snd m with inr a => stdout (f a) | inl _ => [] end.
Proof.
  destruct m as [o [h|a]]; simpl.
  - rewrite app_nil_r. reflexivity.
  - unfold stdout. destruct (f a). reflexivity.
Qed.

Lemma for_loop_stdout_nil {St} (body : nat -> St -> M St) :
  (forall i st, stdout (body i st) = []) ->
  forall n i st, stdout (for_loop n i body st) = [].
Proof.
  intros Hb n. induction n as [|n IH]; intros i st; simpl; [reflexivity|].
  rewrite stdout_bind, Hb. destruct (snd (body i st)); [reflexivity|apply IH].
Qed.

Lemma create_derive_silent argv num i st :
  stdout (create_derive argv num i st) = [].
Proof.
  unfold create_derive, rd, next_pubkey, next_privkey.
  do 2 step_opt.
  destruct (negb (i =? 0)%nat); [step_opt | rewrite bind_ret_l]; step_opt;
    (destruct (negb (i =? num - 1)%nat);
     [step_opt; rewrite bind_ret_l | rewrite bind_ret_l]; step_opt; reflexivity).
Qed.

(** No iteration of the first loop touches [pk_e[0]]. *)
Lemma create_derive_keeps_pk_e0 argv num E0 i st out st' :
  cs_pk_e st !! 0 = Some E0 ->
  create_derive argv num i st = (out, inr st') ->
  out = [] /\ cs_pk_e st' !! 0 = Some E0.
Proof.
  intros H0 H. unfold create_derive in H.
  peel H as node Hnode. peel H as ss Hss.
  apply bind_inr in H as (ob & b_i & ob' & Hb & H & ->).
  peel H as pk_e_i Hrd.
  apply bind_inr in H as (op & pk_e & op' & Hpke & H & ->).
  peel H as e' He'. apply ret_inr in H as [<- ->]. simpl.
  assert (ob = []) as ->.
  { destruct (negb (i =? 0)%nat).
    - apply or_abort_inr in Hb as [_ ->]. reflexivity.
    - apply ret_inr in Hb as [_ ->]. reflexivity. }
  destruct (negb (i =? num - 1)%nat).
  - apply bind_inr in Hpke as (oa & nx & oc & Hnx & Hr & ->).
    apply or_abort_inr in Hnx as [Hnx ->]. apply ret_inr in Hr as [<- ->].
    split; [reflexivity|]. rewrite lookup_insert_ne by lia. exact H0.
  - apply ret_inr in Hpke as [<- ->]. auto.
Qed.

(** Reading off [create_lines]. *)
Lemma create_lines_lookup e0 E0 ns lines :
  create_lines e0 E0 ns = Some lines ->
  lines !! 0 = Some (blinding_line E0) /\
  (forall i, i + 1 < length ns ->
     exists l, hop_line e0 E0 ns i = Some l /\ lines !! S i = Some l) /\
  (exists l, last_line e0 E0 ns (length ns - 1) = Some l
             /\ lines !! length ns = Some l) /\
  0 < length ns.
Proof.
  unfold create_lines. intros H.
  destruct (mapM _ _) as [mids|] eqn:Hm; [|discriminate]. simpl in H.
  destruct (last_line _ _ _ _) as [l|] eqn:Hl; [|discriminate].
  injection H as <-.
  assert (0 < length ns) as Hpos.
  { unfold last_line, blindedId in Hl.
    destruct (ns !! (length ns - 1)) eqn:Hn; [|discriminate].
    apply lookup_lt_Some in Hn. lia. }
  apply mapM_Some in Hm. pose proof (Forall2_length _ _ _ Hm) as Hlen.
  rewrite length_seq in Hlen.
  split; [reflexivity|]. split; [|split; [|exact Hpos]].
  - intros i Hi.
    destruct (lookup_lt_is_Some_2 mids i ltac:(lia)) as [x Hx].
    assert (seq 0 (length ns - 1) !! i = Some i) as Hs
      by (apply lookup_seq; split; [reflexivity|lia]).
    destruct (Forall2_lookup_l _ _ _ _ _ Hm Hs) as (y & Hy & Hf).
    exists y. split; [exact Hf|]. simpl. rewrite lookup_app_l by lia. exact Hy.
  - exists l. split; [reflexivity|]. simpl.
    replace (length ns) with (S (length mids)) by lia. simpl.
    rewrite lookup_app_r by lia. rewrite Nat.sub_diag. reflexivity.
Qed.

End CreateOutput.

(** ** From create to unwrap *)


Section Route.
Context `{P : Prims}.
Variables (e0 : bytes) (E0 : pubkey) (ns : list pubkey).

Lemma str_app_assoc (a b c : string) : ((a ++ b) ++ c = a ++ b ++ c)%string.
Proof.
  induction a as [|x a IH]; [reflexivity|].
  change (String x ((a ++ b) ++ c) = String x (a ++ b ++ c))%string.
  rewrite IH. reflexivity.
Qed.

Lemma route_length route :
  sender_route e0 E0 ns = Some route -> length route = length ns.
Proof.
  unfold sender_route. intros H. apply mapM_Some, Forall2_length in H.
  rewrite length_seq in H. congruence.
Qed.

Lemma route_lookup route i :
  sender_route e0 E0 ns = Some route -> i < length ns ->
  exists b raw,
    route !! i = Some (b, raw) /\
    blindedId e0 E0 ns i = Some b /\ hop_raw e0 E0 ns i = Some raw.
Proof.
  unfold sender_route. intros H Hi. apply mapM_Some in H.
  assert (seq 0 (length ns) !! i = Some i) as Hs
    by (apply lookup_seq; split; [reflexivity|exact Hi]).
  destruct (Forall2_lookup_l _ _ _ _ _ H Hs) as ([b raw] & Hr & Hh).
  exists b, raw. split; [exact Hr|]. unfold route_hop in Hh.
  destruct (blindedId e0 E0 ns i) as [b'|]; [|discriminate]. cbn in Hh.
  destruct (hop_raw e0 E0 ns i) as [raw'|]; [|discriminate]. cbn in Hh.
  injection Hh as -> ->. auto.
Qed.

(** The two shapes of a raw payload. *)
Lemma hop_raw_inv i raw :
  hop_raw e0 E0 ns i = Some raw ->
  if decide (i + 1 < length ns) then
    exists rho nxt,
      rho_at e0 E0 ns i = Some rho /\ ns !! (i + 1) = Some nxt /\
      raw = bigsize_put (tal_bytelen (hop_payload rho nxt)) ++ hop_payload rho nxt
  else raw = [x00].
Proof.
  unfold hop_raw. destruct (decide (i + 1 < length ns)) as [Hlt|Hge].
  - apply Nat.ltb_lt in Hlt. rewrite Hlt.
    destruct (rho_at e0 E0 ns i) as [rho|]; [|discriminate]. cbn [mbind option_bind].
    destruct (ns !! (i + 1)) as [nxt|]; [|discriminate]. cbn [mbind option_bind].
    intros [= <-]. exists rho, nxt. auto.
  - apply Nat.nlt_ge, Nat.ltb_ge in Hge. rewrite Hge. congruence.
Qed.

Lemma hop_raw_framed (C : CodecLaws P) i raw :
  hop_raw e0 E0 ns i = Some raw -> framed raw.
Proof.
  intros H. apply hop_raw_inv in H.
  destruct (decide (i + 1 < length ns)).
  - destruct H as (rho & nxt & _ & _ & ->). eexists. reflexivity.
  - subst raw. exists []. unfold tal_bytelen. cbn [length N.of_nat].
    rewrite bigsize_put_0. reflexivity.
Qed.

Lemma route_lines_lookup route i :
  route_lines route !! i
  = (fun hop => (hop_arg hop ++ if (S i <? length route)%nat then " " else nl)%string)
      <$> route !! i.
Proof.
  revert i. induction route as [|hop rest IH]; intros i; [reflexivity|].
  destruct rest as [|hop' rest].
  - destruct i as [|i]; reflexivity.
  - destruct i as [|i]; [reflexivity|].
    change (route_lines (hop :: hop' :: rest) !! S i)
      with (route_lines (hop' :: rest) !! i).
    rewrite IH. reflexivity.
Qed.

Lemma length_route_lines route : length (route_lines route) = length route.
Proof.
  induction route as [|hop rest IH]; [reflexivity|].
  destruct rest as [|hop' rest]; [reflexivity|].
  change (route_lines (hop :: hop' :: rest))
    with ((hop_arg hop ++ " ")%string :: route_lines (hop' :: rest)).
  cbn [length]. rewrite IH. reflexivity.
Qed.

(** What [create] prints is the rendering of [sender_route]. *)
Lemma create_lines_route (C : CodecLaws P) lines :
  create_lines e0 E0 ns = Some lines ->
  exists route, sender_route e0 E0 ns = Some route /\ lines = render E0 route.
Proof.
  intros Hlines.
  destruct (create_lines_lookup _ _ _ _ Hlines) as (H0 & Hmid & (ll & Hll & Hlast) & Hpos).
  assert (length lines = S (length ns)) as Hlen.
  { unfold create_lines in Hlines.
    destruct (mapM _ _) as [mids|] eqn:Hm; [|discriminate]. cbn in Hlines.
    destruct (last_line _ _ _ _); [|discriminate]. injection Hlines as <-.
    apply mapM_Some, Forall2_length in Hm. rewrite length_seq in Hm.
    cbn [length]. rewrite length_app. cbn [length]. lia. }
  assert (is_Some (sender_route e0 E0 ns)) as [route Hroute].
  { apply mapM_is_Some, Forall_forall. intros i Hi.
    apply list_elem_of_lookup in Hi as [j Hj]. apply lookup_seq in Hj as [-> Hj].
    cbn [Nat.add]. unfold compose, route_hop, hop_raw.
    destruct (decide (j + 1 < length ns)) as [Hlt|Hge].
    - destruct (Hmid j Hlt) as (l & Hl & _). unfold hop_line in Hl.
      apply Nat.ltb_lt in Hlt. rewrite Hlt.
      destruct (blindedId e0 E0 ns j); [|discriminate]. cbn in Hl |- *.
      destruct (rho_at e0 E0 ns j); [|discriminate]. cbn in Hl |- *.
      destruct (ns !! (j + 1)); [|discriminate]. cbn. eauto.
    - assert (j = length ns - 1) as -> by lia. unfold last_line in Hll.
      apply Nat.nlt_ge, Nat.ltb_ge in Hge. rewrite Hge.
      destruct (blindedId e0 E0 ns (length ns - 1)); [|discriminate]. cbn. eauto. }
  exists route. split; [exact Hroute|].
  pose proof (route_length _ Hroute) as Hrl.
  apply list_eq. intros [|i]; [exact H0|]. unfold render. cbn [lookup list_lookup].
  change (lines !! S i = route_lines route !! i).
  rewrite route_lines_lookup, Hrl.
  destruct (decide (i < length ns)) as [Hi|Hi].
  - destruct (route_lookup _ _ Hroute Hi) as (b & raw & -> & Hb & Hraw).
    cbn [fmap option_fmap option_map]. unfold hop_arg. cbn [fst snd].
    apply hop_raw_inv in Hraw.
    destruct (decide (i + 1 < length ns)) as [Hlt|Hge].
    + destruct Hraw as (rho & nxt & Hrho & Hnxt & ->).
      destruct (Hmid i Hlt) as (l & Hl & ->). unfold hop_line in Hl.
      rewrite Hb, Hrho in Hl. cbn in Hl. rewrite Hnxt in Hl. cbn in Hl.
      injection Hl as <-.
      replace (S i <? length ns)%nat with true by (symmetry; apply Nat.ltb_lt; lia).
      rewrite tal_hex_app, !str_app_assoc. reflexivity.
    + subst raw. assert (S i = length ns) as Hi' by lia.
      rewrite Hi', Hlast. unfold last_line in Hll.
      replace (length ns - 1) with i in Hll by lia. rewrite Hb in Hll. cbn in Hll.
      injection Hll as <-.
      rewrite Nat.ltb_irrefl, tal_hex_x00, !str_app_assoc. reflexivity.
  - rewrite (lookup_ge_None_2 route) by lia.
    apply lookup_ge_None_2. lia.
Qed.

End Route.

Section RoundTrip.
Context `{P : Prims} (G : GroupLaws P) (C : CodecLaws P) (MN : MixNet P).
Variables (prog : string) (e0 : bytes) (E0 : pubkey) (ns : list pubkey).
Variables (ks : list bytes) (kxs : list string) (route : list (pubkey * bytes)).
Hypothesis Hpub0 : pubkey_from_privkey e0 = Some E0.
Hypothesis Hkeys : Forall2 (fun k n => pubkey_from_privkey k = Some n) ks ns.
Hypothesis Hhex : Forall2 (fun kx k => hex_decode kx sizeof_privkey = Some k) kxs ks.
Hypothesis HeN : is_Some (e_at e0 E0 ns (length ns)).
Hypothesis Hroute : sender_route e0 E0 ns = Some route.

Lemma main_unwrap first kx onion bl :
  main first [prog; "unwrap"; kx; onion; bl]
  = unwrap first [prog; "unwrap"; kx; onion; bl].
Proof. reflexivity. Qed.

(** The secret the node derives for sphinx is the one the onion was
    built with. *)
Lemma onion_secret i s k n b ss sss op :
  pubkey_from_privkey k = Some n ->
  pubkey_from_privkey s = Some (ephemeralkey op) ->
  ns !! i = Some n ->
  ss_at e0 E0 ns i = Some ss ->
  blindedId e0 E0 ns i = Some b ->
  secp256k1_ecdh b s = Some sss ->
  exists res,
    effective_ephemeral (i =? 0)%nat op ss = Some res /\
    secp256k1_ecdh res k = Some sss.
Proof.
  intros Hk Hs Hn Hss Hb Hsss. unfold blindedId, tweak_at in Hb.
  rewrite Hn, Hss in Hb. cbn in Hb. unfold effective_ephemeral.
  destruct (i =? 0)%nat.
  - injection Hb as <-. exists (ephemeralkey op). split; [reflexivity|].
    rewrite <- (ecdh_comm _ _ _ _ Hs Hk). exact Hsss.
  - destruct (secp256k1_ec_pubkey_tweak_mul (ephemeralkey op) _) as [res|] eqn:Hres.
    + exists res. split; [reflexivity|].
      rewrite <- (ecdh_tweak_comm _ _ _ _ _ _ _ Hk Hs Hb Hres). exact Hsss.
    + apply (tweak_valid _ n) in Hres. congruence.
Qed.

(** One node unwraps what it is handed. *)
Lemma unwrap_hop i s op E :
  i < length ns ->
  create_onionpacket s (drop i route) = Some op ->
  E_at e0 E0 ns i = Some E ->
  exists kx,
    kxs !! i = Some kx /\
    let result :=
      unwrap (i =? 0)%nat [prog; "unwrap"; kx;
                           tal_hex (serialize_onionpacket op); pubkey_to_string E] in
    match ns !! S i with
    | None => result = ([TERMINAL], inl (Exited 0 ""))
    | Some n' =>
      exists E' s' op',
        E_at e0 E0 ns (S i) = Some E' /\
        create_onionpacket s' (drop (S i) route) = Some op' /\
        result
        = ([ ("Contents: "
                ++ tal_hex (towire_encmsg_tlvs (mk_payload (Some n') None))
                ++ nl)%string;
             ("Next blinding: " ++ pubkey_to_string E' ++ nl)%string;
             ("Next onion: " ++ tal_hex (serialize_onionpacket op') ++ nl)%string ],
           inr tt)
    end.
Proof.
  intros Hi Hop HE.
  destruct (hop_facts e0 E0 ns i HeN Hi)
    as (e & E1 & n & ss & He & HE1 & Hn & Hss & Hssat & HeS & HES).
  rewrite HE in HE1. injection HE1 as <-.
  destruct (Forall2_lookup_r _ _ _ _ _ Hkeys Hn) as (k & Hki & Hk).
  destruct (Forall2_lookup_r _ _ _ _ _ Hhex Hki) as (kx & Hkxi & Hkx).
  exists kx. split; [exact Hkxi|].
  destruct (route_lookup _ _ _ _ _ Hroute Hi) as (b & raw & Hri & Hb & Hraw).
  rewrite (drop_S _ _ _ Hri) in Hop.
  pose proof (onion_fits _ _ _ Hop) as Hfits. apply Forall_cons_1 in Hfits as [Hfit _].
  cbn [snd] in Hfit.
  destruct (onion_peel _ _ _ _ _ Hop (hop_raw_framed _ _ _ C _ _ Hraw))
    as (sss & rs & Hsss & Hproc & Hrawp & Hnext).
  destruct (onion_wire _ _ _ Hop) as [Hwlen Hparse].
  pose proof (onion_ephemeral _ _ _ Hop) as Heph.
  pose proof (pub_e_at e0 E0 ns G i e E Hpub0 He HE) as Hpe.
  assert (secp256k1_ecdh E k = Some ss) as HssE
    by (rewrite <- (ecdh_comm _ _ _ _ Hpe Hk); exact Hss).
  destruct (onion_secret i s k n b ss sss op Hk Heph Hn Hssat Hb Hsss)
    as (res & Hres & Hoss).
  assert (hex_decode (tal_hex (serialize_onionpacket op)) TOTAL_PACKET_SIZE
          = Some (serialize_onionpacket op)) as Hon
    by (rewrite <- Hwlen; apply hex_roundtrip).
  pose proof (pubkey_string_roundtrip E) as Hbl.
  cbv zeta. apply hop_raw_inv in Hraw.
  destruct (decide (i + 1 < length ns)) as [Hlt|Hge].
  - (* a forwarding hop *)
    destruct Hraw as (rho & nxt & Hrho & Hnxt & Hraw).
    replace (i + 1) with (S i) in Hnxt by lia. rewrite Hnxt.
    unfold rho_at in Hrho. rewrite Hssat in Hrho. injection Hrho as <-.
    set (m := towire_encmsg_tlvs (mk_payload (Some nxt) None)) in *.
    set (c := aead_encrypt m npub (subkey_from_hmac "rho" ss)) in *.
    set (p := hop_payload (subkey_from_hmac "rho" ss) nxt) in *.
    assert (tal_bytelen p < 2 ^ 64)%N as Hp.
    { rewrite Hraw in Hfit. unfold tal_bytelen in *. rewrite length_app in Hfit.
      set (B := (2 ^ 64)%N) in *. clearbody B. lia. }
    destruct (outer_roundtrip c Hp) as (t & Hdec & Henc).
    assert (fromwire_bigsize (Some (raw_payload rs)) = (tal_bytelen p, Some p)) as Hbs
      by (rewrite Hrawp, Hraw; apply bigsize_roundtrip, Hp).
    destruct (hop_facts e0 E0 ns (S i) HeN ltac:(lia))
      as (_ & E' & _ & _ & _ & HE' & _).
    assert (S i < length route) as Hlr
      by (rewrite (route_length _ _ _ _ Hroute); lia).
    destruct (lookup_lt_is_Some_2 route (S i) Hlr) as [hop' Hhop'].
    rewrite (drop_S _ _ _ Hhop') in Hnext. destruct Hnext as (Hfw & s' & Hop').
    exists E', s', (next rs). split; [exact HE'|].
    split; [rewrite (drop_S _ _ _ Hhop'); exact Hop'|].
    rewrite (unwrap_forward _ _ _ _ _ _ _ _ _ _ _ _ _ _ _
               Hkx Hon Hbl Hparse HssE Hres Hoss Hproc Hbs Hdec).
    apply deliver_forward with (enc := c); cbn [us_rs us_rho us_blinding us_ss].
    + exact Hfw.
    + exact Henc.
    + unfold tal_bytelen, c, crypto_aead_chacha20poly1305_ietf_ABYTES.
      rewrite aead_length. lia.
    + apply aead_roundtrip.
    + rewrite <- HES. exact HE'.
  - (* the last hop *)
    assert (S i = length ns) as HiN by lia.
    rewrite (lookup_ge_None_2 ns (S i)) by lia.
    assert (fromwire_bigsize (Some (raw_payload rs)) = (tal_bytelen [], Some [])) as Hbs.
    { rewrite Hrawp, Hraw, <- bigsize_put_0, <- (app_nil_r (bigsize_put 0)).
      apply bigsize_roundtrip. reflexivity. }
    destruct outer_empty as [t Hdec].
    rewrite (unwrap_forward _ _ _ _ _ _ _ _ _ _ _ _ _ _ _
               Hkx Hon Hbl Hparse HssE Hres Hoss Hproc Hbs Hdec).
    apply deliver_end. cbn [us_rs].
    rewrite drop_ge in Hnext by (rewrite (route_length _ _ _ _ Hroute); lia).
    exact Hnext.
Qed.

(** Hop after hop, from node [i] to the end of the route. *)
Lemma unwrap_chain_from d :
  forall i s op E,
    i + d + 1 = length ns ->
    create_onionpacket s (drop i route) = Some op ->
    E_at e0 E0 ns i = Some E ->
    unwrap_chain prog (drop i ns) (drop i kxs) (i =? 0)%nat
      (pubkey_to_string E) (tal_hex (serialize_onionpacket op)).
Proof.
  induction d as [|d IH]; intros i s op E Hid Hop HE.
  - destruct (unwrap_hop i s op E ltac:(lia) Hop HE) as (kx & Hkx & Hrun).
    destruct (lookup_lt_is_Some_2 ns i ltac:(lia)) as [n Hn].
    rewrite (drop_S _ _ _ Hn), (drop_S _ _ _ Hkx).
    rewrite (lookup_ge_None_2 ns (S i)) in Hrun by lia.
    rewrite (drop_ge ns (S i)) by lia.
    cbn [unwrap_chain]. rewrite main_unwrap. exact Hrun.
  - destruct (unwrap_hop i s op E ltac:(lia) Hop HE) as (kx & Hkx & Hrun).
    destruct (lookup_lt_is_Some_2 ns i ltac:(lia)) as [n Hn].
    destruct (lookup_lt_is_Some_2 ns (S i) ltac:(lia)) as [n' Hn'].
    rewrite (drop_S _ _ _ Hn), (drop_S _ _ _ Hkx).
    rewrite Hn' in Hrun. destruct Hrun as (E' & s' & op' & HE' & Hop' & Hrun).
    pose proof (IH (S i) s' op' E' ltac:(lia) Hop' HE') as Hrest.
    rewrite (drop_S _ _ _ Hn') in Hrest |- *.
    cbn [unwrap_chain]. rewrite main_unwrap.
    exists (pubkey_to_string E'), (tal_hex (serialize_onionpacket op')).
    split; [exact Hrun|exact Hrest].
Qed.

End RoundTrip.

(** ** The small instance obeys the laws *)

Module ToyFacts.
Import Toy.

Local Open Scope N_scope.

Lemma to_N_byte_of n : n < 256 -> Byte.to_N (byte_of n) = n.
Proof.
  intros Hn. unfold byte_of. destruct (Byte.of_N n) as [b|] eqn:E.
  - apply Byte.to_of_N, E.
  - apply Byte.of_N_None_iff in E. lia.
Qed.

Lemma byte_of_to_N b : byte_of (Byte.to_N b) = b.
Proof. unfold byte_of. rewrite Byte.of_to_N. reflexivity. Qed.

Lemma to_N_lt b : Byte.to_N b < 256.
Proof. pose proof (Byte.to_N_bounded b). lia. Qed.

Lemma be_value_snoc l b : be_value (l ++ [b]) = be_value l * 256 + Byte.to_N b.
Proof. unfold be_value. rewrite fold_left_app. reflexivity. Qed.

Lemma length_be_bytes k n : length (be_bytes k n) = k.
Proof.
  revert n. induction k as [|k IH]; intros n; simpl; [reflexivity|].
  rewrite length_app, IH. simpl. lia.
Qed.

Lemma be_value_be_bytes k n : be_value (be_bytes k n) = n mod 256 ^ N.of_nat k.
Proof.
  revert n. induction k as [|k IH]; intros n.
  - simpl. rewrite N.mod_1_r. reflexivity.
  - cbn [be_bytes]. rewrite be_value_snoc, IH.
    rewrite to_N_byte_of by (apply N.mod_lt; lia).
    rewrite Nat2N.inj_succ, N.pow_succ_r'.
    rewrite N.Div0.mod_mul_r. lia.
Qed.

Lemma be_value_be_bytes_small k n :
  n < 256 ^ N.of_nat k -> be_value (be_bytes k n) = n.
Proof. intros H. rewrite be_value_be_bytes. apply N.mod_small, H. Qed.

Lemma bytes_eqb_refl l : bytes_eqb l l = true.
Proof.
  induction l as [|b l IH]; simpl; [reflexivity|].
  rewrite IH, (Byte.byte_dec_lb eq_refl). reflexivity.
Qed.

Lemma bytes_eqb_eq a b : bytes_eqb a b = true -> a = b.
Proof.
  revert b. induction a as [|x a IH]; intros [|y b]; simpl; try discriminate; auto.
  intros H. apply andb_true_iff in H as [Hx Hab].
  apply Byte.byte_dec_bl in Hx. f_equal; auto.
Qed.

(** *** Sizes *)

Lemma length_sha l : length (sha l) = 32%nat.
Proof. apply length_be_bytes. Qed.

Lemma sizes : Sizes prims.
Proof.
  split.
  - intros p. reflexivity.
  - intros p k ss. change (ecdh p k = Some ss -> length ss = 32%nat).
    unfold ecdh. destruct (sv k =? 0); [discriminate|].
    intros [= <-]. apply length_sha.
Qed.

(** *** The group *)

Lemma sv_lt k : sv k < q.
Proof. unfold sv. apply N.mod_lt. discriminate. Qed.

Lemma val_pt v : v < q -> val (pt v) = v.
Proof. intros H. unfold val, pt. apply to_N_byte_of. unfold q in H. lia. Qed.

Lemma sv_be_bytes r : r < q -> sv (be_bytes 32 r) = r.
Proof.
  intros H. unfold sv. rewrite be_value_be_bytes_small.
  - apply N.mod_small, H.
  - unfold q in H. simpl. lia.
Qed.

Lemma pub_val a A : pub a = Some A -> val A = sv a /\ sv a <> 0.
Proof.
  unfold pub. destruct (sv a =? 0) eqn:E; [discriminate|].
  intros [= <-]. apply N.eqb_neq in E. split; [|exact E].
  apply val_pt, sv_lt.
Qed.

Lemma tweak_val A t A' :
  pubkey_tweak_mul A t = Some A' -> val A' = (val A * sv t) mod q /\ sv t <> 0.
Proof.
  unfold pubkey_tweak_mul. destruct (sv t =? 0) eqn:E; [discriminate|].
  intros [= <-]. apply N.eqb_neq in E. split; [|exact E].
  apply val_pt, N.mod_lt. discriminate.
Qed.

Lemma toy_pub_tweak a t a' A :
  privkey_tweak_mul a t = Some a' -> pub a = Some A ->
  pub a' = pubkey_tweak_mul A t.
Proof.
  intros Ht Ha. apply pub_val in Ha as [HA Hnz].
  unfold privkey_tweak_mul in Ht.
  destruct ((sv a * sv t) mod q =? 0) eqn:E; [discriminate|].
  assert (a' = be_bytes 32 ((sv a * sv t) mod q)) as -> by congruence.
  unfold pub, pubkey_tweak_mul.
  rewrite sv_be_bytes by (apply N.mod_lt; discriminate).
  rewrite E, HA.
  destruct (sv t =? 0) eqn:Et; [|reflexivity].
  apply N.eqb_eq in Et. apply N.eqb_neq in E. rewrite Et, N.mul_0_r in E.
  exfalso. apply E. reflexivity.
Qed.

Lemma toy_ecdh_comm a b A B :
  pub a = Some A -> pub b = Some B -> ecdh B a = ecdh A b.
Proof.
  intros Ha Hb. apply pub_val in Ha as [HA Ha], Hb as [HB Hb].
  unfold ecdh. apply N.eqb_neq in Ha, Hb. rewrite Ha, Hb, HA, HB.
  rewrite (N.mul_comm (sv b)). reflexivity.
Qed.

Lemma toy_ecdh_tweak_comm a b A B t A' B' :
  pub a = Some A -> pub b = Some B ->
  pubkey_tweak_mul A t = Some A' -> pubkey_tweak_mul B t = Some B' ->
  ecdh A' b = ecdh B' a.
Proof.
  intros Ha Hb HA' HB'.
  apply pub_val in Ha as [HA Ha], Hb as [HB Hb].
  apply tweak_val in HA' as [HA' _], HB' as [HB' _].
  unfold ecdh. apply N.eqb_neq in Ha, Hb. rewrite Ha, Hb, HA', HB', HA, HB.
  rewrite !N.Div0.mul_mod_idemp_l.
  replace (sv b * sv t * sv a) with (sv a * sv t * sv b) by lia. reflexivity.
Qed.

Lemma toy_tweak_valid (A B : byte) t :
  pubkey_tweak_mul A t = None -> pubkey_tweak_mul B t = None.
Proof.
  unfold pubkey_tweak_mul. destruct (sv t =? 0); [reflexivity|discriminate].
Qed.

Lemma group_laws : GroupLaws prims.
Proof.
  split.
  - exact toy_pub_tweak.
  - exact toy_ecdh_comm.
  - exact toy_ecdh_tweak_comm.
  - exact toy_tweak_valid.
Qed.

(** *** Codecs *)

Local Open Scope nat_scope.

Lemma length_tag m n k : length (tag m n k) = 16.
Proof. unfold tag. rewrite length_drop, length_sha. reflexivity. Qed.

Lemma toy_aead_roundtrip m n k : aead_decrypt (aead_encrypt m n k) n k = Some m.
Proof.
  unfold aead_decrypt, aead_encrypt.
  rewrite length_app, length_tag.
  replace (length m + 16 <? 16) with false by (symmetry; apply Nat.ltb_ge; lia).
  replace (length m + 16 - 16) with (length m) by lia.
  rewrite take_app_length, drop_app_length, bytes_eqb_refl. reflexivity.
Qed.

Lemma toy_aead_length m n k : length (aead_encrypt m n k) = length m + 16.
Proof. unfold aead_encrypt. rewrite length_app, length_tag. reflexivity. Qed.

Lemma bigsize_tail_put k least n rest :
  (n < 256 ^ N.of_nat k)%N -> (least <= n)%N ->
  bigsize_tail k least (be_bytes k n ++ rest) = Some (n, rest).
Proof.
  intros Hn Hl. unfold bigsize_tail.
  rewrite length_app, length_be_bytes.
  replace (k + length rest <? k) with false by (symmetry; apply Nat.ltb_ge; lia).
  rewrite take_app_length', drop_app_length'
    by (symmetry; apply length_be_bytes).
  rewrite be_value_be_bytes_small by exact Hn.
  replace (n <? least)%N with false by (symmetry; apply N.ltb_ge; lia).
  reflexivity.
Qed.

Lemma bigsize_get_put n rest :
  (n < 2 ^ 64)%N -> bigsize_get (bigsize_put n ++ rest) = Some (n, rest).
Proof.
  intros Hn. unfold bigsize_put.
  destruct (n <? 253)%N eqn:H1.
  { apply N.ltb_lt in H1. cbn [app bigsize_get].
    rewrite to_N_byte_of by lia.
    apply N.ltb_lt in H1. rewrite H1. reflexivity. }
  apply N.ltb_ge in H1.
  destruct (n <? 65536)%N eqn:H2.
  { apply N.ltb_lt in H2. rewrite <- app_comm_cons. cbn [bigsize_get].
    change (Byte.to_N xfd) with 253%N. cbn [N.ltb N.compare Pos.compare Pos.compare_cont N.eqb Pos.eqb].
    apply bigsize_tail_put; [exact H2|exact H1]. }
  apply N.ltb_ge in H2.
  destruct (n <? 4294967296)%N eqn:H3.
  { apply N.ltb_lt in H3. rewrite <- app_comm_cons. cbn [bigsize_get].
    change (Byte.to_N xfe) with 254%N. cbn [N.ltb N.compare Pos.compare Pos.compare_cont N.eqb Pos.eqb].
    apply bigsize_tail_put; [exact H3|exact H2]. }
  apply N.ltb_ge in H3.
  rewrite <- app_comm_cons. cbn [bigsize_get].
  change (Byte.to_N xff) with 255%N. cbn [N.ltb N.compare Pos.compare Pos.compare_cont N.eqb Pos.eqb].
  apply bigsize_tail_put; [exact Hn|exact H3].
Qed.

Lemma toy_bigsize_roundtrip n rest :
  (n < 2 ^ 64)%N -> fromwire_bigsize (Some (bigsize_put n ++ rest)) = (n, Some rest).
Proof. intros Hn. unfold fromwire_bigsize. rewrite bigsize_get_put by exact Hn. reflexivity. Qed.

Lemma tlv_records_nil fuel : tlv_records fuel [] = Some [].
Proof. destruct fuel; reflexivity. Qed.

Lemma toy_outer_roundtrip c :
  let p := towire_onionmsg_payload (mk_payload None (Some c)) in
  (tal_bytelen p < 2 ^ 64)%N ->
  exists t, fromwire_onionmsg_payload (Some p) = Some t /\ enctlv t = Some c.
Proof.
  intros p Hp. exists (mk_payload None (Some c)). split; [|reflexivity].
  assert (p = x0a :: (bigsize_put (tal_bytelen c) ++ c)) as Ep by reflexivity.
  assert (tal_bytelen c < 2 ^ 64)%N as Hc.
  { rewrite Ep in Hp. unfold tal_bytelen in *. cbn [length] in Hp.
    rewrite length_app in Hp. set (B := (2 ^ 64)%N) in *. clearbody B. lia. }
  unfold fromwire_onionmsg_payload. rewrite Ep.
  cbn [length tlv_records]. cbn [bigsize_get].
  change (Byte.to_N x0a <? 253)%N with true. cbv iota.
  rewrite bigsize_get_put by exact Hc.
  rewrite N.ltb_irrefl. unfold tal_bytelen. rewrite Nat2N.id.
  rewrite drop_all, firstn_all, tlv_records_nil. reflexivity.
Qed.

(** *** Hex *)

Lemma hex_pair b :
  match hex_val (hex_digit (Byte.to_N b / 16)),
        hex_val (hex_digit (Byte.to_N b mod 16)) with
  | Some hi, Some lo => byte_of (16 * hi + lo) = b
  | _, _ => False
  end.
Proof. destruct b; exact eq_refl. Qed.

Lemma unhex_tal_hex l : unhex (tal_hex l) = Some l.
Proof.
  induction l as [|b l IH]; [reflexivity|].
  cbn [tal_hex unhex]. pose proof (hex_pair b) as Hb.
  destruct (hex_val (hex_digit (Byte.to_N b / 16))) as [hi|]; [|contradiction].
  destruct (hex_val (hex_digit (Byte.to_N b mod 16))) as [lo|]; [|contradiction].
  rewrite IH, Hb. reflexivity.
Qed.

Lemma toy_hex_roundtrip l : hex_decode (tal_hex l) (length l) = Some l.
Proof. unfold hex_decode. rewrite unhex_tal_hex, Nat.eqb_refl. reflexivity. Qed.

Lemma toy_tal_hex_app a b : tal_hex (a ++ b) = (tal_hex a ++ tal_hex b)%string.
Proof.
  induction a as [|x a IH]; [reflexivity|].
  cbn [app tal_hex String.append]. rewrite IH. reflexivity.
Qed.

Lemma pubkey_from_der_der p : pubkey_from_der (der p) = Some p.
Proof. reflexivity. Qed.

Lemma toy_pubkey_string_roundtrip p :
  pubkey_from_hexstr (pubkey_to_string p) = Some p.
Proof.
  unfold pubkey_from_hexstr, pubkey_to_string.
  change 33 with (length (der p)). rewrite toy_hex_roundtrip.
  apply pubkey_from_der_der.
Qed.

Lemma codec_laws : CodecLaws prims.
Proof.
  split.
  - exact toy_aead_roundtrip.
  - exact toy_aead_length.
  - exact toy_bigsize_roundtrip.
  - reflexivity.
  - exact toy_outer_roundtrip.
  - exists (mk_payload None None). reflexivity.
  - exact toy_hex_roundtrip.
  - exact toy_tal_hex_app.
  - reflexivity.
  - exact toy_pubkey_string_roundtrip.
Qed.

(** *** sphinx *)

Lemma checksum_lt l : (checksum l < modulus)%N.
Proof.
  unfold checksum. generalize 7%N, (eq_refl : (7 ?= modulus)%N = Lt).
  induction l as [|b l IH]; intros acc Hacc; [exact Hacc|].
  cbn [fold_left]. apply IH. apply N.mod_lt. discriminate.
Qed.

Lemma sha_value l : be_value (sha l) = (1 + checksum l)%N.
Proof.
  unfold sha. apply be_value_be_bytes_small.
  pose proof (checksum_lt l) as H.
  assert ((modulus < 256 ^ N.of_nat 32)%N) as H' by reflexivity.
  set (B := (256 ^ N.of_nat 32)%N) in *. clearbody B. lia.
Qed.

Lemma sha_nonzero l : bytes_eqb (sha l) (repeat x00 HMAC_SIZE) = false.
Proof.
  destruct (bytes_eqb _ _) eqn:E; [|reflexivity].
  apply bytes_eqb_eq in E. pose proof (sha_value l) as H. rewrite E in H.
  change (be_value (repeat x00 HMAC_SIZE)) with 0%N in H. lia.
Qed.

Lemma length_pad fr : length fr <= ROUTING_INFO_SIZE -> length (pad fr) = ROUTING_INFO_SIZE.
Proof. intros H. unfold pad. rewrite length_app, repeat_length. lia. Qed.

(** What [layers] returns for a non-empty path. *)
Lemma layers_cons s b raw rest e frames hm :
  layers s ((b, raw) :: rest) = Some (e, frames, hm) ->
  pub s = Some e /\
  exists ss fr hmi,
    ecdh b s = Some ss /\
    frames = raw ++ hmi ++ fr /\
    length frames <= ROUTING_INFO_SIZE /\
    hm = mac ss (pad frames) /\
    match rest with
    | [] => fr = [] /\ hmi = repeat x00 HMAC_SIZE
    | _ :: _ =>
      exists s' e', privkey_tweak_mul s (blind e ss) = Some s' /\
                    layers s' rest = Some (e', fr, hmi)
    end.
Proof.
  cbn [layers]. destruct (pub s) as [e1|]; [|discriminate].
  destruct (ecdh b s) as [ss|]; [|discriminate].
  set (inner := match rest with [] => _ | _ :: _ => _ end).
  destruct inner as [[fr hmi]|] eqn:Hin; [|discriminate].
  destruct (ROUTING_INFO_SIZE <? _) eqn:Hfit; [discriminate|].
  apply Nat.ltb_ge in Hfit. intros [= <- <- <-].
  split; [reflexivity|]. exists ss, fr, hmi.
  split; [reflexivity|]. split; [reflexivity|]. split; [exact Hfit|].
  split; [reflexivity|].
  subst inner. destruct rest as [|hop rest].
  - injection Hin as <- <-. auto.
  - destruct (privkey_tweak_mul s (blind e1 ss)) as [s'|]; [|discriminate].
    destruct (layers s' (hop :: rest)) as [[[e' fr'] hm']|] eqn:Hl; [|discriminate].
    injection Hin as <- <-. exists s', e'. split; [reflexivity|exact Hl].
Qed.

Lemma layers_hmac s path e frames hm :
  layers s path = Some (e, frames, hm) ->
  length hm = HMAC_SIZE /\ bytes_eqb hm (repeat x00 HMAC_SIZE) = false.
Proof.
  destruct path as [|[b raw] rest]; [discriminate|]. intros H.
  apply layers_cons in H as (_ & ss & fr & hmi & _ & _ & _ & -> & _).
  split; [apply length_sha|apply sha_nonzero].
Qed.

Lemma layers_fits s path e frames hm :
  layers s path = Some (e, frames, hm) ->
  Forall (fun hop => length hop.2 <= ROUTING_INFO_SIZE) path.
Proof.
  revert s e frames hm. induction path as [|[b raw] rest IH]; intros s e frames hm H.
  - constructor.
  - apply layers_cons in H as (_ & ss & fr & hmi & _ & -> & Hfit & _ & Hrest).
    constructor.
    + simpl. rewrite length_app in Hfit. lia.
    + destruct rest as [|hop rest]; [constructor|].
      destruct Hrest as (s' & e' & _ & Hl). eapply IH, Hl.
Qed.

Lemma toy_onion_ephemeral s path op :
  create_onionpacket s path = Some op -> pub s = Some (op_ephemeralkey op).
Proof.
  unfold create_onionpacket.
  destruct (layers s path) as [[[e fr] hm]|] eqn:Hl; [|discriminate].
  intros [= <-]. destruct path as [|[b raw] rest]; [discriminate|].
  apply layers_cons in Hl as [He _]. exact He.
Qed.

Lemma small_len (l : bytes) :
  length l <= ROUTING_INFO_SIZE -> (tal_bytelen l < 2 ^ 64)%N.
Proof.
  intros H. unfold tal_bytelen, ROUTING_INFO_SIZE in *.
  assert (256 < 2 ^ 64)%N as HB by reflexivity.
  set (B := (2 ^ 64)%N) in *. clearbody B. lia.
Qed.

Lemma toy_onion_fits s path op :
  create_onionpacket s path = Some op ->
  Forall (fun hop => (tal_bytelen hop.2 < 2 ^ 64)%N) path.
Proof.
  unfold create_onionpacket.
  destruct (layers s path) as [[[e fr] hm]|] eqn:Hl; [|discriminate].
  intros _. apply layers_fits in Hl.
  eapply Forall_impl; [exact Hl|]. intros hop. apply small_len.
Qed.

Lemma toy_onion_wire s path op :
  create_onionpacket s path = Some op ->
  length (serialize_onionpacket op) = 1 + 33 + ROUTING_INFO_SIZE + HMAC_SIZE /\
  parse_onionpacket (serialize_onionpacket op) = Some op.
Proof.
  unfold create_onionpacket.
  destruct (layers s path) as [[[e fr] hm]|] eqn:Hl; [|discriminate].
  intros [= <-]. destruct (layers_hmac _ _ _ _ _ Hl) as [Hhm _].
  destruct path as [|[b raw] rest]; [discriminate|].
  apply layers_cons in Hl as (_ & ss & fr' & hmi & _ & _ & Hfit & _ & _).
  pose proof (length_pad _ Hfit) as Hpad.
  unfold serialize_onionpacket, parse_onionpacket.
  cbn [op_version op_ephemeralkey op_routinginfo op_hmac].
  assert (length (der e ++ pad fr ++ hm) = 33 + ROUTING_INFO_SIZE + HMAC_SIZE) as Hlen.
  { rewrite !length_app, Hpad, Hhm. reflexivity. }
  split; [cbn [length]; rewrite Hlen; reflexivity|].
  rewrite Hlen, Nat.eqb_refl.
  rewrite (take_app_length' (der e)) by reflexivity.
  rewrite pubkey_from_der_der.
  rewrite (drop_app_length' (der e)) by reflexivity.
  rewrite take_app_length' by (symmetry; exact Hpad).
  rewrite app_assoc, drop_app_length'; [reflexivity|].
  rewrite length_app, Hpad. reflexivity.
Qed.

Lemma toy_onion_peel s b raw rest op :
  create_onionpacket s ((b, raw) :: rest) = Some op ->
  (exists body, raw = bigsize_put (tal_bytelen body) ++ body) ->
  exists ss rs,
    ecdh b s = Some ss /\
    process_onionpacket false op ss = Some rs /\
    raw_payload rs = raw /\
    match rest with
    | [] => nextcase rs = ONION_END
    | _ :: _ =>
      nextcase rs = ONION_FORWARD /\
      exists s', create_onionpacket s' rest = Some (next rs)
    end.
Proof.
  unfold create_onionpacket.
  destruct (layers s _) as [[[e frames] hm]|] eqn:Hl; [|discriminate].
  intros [= <-] (body & Hraw).
  apply layers_cons in Hl as (He & ss & fr & hmi & Hss & Hfr & Hfit & Hhm & Hrest).
  assert (length hmi = HMAC_SIZE) as Hhmi.
  { destruct rest as [|hop rest].
    - destruct Hrest as [_ ->]. apply repeat_length.
    - destruct Hrest as (s' & e' & _ & Hl'). apply (layers_hmac _ _ _ _ _ Hl'). }
  exists ss.
  (* the routing information, cut where [process_onionpacket] cuts it *)
  set (zs := repeat x00 (ROUTING_INFO_SIZE - length frames)).
  set (tl := body ++ hmi ++ fr ++ zs).
  assert (pad frames = bigsize_put (tal_bytelen body) ++ tl) as Hri1.
  { unfold pad, tl. fold zs. rewrite Hfr, Hraw, <- !app_assoc. reflexivity. }
  assert (pad frames = raw ++ hmi ++ fr ++ zs) as Hri2.
  { unfold pad. fold zs. rewrite Hfr, <- !app_assoc. reflexivity. }
  assert (length frames = length raw + HMAC_SIZE + length fr) as Hlf.
  { rewrite Hfr, !length_app, Hhmi. lia. }
  assert (length body <= ROUTING_INFO_SIZE) as Hbody.
  { rewrite Hraw, length_app in Hlf. lia. }
  assert (length (pad frames) - length tl + N.to_nat (tal_bytelen body) = length raw)
    as Hplen.
  { rewrite Hri1, Hraw, !length_app. unfold tal_bytelen. rewrite Nat2N.id. lia. }
  assert (firstn (length raw) (pad frames) = raw) as Hraw'.
  { rewrite Hri2. apply take_app_length. }
  assert (firstn HMAC_SIZE (skipn (length raw) (pad frames)) = hmi) as Hnh.
  { rewrite Hri2, drop_app_length. apply take_app_length'. symmetry. exact Hhmi. }
  assert (bigsize_get (pad frames) = Some (tal_bytelen body, tl)) as Hget.
  { rewrite Hri1. apply bigsize_get_put, small_len, Hbody. }
  assert ((length (pad frames) <? length raw + HMAC_SIZE) = false) as Hroom.
  { apply Nat.ltb_ge. rewrite length_pad by exact Hfit. lia. }
  assert (process_onionpacket false (mk_op x00 e (pad frames) hm) ss
          = Some (mk_route_step
                    (if bytes_eqb hmi (repeat x00 HMAC_SIZE)
                     then ONION_END else ONION_FORWARD)
                    raw
                    (mk_op x00
                       (default e (pubkey_tweak_mul e (blind e ss)))
                       (skipn (length raw + HMAC_SIZE) (pad frames)
                          ++ repeat x00 (length raw + HMAC_SIZE))
                       hmi))) as Hproc.
  { unfold process_onionpacket.
    cbn [op_version op_ephemeralkey op_routinginfo op_hmac].
    rewrite Hhm, bytes_eqb_refl. cbn [negb andb].
    rewrite Hget. cbv zeta. rewrite Hplen, Hroom, Hraw', Hnh. reflexivity. }
  eexists. split; [exact Hss|]. split; [exact Hproc|].
  cbn [raw_payload nextcase next]. split; [reflexivity|].
  destruct rest as [|hop rest].
  - destruct Hrest as [_ ->]. rewrite bytes_eqb_refl. reflexivity.
  - destruct Hrest as (s' & e' & Hs' & Hl').
    destruct (layers_hmac _ _ _ _ _ Hl') as [_ ->].
    split; [reflexivity|]. exists s'. rewrite Hl'. f_equal.
    assert (pub s' = Some e') as He'.
    { destruct hop as [b' raw']. apply layers_cons in Hl' as [H _]. exact H. }
    rewrite (toy_pub_tweak _ _ _ _ Hs' He) in He'. rewrite He'. cbn [default].
    f_equal. unfold pad at 1.
    assert (skipn (length raw + HMAC_SIZE) (raw ++ hmi ++ fr ++ zs) = fr ++ zs) as Hdrop.
    { rewrite (app_assoc raw hmi). apply drop_app_length'.
      rewrite length_app, Hhmi. reflexivity. }
    rewrite Hri2, Hdrop, <- app_assoc. f_equal. unfold zs.
    rewrite <- repeat_app. f_equal. lia.
Qed.

(** The sender's side of the small sphinx, with its contract. *)
Definition mixnet : MixNet prims :=
  @Build_MixNet prims create_onionpacket
    toy_onion_wire toy_onion_ephemeral toy_onion_fits toy_onion_peel.

End ToyFacts.
(** * Claims about unwrap *)

Section UnwrapClaims.
Context `{P : Prims}.

(** C2 (as the code has it): once the packet has been processed and the
    outer TLV decoded, [TERMINAL] is printed exactly when sphinx reports
    [ONION_END]; whether the outer TLV carries an [enctlv] plays no part.
    A terminal run prints nothing else and returns 0. *)
Theorem terminal_iff_onion_end first argv us outer o0 o1 :
  unwrap_process first argv = (o0, inr us) ->
  unwrap_decode (us_rs us) = (o1, inr outer) ->
  (In TERMINAL (stdout (unwrap first argv)) <-> nextcase (us_rs us) = ONION_END)
  /\ (nextcase (us_rs us) = ONION_END ->
      unwrap first argv = ([TERMINAL], inl (Exited 0 ""))).
Proof.
  intros H0 H1. rewrite (unwrap_reached _ _ _ _ _ _ H0 H1).
  split; [split|].
  - intros Hin. destruct (nextcase (us_rs us)) eqn:Hc; [reflexivity|].
    exfalso. exact (deliver_forward_not_terminal us outer Hc Hin).
  - intros Hc. rewrite (deliver_end us outer Hc). simpl. auto.
  - apply deliver_end.
Qed.

(** C3 (as the code has it): the secret handed to [process_onionpacket]
    is the ECDH of the node's private key with the onion packet's own
    ephemeral key, multiplied first by the [blinded_node_id] subkey of
    [ss = ECDH(privkey, blinding)] unless [--first-node] is given. *)
Theorem onion_ss_from_packet_key first argv o0 us :
  unwrap_process first argv = (o0, inr us) ->
  exists k onion op eff,
    hex_decode (arg argv 2) sizeof_privkey = Some k /\
    hex_decode (arg argv 3) TOTAL_PACKET_SIZE = Some onion /\
    parse_onionpacket onion = Some op /\
    pubkey_from_hexstr (arg argv 4) = Some (us_blinding us) /\
    secp256k1_ecdh (us_blinding us) k = Some (us_ss us) /\
    (if first then eff = ephemeralkey op
     else secp256k1_ec_pubkey_tweak_mul (ephemeralkey op)
            (subkey_from_hmac "blinded_node_id" (us_ss us)) = Some eff) /\
    secp256k1_ecdh eff k = Some (us_onion_ss us) /\
    process_onionpacket op (us_onion_ss us) = Some (us_rs us).
Proof.
  intros H. destruct (unwrap_process_inr _ _ _ _ H) as (_ & k & op & []).
  destruct pr_onion_ss0 as (eff & Heff & Hoss).
  destruct pr_onion0 as (onion & Hon & Hop).
  exists k, onion, op, eff. repeat split; auto.
  unfold effective_ephemeral in Heff. destruct first; congruence.
Qed.

(** C5: a forwarding run prints, as next blinding point, the received
    point [E] multiplied by [h = SHA256(der(E) ++ ss)], the 33-byte
    compressed key followed by the 32-byte [ss = ECDH(privkey, E)]. *)
Theorem next_blinding_is_ratchet (HS : Sizes P) first argv out :
  unwrap first argv = (out, inr tt) ->
  exists k E ss nb c o,
    hex_decode (arg argv 2) sizeof_privkey = Some k /\
    pubkey_from_hexstr (arg argv 4) = Some E /\
    secp256k1_ecdh E k = Some ss /\
    length (pubkey_to_der E) = 33 /\ length ss = 32 /\
    secp256k1_ec_pubkey_tweak_mul E (sha256 (pubkey_to_der E ++ ss)) = Some nb /\
    out = [c; ("Next blinding: " ++ pubkey_to_string nb ++ nl)%string; o].
Proof.
  unfold unwrap. intros H.
  apply bind_inr in H as (o0 & us & o1 & H0 & H & ->).
  apply bind_inr in H as (o2 & outer & o3 & H1 & H & ->).
  destruct (unwrap_process_inr _ _ _ _ H0) as (-> & k & op & []).
  destruct (unwrap_decode_inr _ _ _ H1) as (-> & _).
  destruct (deliver_inr _ _ _ _ H) as (_ & enc & dec & nb & _ & _ & _ & Hnb & ->).
  exists k, (us_blinding us), (us_ss us), nb. do 2 eexists.
  repeat split; eauto using der_len, ecdh_len.
Qed.

(** C6: in a forwarding run, a missing [enctlv], one shorter than the
    16-byte tag, or one that fails authentication under the rho key ends
    the process through [errx(1, ...)] before anything is printed. *)
Theorem enctlv_failures_exit_1 first argv us outer o0 o1 :
  unwrap_process first argv = (o0, inr us) ->
  unwrap_decode (us_rs us) = (o1, inr outer) ->
  nextcase (us_rs us) = ONION_FORWARD ->
  (enctlv outer = None \/
   exists enc, enctlv outer = Some enc /\
     ((tal_bytelen enc < 16)%N \/
      aead_decrypt enc npub (subkey_from_hmac "rho" (us_ss us)) = None)) ->
  exists msg,
    unwrap first argv = ([], inl (Exited 1 msg)) /\
    In msg ["No enctlv field"; "enctlv field too short";
            "Failed to decrypt enctlv field"].
Proof.
  intros H0 H1 Hc Hbad. rewrite (unwrap_reached _ _ _ _ _ _ H0 H1).
  destruct (unwrap_process_inr _ _ _ _ H0) as (_ & k & op & []).
  unfold unwrap_deliver. rewrite Hc, pr_rho0.
  destruct Hbad as [-> | (enc & -> & Hbad)].
  - eexists. split; [reflexivity|]. simpl. auto.
  - cbn [or_errx]. rewrite bind_ret_l.
    destruct (tal_bytelen enc <? _)%N eqn:Hlen.
    + eexists. split; [reflexivity|]. simpl. auto.
    + destruct Hbad as [Hlt | ->].
      * apply N.ltb_ge in Hlen.
        unfold crypto_aead_chacha20poly1305_ietf_ABYTES in Hlen. lia.
      * eexists. split; [reflexivity|]. simpl. auto.
Qed.

(** C10: the length prefix read from the raw payload has to equal the
    number of bytes left after it; the check is an [assert], so a
    mismatch aborts the process (no exit code, nothing printed) instead
    of going through [errx(1, ...)]. *)
Theorem length_prefix_mismatch_aborts first argv us o0 :
  unwrap_process first argv = (o0, inr us) ->
  fst (fromwire_bigsize (Some (raw_payload (us_rs us))))
    <> max_of (snd (fromwire_bigsize (Some (raw_payload (us_rs us))))) ->
  unwrap first argv = ([], inl Aborted) /\
  exit_code (status (unwrap first argv)) = None.
Proof.
  intros H0 Hne.
  assert (unwrap first argv = ([], inl Aborted)) as E.
  { unfold unwrap.
    destruct (unwrap_process_inr _ _ _ _ H0) as (-> & _).
    rewrite H0, bind_val. simpl. unfold unwrap_decode.
    destruct (fromwire_bigsize _) as [len c]. simpl in Hne.
    apply N.eqb_neq in Hne. rewrite Hne. reflexivity. }
  rewrite E. auto.
Qed.

End UnwrapClaims.

(** * Claims about create *)

Section CreateClaims.
Context `{P : Prims}.

Lemma same_run_observable (m1 m2 : M unit) :
  same_run m1 m2 ->
  stdout m1 = stdout m2 /\ exit_code (status m1) = exit_code (status m2).
Proof.
  destruct m1 as [o1 r1], m2 as [o2 r2]. unfold same_run, status, stdout. simpl.
  intros [-> Hr]. split; [reflexivity|].
  destruct r1, r2; try contradiction; auto.
Qed.

(** C4: in a complete [create] run the identity printed for hop 0 is
    node(0) itself, and for every hop i > 0 it is node(i) multiplied by
    the [blinded_node_id] subkey of ss(i) = ECDH(e(i), node(i)), with
    e(i) the hop-i ephemeral scalar of the ratchet. *)
Theorem blinded_ids_published argv ns lines :
  node_args argv ns ->
  create argv = (lines, inr tt) ->
  exists E0,
    pubkey_from_privkey (memset x06 sizeof_privkey) = Some E0 /\
    forall i n, ns !! i = Some n ->
      exists b tail,
        lines !! S i = Some (pubkey_to_string b ++ "/" ++ tail)%string /\
        blindedId (memset x06 sizeof_privkey) E0 ns i = Some b /\
        (i = 0 -> b = n) /\
        (0 < i -> exists e ss,
           e_at (memset x06 sizeof_privkey) E0 ns i = Some e /\
           secp256k1_ecdh n e = Some ss /\
           secp256k1_ec_pubkey_tweak_mul n
             (subkey_from_hmac "blinded_node_id" ss) = Some b).
Proof.
  unfold create. set (e0 := memset x06 sizeof_privkey).
  intros Hargs Hrun.
  destruct (create_from_inr _ _ _ _ _ Hargs Hrun) as (E0 & HE0 & Hpos & _ & Hlines).
  exists E0. split; [exact HE0|]. intros i n Hn.
  pose proof (lookup_lt_Some _ _ _ Hn) as Hi.
  destruct (create_lines_lookup _ _ _ _ Hlines) as (_ & Hmid & (ll & Hll & Hlast) & _).
  assert (exists b tail, blindedId e0 E0 ns i = Some b /\
            lines !! S i = Some (pubkey_to_string b ++ "/" ++ tail)%string)
    as (b & tail & Hb & Hline).
  { destruct (decide (i + 1 < length ns)) as [Hlt|Hge].
    - destruct (Hmid i Hlt) as (l & Hl & Hli). unfold hop_line in Hl.
      destruct (blindedId e0 E0 ns i) as [b|]; [|discriminate]. simpl in Hl.
      destruct (rho_at e0 E0 ns i) as [r|]; [|discriminate]. simpl in Hl.
      destruct (ns !! (i + 1)) as [nx|]; [|discriminate]. simpl in Hl.
      injection Hl as <-. exists b. eexists. split; [reflexivity|exact Hli].
    - assert (i = length ns - 1) as -> by lia.
      replace (S (length ns - 1)) with (length ns) by lia.
      unfold last_line in Hll.
      destruct (blindedId e0 E0 ns (length ns - 1)) as [b|]; [|discriminate].
      injection Hll as <-. exists b, ("00" ++ nl)%string.
      split; [reflexivity|exact Hlast]. }
  exists b, tail. split; [exact Hline|]. split; [exact Hb|].
  unfold blindedId, tweak_at, ss_at, hop_ss in Hb. rewrite Hn in Hb. simpl in Hb.
  split.
  - intros ->. simpl in Hb. congruence.
  - intros Hgt. destruct (i =? 0)%nat eqn:Hz; [apply Nat.eqb_eq in Hz; lia|].
    destruct (e_at e0 E0 ns i) as [e|]; [|discriminate]. simpl in Hb.
    destruct (secp256k1_ecdh n e) as [ss|] eqn:Hss; [|discriminate]. simpl in Hb.
    exists e, ss. auto.
Qed.

(** C7: two [create] runs from the same initial ephemeral key whose
    arguments name the same nodes print the same chunks (blinding point,
    blinded identities, payloads) and end the same way. *)
Theorem create_deterministic e0 argv1 argv2 :
  map node_of_arg (drop 2 argv1) = map node_of_arg (drop 2 argv2) ->
  stdout (create_from e0 argv1) = stdout (create_from e0 argv2) /\
  exit_code (status (create_from e0 argv1))
    = exit_code (status (create_from e0 argv2)).
Proof.
  intros Hmap. apply same_run_observable.
  assert (length (drop 2 argv1) = length (drop 2 argv2)) as Hlen.
  { rewrite <- (length_map node_of_arg), Hmap, length_map. reflexivity. }
  rewrite !length_drop in Hlen.
  destruct (decide (length argv1 < 3)) as [Hshort|Hlong].
  - assert (length argv2 < 3) as Hshort' by lia.
    unfold create_from.
    apply Nat.ltb_lt in Hshort, Hshort'. rewrite Hshort, Hshort'.
    apply same_run_refl.
  - apply create_from_same; [lia|]. intros i. unfold arg.
    rewrite !nth_lookup.
    assert (node_of_arg <$> drop 2 argv1 !! i = node_of_arg <$> drop 2 argv2 !! i) as Hi.
    { rewrite <- !list_lookup_fmap. unfold fmap, list_fmap.
      change (map node_of_arg (drop 2 argv1) !! i = map node_of_arg (drop 2 argv2) !! i).
      rewrite Hmap. reflexivity. }
    rewrite !lookup_drop in Hi.
    destruct (argv1 !! (2 + i)), (argv2 !! (2 + i)); simpl in *; congruence.
Qed.

(** C8: appending [/<scid>] to any of the node ids changes nothing that
    [create] prints, nor how it ends. *)
Theorem scid_suffix_ignored first prog (ids : list (string * option string)) :
  let argv_scid := prog :: "create" :: map (fun a => with_scid (fst a) (snd a)) ids in
  let argv_bare := prog :: "create" :: map fst ids in
  stdout (main first argv_scid) = stdout (main first argv_bare) /\
  exit_code (status (main first argv_scid))
    = exit_code (status (main first argv_bare)).
Proof.
  intros argv_scid argv_bare. apply same_run_observable.
  unfold main, argv_scid, argv_bare. simpl.
  apply create_from_same.
  - simpl. rewrite !length_map. reflexivity.
  - intros i. unfold arg. simpl. rewrite !nth_lookup.
    change (map ?f ?l) with (f <$> l). rewrite !list_lookup_fmap.
    destruct (ids !! i) as [[a s]|]; simpl; [|reflexivity].
    apply node_of_arg_with_scid.
Qed.

(** C9: [create] takes no randomness.  Its ephemeral key is the 32 bytes
    0x06, so whatever the node list, a run that prints at all prints
    first the one point derived from that key; and [create] is a
    function of its arguments. *)
Theorem create_fixed_ephemeral_key :
  let e0 := memset x06 sizeof_privkey in
  length e0 = 32 /\ Forall (eq x06) e0 /\
  (forall argv, create argv = create_from e0 argv) /\
  forall argv,
    stdout (create argv) = [] \/
    exists E0, pubkey_from_privkey e0 = Some E0 /\
               stdout (create argv) !! 0 = Some (blinding_line E0).
Proof.
  intros e0. split; [reflexivity|]. split; [repeat constructor|]. split; [reflexivity|].
  intros argv. unfold create. fold e0. unfold create_from.
  destruct (length argv <? 3)%nat; [left; reflexivity|].
  destruct (pubkey_from_privkey e0) as [E0|]; [|left; reflexivity].
  cbn [or_abort]. rewrite bind_ret_l.
  pose proof (for_loop_stdout_nil _ (create_derive_silent argv (length argv - 2))
                (length argv - 2) 0 (mk_cs e0 ∅ {[0 := E0]} ∅ ∅)) as Hsilent.
  destruct (for_loop _ _ _ _) as [o1 [h|st]] eqn:Hloop; simpl in Hsilent; subst o1.
  - left. reflexivity.
  - right. exists E0. split; [reflexivity|].
    destruct (for_loop_silent (fun _ st => cs_pk_e st !! 0 = Some E0) _
                (length argv - 2)
                (fun i st out st' _ => create_derive_keeps_pk_e0 argv _ E0 i st out st')
                (length argv - 2) 0 _ _ _ ltac:(lia)
                (lookup_singleton_eq _ _) Hloop) as [_ Hpk0].
    rewrite bind_val. simpl. rewrite Hpk0. cbn [rd or_abort]. rewrite bind_ret_l.
    match goal with |- context [let '(_, _) := ?m in _] => destruct m end.
    reflexivity.
Qed.

End CreateClaims.

(** * The round trip *)

Section RoundTripClaim.
Context `{P : Prims}.

(** C1: for node keypairs [ks]/[ns] (N >= 1), a complete [create] run
    on the node ids prints a blinding point and a path; whatever onion
    the mix-net library builds for that path, unwrapping it hop after
    hop (each node with its own private key, [--first-node] at hop 0
    only, each later node fed the blinding point and onion printed by
    the node before) makes every node but the last print the inner TLV
    whose next_node_id is its successor's public key, and the last one
    print TERMINAL. *)
Theorem blinded_route_roundtrip (G : GroupLaws P) (C : CodecLaws P) (MN : MixNet P)
    first0 prog args ns ks kxs lines :
  node_args (prog :: "create" :: args) ns ->
  Forall2 (fun k n => pubkey_from_privkey k = Some n) ks ns ->
  Forall2 (fun kx k => hex_decode kx sizeof_privkey = Some k) kxs ks ->
  main first0 (prog :: "create" :: args) = (lines, inr tt) ->
  exists E0 route,
    lines = render E0 route /\ length route = length ns /\ 1 <= length ns /\
    forall s op,
      create_onionpacket s route = Some op ->
      unwrap_chain prog ns kxs true
        (pubkey_to_string E0) (tal_hex (serialize_onionpacket op)).
Proof.
  intros Hargs Hkeys Hhex Hrun.
  change (main first0 (prog :: "create" :: args))
    with (create (prog :: "create" :: args)) in Hrun.
  destruct (create_from_inr _ _ _ _ _ Hargs Hrun) as (E0 & HE0 & Hpos & HeN & Hlines).
  destruct (create_lines_route _ _ _ C _ Hlines) as (route & Hroute & ->).
  exists E0, route. split; [reflexivity|].
  split; [exact (route_length _ _ _ _ Hroute)|]. split; [lia|].
  intros s op Hop.
  exact (unwrap_chain_from G C MN prog _ E0 ns ks kxs route HE0 Hkeys Hhex HeN Hroute
           (length ns - 1) 0 s op E0 ltac:(lia) Hop eq_refl).
Qed.

End RoundTripClaim.

(** ** create: every way a run can end *)

Section CreatePaths.
Context `{P : Prims}.

Lemma bind_returned {A B} (a : A) (f : A -> M B) : bind ([], inr a) f = f a.
Proof. apply bind_ret_l. Qed.

(** One iteration of the first loop aborts, rejects its node id, or
    returns having written its slots; it never prints. *)
Lemma create_derive_cases argv num E0 i st :
  create_derive argv num i st = ([], inl Aborted) \/
  (node_of_arg (arg argv (2 + i)) = None /\
   create_derive argv num i st
   = ([], inl (Exited 1 (not_a_valid_pubkey (arg argv (2 + i)))))) \/
  exists st',
    create_derive argv num i st = ([], inr st') /\
    is_Some (node_of_arg (arg argv (2 + i))) /\
    (slots_written E0 i st -> slots_written E0 (S i) st').
Proof.
  unfold create_derive, node_of_arg, rd, next_pubkey, next_privkey.
  destruct (pubkey_from_hexstr _) as [node|]; cbn [or_errx];
    [|right; left; split; reflexivity].
  rewrite bind_ret_l.
  destruct (secp256k1_ecdh node (cs_e st)) as [ss|]; cbn [or_abort];
    [|left; reflexivity].
  rewrite bind_ret_l.
  set (mb := if negb (i =? 0)%nat then _ else _).
  assert (mb = abort \/ exists b, mb = ret b) as [-> | [b ->]];
    [|left; reflexivity|].
  { subst mb. destruct (negb (i =? 0)%nat); [|eauto].
    destruct (secp256k1_ec_pubkey_tweak_mul _ _); cbn [or_abort]; eauto. }
  rewrite bind_ret_l.
  destruct (cs_pk_e st !! i) as [pk_e_i|]; cbn [or_abort]; [|left; reflexivity].
  rewrite bind_ret_l.
  set (mp := if negb (i =? num - 1)%nat then _ else _).
  assert (mp = abort \/
          exists m, mp = ret m /\ (cs_pk_e st !! 0 = Some E0 -> m !! 0 = Some E0))
    as [-> | (m & -> & Hm)]; [|left; reflexivity|].
  { subst mp. destruct (negb (i =? num - 1)%nat); [|eauto].
    destruct (secp256k1_ec_pubkey_tweak_mul _ _); cbn [or_abort]; [|eauto].
    rewrite bind_ret_l. right. eexists. split; [reflexivity|].
    intros H. rewrite lookup_insert_ne by lia. exact H. }
  rewrite bind_ret_l.
  destruct (secp256k1_ec_privkey_tweak_mul _ _) as [e'|]; cbn [or_abort];
    [|left; reflexivity].
  rewrite bind_ret_l. right; right. eexists. split; [reflexivity|].
  split; [eauto|]. intros [H0 Hall]. split; [exact (Hm H0)|].
  intros j Hj. cbn [cs_nodes cs_b cs_rho].
  destruct (decide (j = i)) as [->|Hne].
  - rewrite !lookup_insert_eq. eauto.
  - rewrite !lookup_insert_ne by congruence. apply Hall. lia.
Qed.

(** The first loop, from iteration [i] on. *)
Lemma create_loop_cases argv num E0 n : forall i st,
  slots_written E0 i st -> ids_valid argv i ->
  for_loop n i (create_derive argv num) st = ([], inl Aborted) \/
  (exists k, k < i + n /\ ids_valid argv k /\
     node_of_arg (arg argv (2 + k)) = None /\
     for_loop n i (create_derive argv num) st
     = ([], inl (Exited 1 (not_a_valid_pubkey (arg argv (2 + k)))))) \/
  exists st',
    for_loop n i (create_derive argv num) st = ([], inr st') /\
    slots_written E0 (i + n) st' /\ ids_valid argv (i + n).
Proof.
  induction n as [|n IH]; intros i st Hw Hv.
  - right; right. exists st. rewrite Nat.add_0_r. auto.
  - cbn [for_loop].
    destruct (create_derive_cases argv num E0 i st)
      as [-> | [[Hbad ->] | (st' & -> & Hok & Hstep)]].
    + left. reflexivity.
    + right; left. exists i. split; [lia|]. auto.
    + rewrite bind_returned.
      assert (ids_valid argv (S i)) as Hv'.
      { intros j Hj. destruct (decide (j = i)) as [->|]; [exact Hok|].
        apply Hv. lia. }
      destruct (IH (S i) st' (Hstep Hw) Hv')
        as [-> | [(k & Hk & Hvk & Hbad & ->) | (st2 & -> & Hw2 & Hv2)]].
      * left. reflexivity.
      * right; left. exists k. split; [lia|]. auto.
      * right; right. exists st2. replace (i + S n) with (S i + n) by lia. auto.
Qed.

(** An iteration of the second loop finds its slots and prints one chunk. *)
Lemma create_print_entry E0 num st i :
  slots_written E0 num st -> i + 1 < num ->
  exists l, create_print st i tt = ([l], inr tt) /\ hop_entry l.
Proof.
  intros [_ Hall] Hi. unfold create_print, rd.
  destruct (Hall (i + 1) Hi) as ([nxt ->] & _ & _).
  destruct (Hall i ltac:(lia)) as (_ & [b ->] & [r ->]).
  cbn [or_abort]. rewrite !bind_ret_l.
  eexists. split; [reflexivity|]. eexists _, _. reflexivity.
Qed.

(** A loop whose body prints one chunk and returns, whatever happens. *)
Lemma for_loop_lines (Q : string -> Prop) (body : nat -> unit -> M unit) hi :
  (forall i, i < hi -> exists l, body i tt = ([l], inr tt) /\ Q l) ->
  forall n i, n + i <= hi ->
    exists out, for_loop n i body tt = (out, inr tt) /\ length out = n /\ Forall Q out.
Proof.
  intros Hbody n. induction n as [|n IH]; intros i Hle.
  - exists []. auto.
  - destruct (Hbody i ltac:(lia)) as (l & H1 & Hq).
    destruct (IH (S i) ltac:(lia)) as (out & H2 & Hlen & Hall).
    exists (l :: out). cbn [for_loop]. rewrite H1, bind_val, H2.
    split; [reflexivity|]. split; [simpl; lia|]. constructor; assumption.
Qed.

(** [create]: the four ways a run can go. *)
Lemma create_from_cases e0 argv :
  (length argv < 3 /\
   create_from e0 argv = ([], inl (Exited 1 "create requires at least one nodeid"))) \/
  (3 <= length argv /\ create_from e0 argv = ([], inl Aborted)) \/
  (exists k, 2 + k < length argv /\ ids_valid argv k /\
     node_of_arg (arg argv (2 + k)) = None /\
     create_from e0 argv
     = ([], inl (Exited 1 (not_a_valid_pubkey (arg argv (2 + k)))))) \/
  (3 <= length argv /\ ids_valid argv (length argv - 2) /\
   exists E0 mids b_last,
     pubkey_from_privkey e0 = Some E0 /\
     create_from e0 argv = (blinding_line E0 :: mids ++ [last_entry b_last], inr tt) /\
     length mids = length argv - 3 /\ Forall hop_entry mids).
Proof.
  unfold create_from.
  destruct (length argv <? 3)%nat eqn:Hargc.
  { apply Nat.ltb_lt in Hargc. left. auto. }
  apply Nat.ltb_ge in Hargc. right.
  destruct (pubkey_from_privkey e0) as [E0|]; cbn [or_abort]; [|left; auto].
  rewrite bind_ret_l.
  assert (slots_written E0 0 (mk_cs e0 ∅ {[0 := E0]} ∅ ∅)) as Hw0.
  { split; [apply lookup_singleton_eq|]. intros j Hj. lia. }
  assert (ids_valid argv 0) as Hv0 by (intros j Hj; lia).
  destruct (create_loop_cases argv (length argv - 2) E0 (length argv - 2) 0 _ Hw0 Hv0)
    as [-> | [(k & Hk & Hvk & Hbad & ->) | (st & -> & Hw & Hv)]].
  - left. auto.
  - right; left. exists k. split; [lia|]. auto.
  - right; right. cbn [Nat.add] in Hw, Hv. split; [exact Hargc|]. split; [exact Hv|].
    rewrite bind_returned. unfold rd at 1. destruct Hw as [Hpk0 Hall].
    rewrite Hpk0. cbn [or_abort]. rewrite bind_ret_l.
    destruct (for_loop_lines hop_entry (create_print st) (length argv - 2 - 1)
                (fun i Hi => create_print_entry E0 (length argv - 2) st i
                               (conj Hpk0 Hall) ltac:(lia))
                (length argv - 2 - 1) 0 ltac:(lia)) as (mids & Hloop & Hlen & Hmids).
    destruct (Hall (length argv - 2 - 1) ltac:(lia)) as (_ & [b Hb] & _).
    exists E0, mids, b. split; [reflexivity|].
    split; [|split; [lia|exact Hmids]].
    unfold printf at 1. rewrite bind_val. cbn [fst snd].
    rewrite Hloop, bind_val. cbn [fst snd].
    unfold rd. rewrite Hb. cbn [or_abort]. rewrite bind_ret_l. reflexivity.
Qed.

End CreatePaths.
(** ** unwrap: every way a run can end *)

Section UnwrapPaths.
Context `{P : Prims}.

Lemma unwrap_process_cases first argv :
  unwrap_process first argv = ([], inl Aborted) \/
  (exists msg, unwrap_process first argv = ([], inl (Exited 1 msg))
               /\ input_failure first argv msg) \/
  exists us, unwrap_process first argv = ([], inr us).
Proof.
  unfold unwrap_process, input_failure.
  destruct (length argv =? 5)%nat eqn:Hargc; cbn [negb].
  2: { apply Nat.eqb_neq in Hargc. right; left. eexists. split; [reflexivity|].
       left. auto. }
  apply Nat.eqb_eq in Hargc.
  destruct (hex_decode (arg argv 2) sizeof_privkey) as [k|]; cbn [or_errx].
  2: { right; left. eexists. split; [reflexivity|]. right. split; [exact Hargc|].
       left. auto. }
  rewrite bind_ret_l.
  destruct (hex_decode (arg argv 3) TOTAL_PACKET_SIZE) as [onion|]; cbn [or_errx].
  2: { right; left. eexists. split; [reflexivity|]. right. split; [exact Hargc|].
       right. exists k. split; [reflexivity|]. left. auto. }
  rewrite bind_ret_l.
  destruct (pubkey_from_hexstr (arg argv 4)) as [E|]; cbn [or_errx].
  2: { right; left. eexists. split; [reflexivity|]. right. split; [exact Hargc|].
       right. exists k. split; [reflexivity|]. right. exists onion.
       split; [reflexivity|]. left. auto. }
  rewrite bind_ret_l.
  destruct (parse_onionpacket onion) as [op|] eqn:Hop; cbn [or_errx].
  2: { right; left. eexists. split; [reflexivity|]. right. split; [exact Hargc|].
       right. exists k. split; [reflexivity|]. right. exists onion.
       split; [reflexivity|]. right. exists E. split; [reflexivity|]. left. auto. }
  rewrite bind_ret_l.
  destruct (secp256k1_ecdh E k) as [ss|] eqn:Hss; cbn [or_abort]; [|left; reflexivity].
  rewrite bind_ret_l.
  set (mr := if negb first then _ else _).
  assert (mr = abort \/
          exists res, mr = ret res /\ effective_ephemeral first op ss = Some res)
    as [-> | (res & -> & Hres)]; [|left; reflexivity|].
  { subst mr. unfold effective_ephemeral. destruct first; cbn [negb]; [eauto|].
    destruct (secp256k1_ec_pubkey_tweak_mul _ _); cbn [or_abort]; eauto. }
  rewrite bind_ret_l.
  destruct (secp256k1_ecdh res k) as [oss|] eqn:Hoss; cbn [or_abort];
    [|left; reflexivity].
  rewrite bind_ret_l.
  destruct (process_onionpacket op oss) as [rs|] eqn:Hrs; cbn [or_errx].
  - rewrite bind_ret_l. right; right. eexists. reflexivity.
  - right; left. eexists. split; [reflexivity|]. right. split; [exact Hargc|].
    right. exists k. split; [reflexivity|]. right. exists onion.
    split; [reflexivity|]. right. exists E. split; [reflexivity|]. right.
    exists op, ss, res, oss. auto 7.
Qed.

(** The table read the other way. *)
Lemma input_failure_reported first argv msg :
  input_failure first argv msg ->
  unwrap_process first argv = ([], inl (Exited 1 msg)).
Proof.
  unfold unwrap_process, input_failure.
  intros [[Hargc ->] | [Hargc H]].
  { apply Nat.eqb_neq in Hargc. rewrite Hargc. reflexivity. }
  apply Nat.eqb_eq in Hargc. rewrite Hargc. cbn [negb].
  destruct H as [[-> ->] | (k & -> & H)]; [reflexivity|].
  cbn [or_errx]. rewrite bind_ret_l.
  destruct H as [[-> ->] | (onion & -> & H)]; [reflexivity|].
  cbn [or_errx]. rewrite bind_ret_l.
  destruct H as [[-> ->] | (E & -> & H)]; [reflexivity|].
  cbn [or_errx]. rewrite bind_ret_l.
  destruct H as [[-> ->] | (op & ss & res & oss & -> & -> & Hres & Hoss & Hrs & ->)];
    [reflexivity|].
  cbn [or_errx or_abort]. rewrite !bind_ret_l.
  assert ((if negb first
           then or_abort (secp256k1_ec_pubkey_tweak_mul (ephemeralkey op)
                            (subkey_from_hmac "blinded_node_id" ss))
           else ret (ephemeralkey op)) = ret res) as ->.
  { unfold effective_ephemeral in Hres. destruct first; cbn [negb].
    - congruence.
    - rewrite Hres. reflexivity. }
  rewrite bind_ret_l, Hoss. cbn [or_abort]. rewrite bind_ret_l, Hrs. reflexivity.
Qed.

Lemma unwrap_decode_cases rs :
  let c := fromwire_bigsize (Some (raw_payload rs)) in
  (fst c <> max_of (snd c) /\ unwrap_decode rs = ([], inl Aborted)) \/
  (fst c = max_of (snd c) /\ fromwire_onionmsg_payload (snd c) = None /\
   unwrap_decode rs
   = ([], inl (Exited 1 ("Invalid payload " ++ tal_hex (raw_payload rs))%string))) \/
  exists outer,
    fst c = max_of (snd c) /\ fromwire_onionmsg_payload (snd c) = Some outer /\
    unwrap_decode rs = ([], inr outer).
Proof.
  unfold unwrap_decode. destruct (fromwire_bigsize _) as [len c]. cbn [fst snd].
  destruct (len =? max_of c)%N eqn:Hlen.
  - apply N.eqb_eq in Hlen. right. cbn [assert]. rewrite bind_ret_l.
    destruct (fromwire_onionmsg_payload c) as [outer|]; cbn [or_errx]; eauto.
  - apply N.eqb_neq in Hlen. left. auto.
Qed.

Lemma unwrap_deliver_cases us outer :
  let r := unwrap_deliver us outer in
  (nextcase (us_rs us) = ONION_END /\ r = ([TERMINAL], inl (Exited 0 ""))) \/
  nextcase (us_rs us) = ONION_FORWARD /\
  ((enctlv outer = None /\ r = ([], inl (Exited 1 "No enctlv field"))) \/
   exists enc, enctlv outer = Some enc /\
   (((tal_bytelen enc < crypto_aead_chacha20poly1305_ietf_ABYTES)%N /\
     r = ([], inl (Exited 1 "enctlv field too short"))) \/
    (crypto_aead_chacha20poly1305_ietf_ABYTES <= tal_bytelen enc)%N /\
    ((aead_decrypt enc npub (us_rho us) = None /\
      r = ([], inl (Exited 1 "Failed to decrypt enctlv field"))) \/
     exists dec, aead_decrypt enc npub (us_rho us) = Some dec /\
     ((secp256k1_ec_pubkey_tweak_mul (us_blinding us)
         (hash_e_and_ss (us_blinding us) (us_ss us)) = None /\
       r = ([("Contents: " ++ tal_hex dec ++ nl)%string], inl Aborted)) \/
      exists nb,
        secp256k1_ec_pubkey_tweak_mul (us_blinding us)
          (hash_e_and_ss (us_blinding us) (us_ss us)) = Some nb /\
        r = (forward_lines dec nb (next (us_rs us)), inr tt))))).
Proof.
  cbv zeta. unfold unwrap_deliver.
  destruct (nextcase (us_rs us)); [left; auto|]. right. split; [reflexivity|].
  destruct (enctlv outer) as [enc|]; cbn [or_errx]; [|left; auto].
  rewrite bind_ret_l. right. exists enc. split; [reflexivity|].
  destruct (tal_bytelen enc <? _)%N eqn:Hlen.
  { apply N.ltb_lt in Hlen. left. auto. }
  apply N.ltb_ge in Hlen. right. split; [exact Hlen|].
  destruct (aead_decrypt enc npub (us_rho us)) as [dec|]; cbn [or_errx]; [|left; auto].
  rewrite bind_ret_l. right. exists dec. split; [reflexivity|].
  unfold next_pubkey.
  destruct (secp256k1_ec_pubkey_tweak_mul _ _) as [nb|]; cbn [or_abort].
  - right. exists nb. split; reflexivity.
  - left. split; reflexivity.
Qed.

End UnwrapPaths.
(** * Error paths and output of the two commands *)

Section Ends.
Context `{P : Prims}.

Lemma unwrap_after_process first argv us :
  unwrap_process first argv = ([], inr us) ->
  unwrap first argv = bind (unwrap_decode (us_rs us)) (unwrap_deliver us).
Proof. intros H. unfold unwrap. rewrite H, bind_returned. reflexivity. Qed.

Lemma unwrap_after_decode first argv us outer :
  unwrap_process first argv = ([], inr us) ->
  unwrap_decode (us_rs us) = ([], inr outer) ->
  unwrap first argv = unwrap_deliver us outer.
Proof.
  intros H0 H1. rewrite (unwrap_after_process _ _ _ H0), H1, bind_returned.
  reflexivity.
Qed.

(** The five ways an [unwrap] run can end. *)
Lemma unwrap_ends first argv :
  unwrap first argv = ([], inl Aborted) \/
  (exists msg, unwrap first argv = ([], inl (Exited 1 msg))) \/
  unwrap first argv = ([TERMINAL], inl (Exited 0 "")) \/
  (exists us dec,
     unwrap_process first argv = ([], inr us) /\
     secp256k1_ec_pubkey_tweak_mul (us_blinding us)
       (hash_e_and_ss (us_blinding us) (us_ss us)) = None /\
     unwrap first argv = ([("Contents: " ++ tal_hex dec ++ nl)%string], inl Aborted)) \/
  exists dec nb nxt, unwrap first argv = (forward_lines dec nb nxt, inr tt).
Proof.
  destruct (unwrap_process_cases first argv) as [H | [(msg & H & _) | (us & H)]].
  - left. unfold unwrap. rewrite H. reflexivity.
  - right; left. exists msg. unfold unwrap. rewrite H. reflexivity.
  - rewrite (unwrap_after_process _ _ _ H).
    destruct (unwrap_decode_cases (us_rs us))
      as [[_ ->] | [(_ & _ & ->) | (outer & _ & _ & ->)]].
    + left. reflexivity.
    + right; left. eexists. reflexivity.
    + rewrite bind_returned.
      destruct (unwrap_deliver_cases us outer)
        as [[_ ->] | (_ & [[_ ->] | (enc & _ & [[_ ->] | (_ & [[_ ->] |
              (dec & _ & [[Hnb ->] | (nb & _ & ->)])])])])].
      * right; right; left. reflexivity.
      * right; left. eexists. reflexivity.
      * right; left. eexists. reflexivity.
      * right; left. eexists. reflexivity.
      * right; right; right; left. exists us, dec. auto.
      * right; right; right; right. eexists _, _, _. reflexivity.
Qed.

End Ends.

Section PathTheorems.
Context `{P : Prims}.

(** X1: whatever its arguments, the tool either returns 0 having
    printed something, or exits with code 1 through [errx] having
    printed nothing on standard output, or aborts; no other exit code
    occurs, and a failure reported through [errx] never follows output. *)
Theorem exit_discipline first argv :
  (exit_code (status (main first argv)) = Some 0%Z /\ stdout (main first argv) <> []) \/
  (exit_code (status (main first argv)) = Some 1%Z /\ stdout (main first argv) = []) \/
  status (main first argv) = Aborted.
Proof.
  unfold main.
  destruct (length argv <? 2)%nat; [right; left; split; reflexivity|].
  destruct (streq (arg argv 1) "create").
  - unfold create.
    destruct (create_from_cases (memset x06 sizeof_privkey) argv)
      as [[_ ->] | [[_ ->] | [(k & _ & _ & _ & ->) |
            (_ & _ & E0 & mids & b & _ & -> & _)]]].
    + right; left. split; reflexivity.
    + right; right. reflexivity.
    + right; left. split; reflexivity.
    + left. split; [reflexivity|discriminate].
  - destruct (streq (arg argv 1) "unwrap");
      [|right; left; split; reflexivity].
    destruct (unwrap_ends first argv)
      as [-> | [[msg ->] | [-> | [(us & dec & _ & _ & ->) | (dec & nb & nxt & ->)]]]].
    + right; right. reflexivity.
    + right; left. split; reflexivity.
    + left. split; [reflexivity|discriminate].
    + right; right. reflexivity.
    + left. split; [reflexivity|discriminate].
Qed.

(** X2: [create] never prints part of a path.  Either nothing reaches
    standard output and the run halts, or the run completes: it prints
    the blinding line, one entry (blinded id, slash, payload in hex
    behind its own length, space) for each node but the last, and the
    last node's entry with payload [00]; argc - 1 chunks in all.  In
    particular no array slot is read in the second phase that the first
    loop did not write. *)
Theorem create_all_or_nothing argv :
  (stdout (create argv) = [] /\ exists h, snd (create argv) = inl h) \/
  exists E0 mids b_last,
    create argv
    = (("Blinding: " ++ pubkey_to_string E0 ++ nl)%string
         :: mids ++ [(pubkey_to_string b_last ++ "/00" ++ nl)%string], inr tt) /\
    length mids = length argv - 3 /\
    Forall (fun l => exists b p,
              l = (pubkey_to_string b ++ "/" ++ tal_hex (bigsize_put (tal_bytelen p))
                     ++ tal_hex p ++ " ")%string) mids.
Proof.
  unfold create.
  destruct (create_from_cases (memset x06 sizeof_privkey) argv)
    as [[_ ->] | [[_ ->] | [(k & _ & _ & _ & ->) |
          (_ & _ & E0 & mids & b & _ & -> & Hlen & Hmids)]]].
  - left. split; [reflexivity|]. eexists. reflexivity.
  - left. split; [reflexivity|]. eexists. reflexivity.
  - left. split; [reflexivity|]. eexists. reflexivity.
  - right. exists E0, mids, b. split; [reflexivity|]. split; [exact Hlen|exact Hmids].
Qed.

(** X3: when [create] exits with code 1, either no node id was given,
    or the message names the first argument that is not a valid public
    key, in full (an appended [/<scid>] included), every node id before
    it being valid. *)
Theorem create_errx_cause argv msg :
  status (create argv) = Exited 1 msg ->
  (length argv < 3 /\ msg = "create requires at least one nodeid") \/
  exists k,
    2 + k < length argv /\
    (forall j, j < k -> is_Some (node_of_arg (arg argv (2 + j)))) /\
    node_of_arg (arg argv (2 + k)) = None /\
    msg = (arg argv (2 + k) ++ " not a valid pubkey")%string.
Proof.
  unfold create.
  destruct (create_from_cases (memset x06 sizeof_privkey) argv)
    as [[Hlt ->] | [[_ ->] | [(k & Hk & Hv & Hbad & ->) |
          (_ & _ & E0 & mids & b & _ & -> & _)]]]; unfold status; cbn [snd].
  - intros [= <-]. left. auto.
  - discriminate.
  - intros [= <-]. right. exists k. auto.
  - discriminate.
Qed.

(** X4: [unwrap] exits with code 1 and message [msg] exactly when
    [msg] is the message of the first check that fails: argument count,
    private key hex, onion hex, blinding point, onion parse, sphinx
    processing (lines 221-267), then, on the processed packet, the outer
    TLV, the presence of [enctlv], its length and its decryption (lines
    276-304). *)
Theorem unwrap_errx_cause first argv msg :
  status (unwrap first argv) = Exited 1 msg <->
  input_failure first argv msg \/
  exists us, unwrap_process first argv = ([], inr us) /\ payload_failure us msg.
Proof.
  split.
  - destruct (unwrap_process_cases first argv) as [H | [(m & H & Hc) | (us & H)]].
    + unfold unwrap. rewrite H. discriminate.
    + unfold unwrap. rewrite H. unfold status. cbn. intros [= <-]. left. exact Hc.
    + rewrite (unwrap_after_process _ _ _ H). intros Hst. right. exists us.
      split; [exact H|]. unfold payload_failure. cbv zeta.
      destruct (unwrap_decode_cases (us_rs us))
        as [[_ Hd] | [(Hlen & Hnone & Hd) | (outer & Hlen & Hsome & Hd)]];
        rewrite Hd in Hst.
      * discriminate.
      * injection Hst as <-. split; [exact Hlen|]. left. auto.
      * rewrite bind_returned in Hst. split; [exact Hlen|]. right. exists outer.
        split; [exact Hsome|].
        destruct (unwrap_deliver_cases us outer)
          as [[_ Hr] | (Hf & [[Hno Hr] | (enc & Henc & [[Hshort Hr] | (Hlong & [[Hdec Hr] |
                (dec & _ & [[_ Hr] | (nb & _ & Hr)])])])])];
          rewrite Hr in Hst; try discriminate; injection Hst as <-;
          (split; [exact Hf|]).
        -- left. auto.
        -- right. exists enc. split; [exact Henc|]. left. auto.
        -- right. exists enc. split; [exact Henc|]. right. auto.
  - intros [Hc | (us & H & Hc)].
    + unfold unwrap. rewrite (input_failure_reported _ _ _ Hc). reflexivity.
    + rewrite (unwrap_after_process _ _ _ H).
      unfold payload_failure in Hc. cbv zeta in Hc. destruct Hc as [Hlen Hc].
      destruct (unwrap_decode_cases (us_rs us))
        as [[Hne _] | [(_ & Hnone & Hd) | (outer & _ & Hsome & Hd)]];
        [contradiction| |]; rewrite Hd.
      * destruct Hc as [[_ ->] | (outer & Hsome & _)]; [reflexivity|congruence].
      * destruct Hc as [[Hnone _] | (outer' & Hsome' & Hf & Hc)]; [congruence|].
        assert (outer' = outer) as -> by congruence.
        rewrite bind_returned.
        destruct (unwrap_deliver_cases us outer)
          as [[He _] | (_ & [[Hno Hr] | (enc & Henc & [[Hshort Hr] | (Hlong & [[Hdec Hr] |
                (dec & Hdec & _)])])])].
        -- congruence.
        -- rewrite Hr. destruct Hc as [[_ ->] | (enc & Henc & _)];
             [reflexivity|congruence].
        -- rewrite Hr. destruct Hc as [[Hno _] | (enc' & Henc' & Hc)]; [congruence|].
           destruct Hc as [[_ ->] | (Hlong & _)]; [reflexivity|].
           assert (enc' = enc) as -> by congruence. lia.
        -- rewrite Hr. destruct Hc as [[Hno _] | (enc' & Henc' & Hc)]; [congruence|].
           assert (enc' = enc) as -> by congruence.
           destruct Hc as [[Hshort _] | (_ & _ & ->)]; [lia|reflexivity].
        -- destruct Hc as [[Hno _] | (enc' & Henc' & Hc)]; [congruence|].
           assert (enc' = enc) as -> by congruence.
           destruct Hc as [[Hshort _] | (_ & Hnone & _)]; [lia|congruence].
Qed.

(** X5: a run of [unwrap] that falls off the end of [main] has printed
    exactly three lines: the hex of the plaintext the [enctlv] field of
    the outer TLV decrypts to under rho = subkey("rho", ECDH(privkey,
    blinding)), the next blinding point, and the hex of the serialized
    onion sphinx returned as [rs->next]. *)
Theorem forward_run_lines first argv out :
  unwrap first argv = (out, inr tt) ->
  exists k E ss us outer enc dec nb,
    hex_decode (arg argv 2) sizeof_privkey = Some k /\
    pubkey_from_hexstr (arg argv 4) = Some E /\
    secp256k1_ecdh E k = Some ss /\
    unwrap_process first argv = ([], inr us) /\
    unwrap_decode (us_rs us) = ([], inr outer) /\
    nextcase (us_rs us) = ONION_FORWARD /\
    enctlv outer = Some enc /\
    aead_decrypt enc npub (subkey_from_hmac "rho" ss) = Some dec /\
    out = [ ("Contents: " ++ tal_hex dec ++ nl)%string;
            ("Next blinding: " ++ pubkey_to_string nb ++ nl)%string;
            ("Next onion: " ++ tal_hex (serialize_onionpacket (next (us_rs us)))
               ++ nl)%string ].
Proof.
  unfold unwrap. intros H.
  apply bind_inr in H as (o0 & us & o1 & H0 & H & ->).
  apply bind_inr in H as (o2 & outer & o3 & H1 & H & ->).
  destruct (unwrap_process_inr _ _ _ _ H0)
    as (-> & k & op & [_ Hk _ HE Hss Hrho _ _]).
  destruct (unwrap_decode_inr _ _ _ H1) as (-> & _).
  destruct (deliver_inr _ _ _ _ H) as (Hf & enc & dec & nb & Henc & _ & Hdec & _ & ->).
  exists k, (us_blinding us), (us_ss us), us, outer, enc, dec, nb.
  rewrite <- Hrho. repeat split; auto.
Qed.


(** X7: the usage errors.  Fewer than two arguments, a command that is
    neither [create] nor [unwrap] (compared exactly), [create] without a
    node id, [unwrap] with other than three operands: each exits with
    code 1 and its own message, nothing printed. *)
Theorem main_usage_errors first argv :
  (length argv < 2 ->
   main first argv = ([], inl (Exited 1 "You must specify create or unwrap"))) /\
  (2 <= length argv -> arg argv 1 <> "create" -> arg argv 1 <> "unwrap" ->
   main first argv = ([], inl (Exited 1 "Either create or unwrap!"))) /\
  (length argv = 2 -> arg argv 1 = "create" ->
   main first argv = ([], inl (Exited 1 "create requires at least one nodeid"))) /\
  (2 <= length argv -> length argv <> 5 -> arg argv 1 = "unwrap" ->
   main first argv
   = ([], inl (Exited 1 "unwrap requires privkey, onion and blinding"))).
Proof.
  unfold main. repeat split.
  - intros H. apply Nat.ltb_lt in H. rewrite H. reflexivity.
  - intros H Hc Hu. apply Nat.ltb_ge in H. rewrite H.
    apply String.eqb_neq in Hc, Hu. unfold streq. rewrite Hc, Hu. reflexivity.
  - intros H ->. rewrite H. cbn [Nat.ltb Nat.leb]. unfold streq. rewrite String.eqb_refl.
    unfold create, create_from. rewrite H. reflexivity.
  - intros H Hn ->. apply Nat.ltb_ge in H. rewrite H.
    change (streq "unwrap" "create") with false. unfold streq.
    rewrite String.eqb_refl.
    unfold unwrap, unwrap_process. apply Nat.eqb_neq in Hn. rewrite Hn. reflexivity.
Qed.

End PathTheorems.
(** * Keys and payloads across the two commands *)

Section KeyTheorems.
Context `{P : Prims}.

(** X8: the shortcut of lines 248-263.  Without [--first-node] the
    tool multiplies the onion's ephemeral key by the [blinded_node_id]
    subkey and uses the node's raw private key; under the laws of scalar
    multiplication the secret it hands to sphinx is the one ECDH gives
    between the untouched ephemeral key and the node's blinded private
    key b = subkey * k (line 245), for any onion whose ephemeral key is
    the public half of a session key. *)
Theorem onion_secret_is_blinded_ecdh (G : GroupLaws P)
    argv o0 us k n s onion op bk :
  unwrap_process false argv = (o0, inr us) ->
  hex_decode (arg argv 2) sizeof_privkey = Some k ->
  hex_decode (arg argv 3) TOTAL_PACKET_SIZE = Some onion ->
  parse_onionpacket onion = Some op ->
  pubkey_from_privkey k = Some n ->
  pubkey_from_privkey s = Some (ephemeralkey op) ->
  secp256k1_ec_privkey_tweak_mul k
    (subkey_from_hmac "blinded_node_id" (us_ss us)) = Some bk ->
  secp256k1_ecdh (ephemeralkey op) bk = Some (us_onion_ss us).
Proof.
  intros H Hk Hon Hop Hn Hs Hbk.
  destruct (unwrap_process_inr _ _ _ _ H)
    as (_ & k' & op' & [_ Hk' (on' & Hon' & Hop') _ _ _ (eff & Heff & Hoss) _]).
  assert (k' = k) as -> by congruence.
  assert (on' = onion) as -> by congruence.
  assert (op' = op) as -> by congruence.
  unfold effective_ephemeral in Heff.
  set (t := subkey_from_hmac "blinded_node_id" (us_ss us)) in *.
  destruct (secp256k1_ec_pubkey_tweak_mul n t) as [n'|] eqn:Hn'.
  - pose proof (pub_tweak _ _ _ _ Hbk Hn) as Hpub. rewrite Hn' in Hpub.
    rewrite <- (ecdh_comm _ _ _ _ Hs Hpub).
    rewrite <- (ecdh_tweak_comm _ _ _ _ _ _ _ Hs Hn Heff Hn'). exact Hoss.
  - apply (tweak_valid _ (ephemeralkey op)) in Hn'. congruence.
Qed.

(** X9: sender and receiver walk the same ratchet.  In a complete
    [create] run over nodes with private keys [ks], the secret the
    sender derives for hop i from its ephemeral scalar and the node id
    (line 142) is the one node i derives from its own private key and
    the blinding point E(i) it is handed (line 239); E(0) is the point
    of the Blinding line, and the point the node computes for its
    successor (lines 309-310) is the sender's E(i+1). *)
Theorem receiver_derives_sender_secrets (G : GroupLaws P) argv ns ks lines :
  node_args argv ns ->
  Forall2 (fun k n => pubkey_from_privkey k = Some n) ks ns ->
  create argv = (lines, inr tt) ->
  exists E0,
    lines !! 0 = Some (blinding_line E0) /\
    E_at (memset x06 sizeof_privkey) E0 ns 0 = Some E0 /\
    forall i k, ks !! i = Some k ->
      exists E ss,
        E_at (memset x06 sizeof_privkey) E0 ns i = Some E /\
        ss_at (memset x06 sizeof_privkey) E0 ns i = Some ss /\
        secp256k1_ecdh E k = Some ss /\
        (S i < length ns ->
         E_at (memset x06 sizeof_privkey) E0 ns (S i) <> None /\
         secp256k1_ec_pubkey_tweak_mul E (sha256 (pubkey_to_der E ++ ss))
         = E_at (memset x06 sizeof_privkey) E0 ns (S i)).
Proof.
  unfold create. set (e0 := memset x06 sizeof_privkey).
  intros Hargs Hkeys Hrun.
  destruct (create_from_inr _ _ _ _ _ Hargs Hrun) as (E0 & HE0 & Hpos & HeN & Hlines).
  destruct (create_lines_lookup _ _ _ _ Hlines) as (Hl0 & _).
  exists E0. split; [exact Hl0|]. split; [reflexivity|].
  intros i k Hk.
  destruct (Forall2_lookup_l _ _ _ _ _ Hkeys Hk) as (n & Hn & Hpub).
  pose proof (lookup_lt_Some _ _ _ Hn) as Hi.
  destruct (hop_facts e0 E0 ns i HeN Hi)
    as (e & E & n' & ss & He & HE & Hn' & Hss & Hssat & _ & HES).
  assert (n' = n) as -> by congruence.
  exists E, ss. split; [exact HE|]. split; [exact Hssat|].
  pose proof (pub_e_at e0 E0 ns G i e E HE0 He HE) as Hpe.
  split; [rewrite <- (ecdh_comm _ _ _ _ Hpe Hpub); exact Hss|].
  intros HSi. split; [|symmetry; exact HES].
  destruct (hop_facts e0 E0 ns (S i) HeN HSi) as (_ & E' & _ & _ & _ & HE' & _).
  congruence.
Qed.

(** X10: given valid node ids and a valid initial key, [create]
    completes exactly when every library call of the ratchet succeeds
    (the ECDH of each hop, each multiplication of the ephemeral private
    key, the last one included, each multiplication of the ephemeral
    point and of a node id); when one of them fails the run aborts, and
    nothing has been printed. *)
Theorem create_outcome e0 E0 argv ns :
  node_args argv ns -> 0 < length ns ->
  pubkey_from_privkey e0 = Some E0 ->
  (derivable e0 E0 ns /\ exists lines, create_from e0 argv = (lines, inr tt)) \/
  (~ derivable e0 E0 ns /\ create_from e0 argv = ([], inl Aborted)).
Proof.
  intros Hargs Hpos HE0.
  pose proof (node_args_length _ _ Hargs) as Hnum.
  destruct (create_from_cases e0 argv)
    as [[Hlt _] | [[_ Hab] | [(k & Hk & _ & Hbad & _) |
          (_ & _ & E0' & mids & b & _ & Hrun & _)]]].
  - lia.
  - right. split; [|exact Hab]. intros Hder.
    destruct (create_from_complete _ _ _ _ Hargs Hpos HE0 Hder) as [lines Hrun].
    congruence.
  - exfalso. destruct (lookup_lt_is_Some_2 ns k ltac:(lia)) as [n Hn].
    rewrite (node_args_lookup _ _ _ _ Hargs Hn) in Hbad. discriminate.
  - left. split; [|eauto].
    destruct (create_from_inr _ _ _ _ _ Hargs Hrun) as (E1 & HE1 & _ & HeN & Hlines).
    assert (E1 = E0) as -> by congruence.
    split; [exact HeN|]. intros i Hi.
    destruct (create_lines_lookup _ _ _ _ Hlines) as (_ & Hmid & (ll & Hll & _) & _).
    destruct (decide (i + 1 < length ns)) as [Hlt|Hge].
    + destruct (Hmid i Hlt) as (l & Hl & _). unfold hop_line in Hl.
      destruct (blindedId e0 E0 ns i); [eauto|discriminate].
    + assert (i = length ns - 1) as -> by lia. unfold last_line in Hll.
      destruct (blindedId e0 E0 ns (length ns - 1)); [eauto|discriminate].
Qed.

(** X11: line 157 runs on the last iteration too.  With a single node,
    whose entry is just its own id, [create] still multiplies the
    ephemeral private key; when that multiplication fails the run aborts
    without output, although the key it would yield is never used. *)
Theorem create_aborts_on_unused_tweak e0 E0 prog a n ss :
  pubkey_from_privkey e0 = Some E0 ->
  pubkey_from_hexstr (str_take (strcspn a "/") a) = Some n ->
  secp256k1_ecdh n e0 = Some ss ->
  secp256k1_ec_privkey_tweak_mul e0 (sha256 (pubkey_to_der E0 ++ ss)) = None ->
  create_from e0 [prog; "create"; a] = ([], inl Aborted).
Proof.
  intros HE0 Hn Hss Htw. unfold create_from. cbn [length Nat.ltb Nat.leb Nat.sub].
  rewrite HE0. cbn [or_abort]. rewrite bind_ret_l.
  cbn [for_loop]. unfold create_derive at 1. cbn [arg nth Nat.add].
  rewrite Hn. cbn [or_errx]. rewrite bind_ret_l.
  cbn [cs_e]. rewrite Hss. cbn [or_abort]. rewrite bind_ret_l.
  cbn [Nat.eqb negb]. rewrite bind_ret_l.
  cbn [cs_pk_e]. rewrite lookup_singleton_eq. cbn [rd or_abort].
  rewrite !bind_ret_l. unfold next_privkey, hash_e_and_ss. rewrite Htw. reflexivity.
Qed.

End KeyTheorems.

Section PayloadTheorems.
Context `{P : Prims}.

(** X12: what [create] prints for a forwarding hop is what [unwrap]
    accepts.  Built from [nodes[i+1]] and [rho[i]], the entry of hop i
    is the blinded id followed by the hex of the length-prefixed outer
    TLV; handed back by sphinx as the raw payload of a forwarding step,
    those bytes pass the length check of line 274, parse, carry an
    [enctlv] that passes both checks and decrypts under the same rho,
    and the Contents line shows the inner TLV naming [nodes[i+1]]. *)
Theorem printed_payload_opens (C : CodecLaws P) st i b rho nxt
    (us : unwrap_state pubkey onionpacket) :
  let inner := towire_encmsg_tlvs (mk_payload (Some nxt) None) in
  let p := towire_onionmsg_payload
             (mk_payload None (Some (aead_encrypt inner npub rho))) in
  cs_b st !! i = Some b -> cs_rho st !! i = Some rho ->
  cs_nodes st !! (i + 1) = Some nxt ->
  (tal_bytelen p < 2 ^ 64)%N ->
  raw_payload (us_rs us) = bigsize_put (tal_bytelen p) ++ p ->
  nextcase (us_rs us) = ONION_FORWARD ->
  us_rho us = rho ->
  create_print st i tt
  = ([(pubkey_to_string b ++ "/" ++ tal_hex (raw_payload (us_rs us)) ++ " ")%string],
     inr tt) /\
  exists outer,
    unwrap_decode (us_rs us) = ([], inr outer) /\
    stdout (unwrap_deliver us outer) !! 0
    = Some ("Contents: " ++ tal_hex inner ++ nl)%string.
Proof.
  intros inner p Hb Hrho Hnxt Hp Hraw Hfw Hus. split.
  - unfold create_print, rd. rewrite Hnxt, Hrho, Hb. cbn [or_abort].
    rewrite !bind_ret_l. fold inner. fold p.
    rewrite Hraw, tal_hex_app, !str_app_assoc. reflexivity.
  - destruct (outer_roundtrip (aead_encrypt inner npub rho) Hp) as (outer & Hdec & Henc).
    exists outer. split.
    + unfold unwrap_decode. rewrite Hraw.
      fold p in Hdec |- *. rewrite (bigsize_roundtrip _ _ Hp). cbn [max_of].
      rewrite N.eqb_refl. cbn [assert]. rewrite bind_ret_l, Hdec. reflexivity.
    + unfold unwrap_deliver. rewrite Hfw, Henc. cbn [or_errx]. rewrite bind_ret_l.
      assert ((tal_bytelen (aead_encrypt inner npub rho)
               <? crypto_aead_chacha20poly1305_ietf_ABYTES)%N = false) as ->.
      { apply N.ltb_ge. unfold tal_bytelen, crypto_aead_chacha20poly1305_ietf_ABYTES.
        rewrite aead_length. lia. }
      rewrite Hus, aead_roundtrip. cbn [or_errx]. rewrite bind_ret_l.
      unfold next_pubkey.
      destruct (secp256k1_ec_pubkey_tweak_mul _ _); reflexivity.
Qed.

End PayloadTheorems.
(** * The four arrays of create *)

Section Arrays.
Context `{P : Prims}.

(** What an iteration that returns has written. *)
Lemma create_derive_writes argv num i st out st' :
  create_derive argv num i st = (out, inr st') ->
  exists node b_i rho_i,
    cs_nodes st' = <[i := node]> (cs_nodes st) /\
    cs_b st' = <[i := b_i]> (cs_b st) /\
    cs_rho st' = <[i := rho_i]> (cs_rho st) /\
    if decide (i = num - 1) then cs_pk_e st' = cs_pk_e st
    else exists nx, cs_pk_e st' = <[i + 1 := nx]> (cs_pk_e st).
Proof.
  intros H. unfold create_derive in H.
  peel H as node Hnode. peel H as ss Hss.
  apply bind_inr in H as (ob & b_i & ob' & Hb & H & ->).
  peel H as pk_e_i Hrd.
  apply bind_inr in H as (op & pk_e & op' & Hpke & H & ->).
  peel H as e' He'. apply ret_inr in H as [<- ->].
  exists node, b_i, (subkey_from_hmac "rho" ss). cbn [cs_nodes cs_b cs_rho cs_pk_e].
  split; [reflexivity|]. split; [reflexivity|]. split; [reflexivity|].
  destruct (decide (i = num - 1)) as [->|Hne].
  - rewrite Nat.eqb_refl in Hpke. cbn [negb] in Hpke.
    apply ret_inr in Hpke as [<- _]. reflexivity.
  - apply Nat.eqb_neq in Hne. rewrite Hne in Hpke. cbn [negb] in Hpke.
    apply bind_inr in Hpke as (oa & nx & oc & Hnx & Hr & ->).
    apply ret_inr in Hr as [<- _]. exists nx. reflexivity.
Qed.

(** Entering iteration [i], the arrays hold exactly the slots below
    [i], and [pk_e] the slots up to [i], all below [num]. *)
Lemma create_derive_bounds argv num i st out st' :
  i < num ->
  (forall j, (is_Some (cs_pk_e st !! j) <-> j <= i /\ j < num) /\
             (is_Some (cs_nodes st !! j) <-> j < i) /\
             (is_Some (cs_b st !! j) <-> j < i) /\
             (is_Some (cs_rho st !! j) <-> j < i)) ->
  create_derive argv num i st = (out, inr st') ->
  out = [] /\
  forall j, (is_Some (cs_pk_e st' !! j) <-> j <= S i /\ j < num) /\
            (is_Some (cs_nodes st' !! j) <-> j < S i) /\
            (is_Some (cs_b st' !! j) <-> j < S i) /\
            (is_Some (cs_rho st' !! j) <-> j < S i).
Proof.
  intros Hi Hinv H.
  split.
  { pose proof (create_derive_silent argv num i st) as Hs. rewrite H in Hs. exact Hs. }
  destruct (create_derive_writes _ _ _ _ _ _ H)
    as (node & b_i & rho_i & -> & -> & -> & Hpk).
  intros j. destruct (Hinv j) as (Hp & Hn & Hb & Hr).
  rewrite !lookup_insert_is_Some. rewrite Hn, Hb, Hr.
  split; [|repeat split; intros; try lia;
           destruct (decide (i = j)); auto; right; split; auto; lia].
  destruct (decide (i = num - 1)) as [->|Hne].
  - rewrite Hpk, Hp. lia.
  - destruct Hpk as [nx ->]. rewrite lookup_insert_is_Some, Hp. split.
    + intros [<- | [_ ?]]; lia.
    + intros [? ?]. destruct (decide (i + 1 = j)); auto. right. split; auto. lia.
Qed.

(** X13: the array accesses of [create] stay within the [num]
    elements allocated at lines 119-125.  When the first loop returns,
    each of [nodes], [pk_e], [b] and [rho] holds a value at every index
    below [num] and at no other index: the guard of line 155 keeps the
    write to [pk_e[i+1]] inside the array, and the slots the second loop
    and the last [printf] read ([nodes[i+1]], [rho[i]], [b[i]] for
    i < num - 1, and [b[num-1]]) are all written. *)
Theorem create_arrays_in_bounds e0 E0 argv out st :
  3 <= length argv ->
  for_loop (length argv - 2) 0 (create_derive argv (length argv - 2))
    (mk_cs e0 ∅ {[ 0 := E0 ]} ∅ ∅) = (out, inr st) ->
  forall j,
    (is_Some (cs_nodes st !! j) <-> j < length argv - 2) /\
    (is_Some (cs_pk_e st !! j) <-> j < length argv - 2) /\
    (is_Some (cs_b st !! j) <-> j < length argv - 2) /\
    (is_Some (cs_rho st !! j) <-> j < length argv - 2).
Proof.
  intros Hargc Hloop. set (num := length argv - 2) in *.
  set (I := fun (i : nat) (st : create_state pubkey) => forall j,
              (is_Some (cs_pk_e st !! j) <-> j <= i /\ j < num) /\
              (is_Some (cs_nodes st !! j) <-> j < i) /\
              (is_Some (cs_b st !! j) <-> j < i) /\
              (is_Some (cs_rho st !! j) <-> j < i)).
  assert (I 0 (mk_cs e0 ∅ {[ 0 := E0 ]} ∅ ∅)) as Hinit.
  { intros j. cbn [cs_pk_e cs_nodes cs_b cs_rho].
    rewrite !lookup_empty, lookup_singleton_is_Some.
    unfold is_Some. split; [|repeat split; try (intros [? ?]; discriminate); lia].
    subst num. lia. }
  destruct (for_loop_silent I (create_derive argv num) num
              (create_derive_bounds argv num) num 0 _ _ _ ltac:(lia) Hinit Hloop)
    as [_ Hinv].
  intros j. rewrite Nat.add_0_r in Hinv. destruct (Hinv j) as (Hp & Hn & Hb & Hr).
  rewrite Hp, Hn, Hb, Hr. lia.
Qed.

End Arrays.
(** * Extending a route *)

Section Extension.
Context `{P : Prims}.
Variables (e0 : bytes) (E0 : pubkey) (ns more : list pubkey).

Lemma eph_at_app i :
  i <= length ns -> eph_at e0 E0 (ns ++ more) i = eph_at e0 E0 ns i.
Proof.
  induction i as [|i IH]; intros Hi; [reflexivity|].
  cbn [eph_at]. rewrite IH by lia. unfold hop_ss.
  rewrite lookup_app_l by lia. reflexivity.
Qed.

Lemma ss_at_app i :
  i < length ns -> ss_at e0 E0 (ns ++ more) i = ss_at e0 E0 ns i.
Proof.
  intros Hi. unfold ss_at, hop_ss, e_at. rewrite eph_at_app by lia.
  rewrite lookup_app_l by lia. reflexivity.
Qed.

Lemma blindedId_app i :
  i < length ns -> blindedId e0 E0 (ns ++ more) i = blindedId e0 E0 ns i.
Proof.
  intros Hi. unfold blindedId, tweak_at. rewrite ss_at_app by lia.
  rewrite lookup_app_l by lia. reflexivity.
Qed.

Lemma hop_line_app i :
  i + 1 < length ns -> hop_line e0 E0 (ns ++ more) i = hop_line e0 E0 ns i.
Proof.
  intros Hi. unfold hop_line, rho_at.
  rewrite blindedId_app, ss_at_app by lia.
  rewrite lookup_app_l by lia. reflexivity.
Qed.

End Extension.

Section ExtensionTheorem.
Context `{P : Prims}.

(** X14: extending a route leaves its beginning alone.  When [create]
    completes on a list of node ids and on that list with further ids
    appended, the two runs print the same Blinding line and the same
    entries for every node but the last of the shorter list; that node
    keeps its blinded id, only its payload changes from [00] to a
    forwarding payload. *)
Theorem route_extension_keeps_prefix argv more ns ns' lines1 lines2 :
  node_args argv ns -> node_args (argv ++ more) (ns ++ ns') ->
  create argv = (lines1, inr tt) ->
  create (argv ++ more) = (lines2, inr tt) ->
  (forall i, i < length ns -> lines2 !! i = lines1 !! i) /\
  exists b tail,
    lines1 !! length ns = Some (pubkey_to_string b ++ "/00" ++ nl)%string /\
    lines2 !! length ns = Some (pubkey_to_string b ++ "/" ++ tail)%string.
Proof.
  unfold create. set (e0 := memset x06 sizeof_privkey).
  intros Hargs1 Hargs2 Hrun1 Hrun2.
  destruct (create_from_inr _ _ _ _ _ Hargs1 Hrun1) as (E0 & HE0 & Hpos & _ & Hl1).
  destruct (create_from_inr _ _ _ _ _ Hargs2 Hrun2) as (E0' & HE0' & _ & _ & Hl2).
  assert (E0' = E0) as -> by congruence.
  destruct (create_lines_lookup _ _ _ _ Hl1) as (H10 & Hmid1 & (l1 & Hlast1 & Hll1) & _).
  destruct (create_lines_lookup _ _ _ _ Hl2) as (H20 & Hmid2 & (l2 & Hlast2 & Hll2) & _).
  rewrite length_app in Hmid2, Hlast2, Hll2.
  split.
  - intros [|i] Hi; [rewrite H10, H20; reflexivity|].
    destruct (Hmid1 i ltac:(lia)) as (m1 & Hm1 & ->).
    destruct (Hmid2 i ltac:(lia)) as (m2 & Hm2 & ->).
    rewrite hop_line_app in Hm2 by lia. congruence.
  - unfold last_line in Hlast1.
    destruct (blindedId e0 E0 ns (length ns - 1)) as [b|] eqn:Hb; [|discriminate].
    cbn in Hlast1. injection Hlast1 as <-.
    exists b. destruct ns' as [|n' ns''].
    + exists ("00" ++ nl)%string. split; [exact Hll1|].
      rewrite Nat.add_0_r in Hll2, Hlast2. rewrite Hll2. f_equal.
      unfold last_line in Hlast2. rewrite app_nil_r, Hb in Hlast2.
      cbn in Hlast2. injection Hlast2 as <-. reflexivity.
    + cbn [length] in Hmid2.
      destruct (Hmid2 (length ns - 1) ltac:(lia)) as (m2 & Hm2 & Hidx).
      replace (S (length ns - 1)) with (length ns) in Hidx by lia.
      unfold hop_line in Hm2. rewrite blindedId_app, Hb in Hm2 by lia.
      cbn in Hm2.
      destruct (rho_at _ _ _ _) as [r|]; [|discriminate]. cbn in Hm2.
      destruct ((ns ++ n' :: ns'') !! _) as [nx|]; [|discriminate]. cbn in Hm2.
      injection Hm2 as <-. eexists. split; [exact Hll1|]. rewrite Hidx. reflexivity.
Qed.

End ExtensionTheorem.
(** * The payload of the last node *)

Section LastPayload.
Context `{P : Prims}.

(** X15: the payload [create] prints for the last node is accepted by
    [unwrap].  It is the hex of a single zero byte; handed back by
    sphinx as the raw payload of the final step, that byte is a length
    prefix of 0 with nothing behind it, so the check of line 274 passes,
    the empty TLV stream parses, and the run prints TERMINAL and returns
    0 (wire and hex laws assumed). *)
Theorem last_payload_terminates (C : CodecLaws P)
    (us : unwrap_state pubkey onionpacket) :
  raw_payload (us_rs us) = [x00] ->
  nextcase (us_rs us) = ONION_END ->
  tal_hex (raw_payload (us_rs us)) = "00" /\
  exists outer,
    unwrap_decode (us_rs us) = ([], inr outer) /\
    unwrap_deliver us outer = ([TERMINAL], inl (Exited 0 "")).
Proof.
  intros Hraw Hend. split; [rewrite Hraw; apply tal_hex_x00|].
  destruct outer_empty as [outer Houter]. exists outer. split.
  - unfold unwrap_decode. rewrite Hraw.
    assert (fromwire_bigsize (Some [x00]) = (0%N, Some [])) as ->.
    { rewrite <- bigsize_put_0, <- (app_nil_r (bigsize_put 0)).
      apply bigsize_roundtrip. reflexivity. }
    change (max_of (Some [])) with 0%N. rewrite N.eqb_refl. cbn [assert].
    rewrite bind_ret_l, Houter. reflexivity.
  - apply deliver_end, Hend.
Qed.

End LastPayload.

(** * The claims on concrete runs *)

Module Runs.
Import Scenario.

Local Abbreviation toy := Toy.prims.
#[local] Existing Instance Toy.prims.

(** The three-node route, created and then unwrapped whatever the
    session key of the onion. *)
Lemma blinded_route_roundtrip_witness :
  exists E route,
    create_lines3 = render (P:=toy) E route /\
    length route = length nodes /\ 1 <= length nodes /\
    forall s op,
      create_onionpacket (MixNet:=ToyFacts.mixnet) s route = Some op ->
      unwrap_chain (P:=toy) prog nodes keys_hex true
        (pubkey_to_string E) (tal_hex (serialize_onionpacket op)).
Proof.
  apply (blinded_route_roundtrip (P:=toy) ToyFacts.group_laws ToyFacts.codec_laws
           ToyFacts.mixnet false prog node_ids nodes keys keys_hex create_lines3).
  - repeat constructor.
  - repeat constructor.
  - repeat constructor.
  - vm_compute. reflexivity.
Defined.

(** Node A alone on its route: sphinx reports the end, TERMINAL is printed. *)
Lemma terminal_iff_onion_end_witness :
  (In TERMINAL (stdout (unwrap (P:=toy) true argv_T))
   <-> nextcase (us_rs us_T) = ONION_END) /\
  (nextcase (us_rs us_T) = ONION_END ->
   unwrap (P:=toy) true argv_T = ([TERMINAL], inl (Exited 0 ""))).
Proof.
  apply (terminal_iff_onion_end (P:=toy) true argv_T us_T outer_T [] []).
  - vm_compute. reflexivity.
  - vm_compute. reflexivity.
Defined.

(** C2, counterexample: node A alone on a route, handed a payload that
    carries an enctlv.  Sphinx reports the end of the route, the outer
    TLV decodes with its enctlv present, and TERMINAL is printed. *)
Lemma terminal_reported_with_enctlv :
  unwrap_process (P:=toy) true argv_X = ([], inr us_X) /\
  unwrap_decode (P:=toy) (us_rs us_X)
    = ([], inr (mk_payload None (Some stray_enctlv))) /\
  nextcase (us_rs us_X) = ONION_END /\
  main (P:=toy) true argv_X = ([TERMINAL], inl (Exited 0 "")) /\
  ~ terminal_claim (P:=toy) true argv_X.
Proof.
  assert (unwrap_process (P:=toy) true argv_X = ([], inr us_X)) as Hus
    by (vm_compute; reflexivity).
  assert (unwrap_decode (P:=toy) (us_rs us_X)
          = ([], inr (mk_payload None (Some stray_enctlv)))) as Hout
    by (vm_compute; reflexivity).
  assert (main (P:=toy) true argv_X = ([TERMINAL], inl (Exited 0 ""))) as Hrun
    by (vm_compute; reflexivity).
  split; [exact Hus|]. split; [exact Hout|]. split; [reflexivity|].
  split; [exact Hrun|].
  assert (In TERMINAL (stdout (unwrap (P:=toy) true argv_X))) as Hin
    by (vm_compute; left; reflexivity).
  intros Hclaim. destruct (Hclaim _ _ _ _ Hus Hout) as [Hthen _].
  destruct (Hthen Hin) as [_ Hnone]. discriminate Hnone.
Qed.

(** Node B as a later hop. *)
Lemma onion_ss_from_packet_key_witness :
  exists k onion op eff,
    hex_decode (Prims:=toy) (arg argv_B 2) sizeof_privkey = Some k /\
    hex_decode (arg argv_B 3) TOTAL_PACKET_SIZE = Some onion /\
    parse_onionpacket onion = Some op /\
    pubkey_from_hexstr (arg argv_B 4) = Some (us_blinding us_B) /\
    secp256k1_ecdh (us_blinding us_B) k = Some (us_ss us_B) /\
    secp256k1_ec_pubkey_tweak_mul (ephemeralkey op)
      (subkey_from_hmac "blinded_node_id" (us_ss us_B)) = Some eff /\
    secp256k1_ecdh eff k = Some (us_onion_ss us_B) /\
    process_onionpacket op (us_onion_ss us_B) = Some (us_rs us_B).
Proof.
  apply (onion_ss_from_packet_key (P:=toy) false argv_B [] us_B).
  vm_compute. reflexivity.
Defined.

(** C3, counterexample.  Node B is a later hop: the blinding point it
    receives is 0xdc, the onion's ephemeral key 0x4d.  From the blinding
    point the specification's formula gives tweakPoint(E, tweak) = 0x3b
    and a secret ending in 0x2b; the code hands sphinx a secret ending in
    0x2f.  Node A is a first hop: ECDH with the blinding point ends in
    0x61, the secret handed over in 0x1e. *)
Lemma onion_ss_not_from_blinding :
  unwrap_process (P:=toy) false argv_B = ([], inr us_B) /\
  us_blinding us_B = xdc /\
  secp256k1_ec_pubkey_tweak_mul (Prims:=toy) xdc
    (subkey_from_hmac "blinded_node_id" (us_ss us_B)) = Some x3b /\
  secp256k1_ecdh (Prims:=toy) x3b kB <> Some (us_onion_ss us_B) /\
  ~ onion_ss_claim (P:=toy) false argv_B /\
  unwrap_process (P:=toy) true argv_A = ([], inr us_A) /\
  secp256k1_ecdh (Prims:=toy) (us_blinding us_A) kA <> Some (us_onion_ss us_A) /\
  ~ onion_ss_claim (P:=toy) true argv_A.
Proof.
  assert (unwrap_process (P:=toy) false argv_B = ([], inr us_B)) as HB
    by (vm_compute; reflexivity).
  assert (secp256k1_ec_pubkey_tweak_mul (Prims:=toy) xdc
            (subkey_from_hmac "blinded_node_id" (us_ss us_B)) = Some x3b) as Htw
    by (vm_compute; reflexivity).
  assert (secp256k1_ecdh (Prims:=toy) x3b kB <> Some (us_onion_ss us_B)) as HneB
    by (vm_compute; discriminate).
  assert (unwrap_process (P:=toy) true argv_A = ([], inr us_A)) as HA
    by (vm_compute; reflexivity).
  assert (secp256k1_ecdh (Prims:=toy) (us_blinding us_A) kA
          <> Some (us_onion_ss us_A)) as HneA
    by (vm_compute; discriminate).
  assert (forall eff, secp256k1_ec_pubkey_tweak_mul (Prims:=toy) (us_blinding us_B)
                        (subkey_from_hmac "blinded_node_id" (us_ss us_B)) = Some eff
                      -> eff = x3b) as Heff3b
    by (intros eff; vm_compute; congruence).
  assert (forall k, hex_decode (Prims:=toy) (arg argv_B 2) sizeof_privkey = Some k
                    -> k = kB) as HkB
    by (intros k; vm_compute; congruence).
  assert (forall k, hex_decode (Prims:=toy) (arg argv_A 2) sizeof_privkey = Some k
                    -> k = kA) as HkA
    by (intros k; vm_compute; congruence).
  split; [exact HB|]. split; [reflexivity|]. split; [exact Htw|].
  split; [exact HneB|]. split; [|split; [exact HA|split; [exact HneA|]]].
  - intros Hclaim. destruct (Hclaim _ _ HB) as (k & eff & Hk & Heff & Hoss).
    apply HkB in Hk. apply Heff3b in Heff. subst k eff. exact (HneB Hoss).
  - intros Hclaim. destruct (Hclaim _ _ HA) as (k & eff & Hk & Heff & Hoss).
    apply HkA in Hk. subst k eff. exact (HneA Hoss).
Qed.

(** The identities printed for the three-node route. *)
Lemma blinded_ids_published_witness :
  exists E,
    pubkey_from_privkey (memset x06 sizeof_privkey) = Some E /\
    forall i n, nodes !! i = Some n ->
      exists b tail,
        create_lines3 !! S i = Some (pubkey_to_string b ++ "/" ++ tail)%string /\
        blindedId (memset x06 sizeof_privkey) E nodes i = Some b /\
        (i = 0 -> b = n) /\
        (0 < i -> exists e ss,
           e_at (memset x06 sizeof_privkey) E nodes i = Some e /\
           secp256k1_ecdh n e = Some ss /\
           secp256k1_ec_pubkey_tweak_mul n
             (subkey_from_hmac "blinded_node_id" ss) = Some b).
Proof.
  apply (blinded_ids_published (P:=toy) create_argv nodes create_lines3).
  - repeat constructor.
  - vm_compute. reflexivity.
Defined.

(** Node A forwards: the next blinding point it prints. *)
Lemma next_blinding_is_ratchet_witness :
  exists k E ss nb c o,
    hex_decode (arg argv_A 2) sizeof_privkey = Some k /\
    pubkey_from_hexstr (arg argv_A 4) = Some E /\
    secp256k1_ecdh E k = Some ss /\
    length (pubkey_to_der E) = 33 /\ length ss = 32 /\
    secp256k1_ec_pubkey_tweak_mul E (sha256 (pubkey_to_der E ++ ss)) = Some nb /\
    lines_A = [c; ("Next blinding: " ++ pubkey_to_string nb ++ nl)%string; o].
Proof.
  apply (next_blinding_is_ratchet (P:=toy) ToyFacts.sizes true argv_A lines_A).
  vm_compute. reflexivity.
Defined.

(** Node A asked to forward a payload without enctlv. *)
Lemma enctlv_failures_exit_1_witness :
  exists msg,
    unwrap true argv_F = ([], inl (Exited 1 msg)) /\
    In msg ["No enctlv field"; "enctlv field too short";
            "Failed to decrypt enctlv field"].
Proof.
  apply (enctlv_failures_exit_1 (P:=toy) true argv_F us_F outer_F [] []).
  - vm_compute. reflexivity.
  - vm_compute. reflexivity.
  - reflexivity.
  - left. reflexivity.
Defined.

(** The same three nodes, written with and without suffixes. *)
Lemma create_deterministic_witness :
  stdout (create_from e0 create_argv) = stdout (create_from e0 create_argv') /\
  exit_code (status (create_from e0 create_argv))
    = exit_code (status (create_from e0 create_argv')).
Proof.
  apply (create_deterministic (P:=toy) e0 create_argv create_argv').
  vm_compute. reflexivity.
Defined.

(** A sphinx that hands up the legacy 33-byte payload: its length prefix
    says 0, 32 bytes follow. *)
Lemma length_prefix_mismatch_aborts_witness :
  unwrap (P:=Toy.legacy_prims) true argv_T = ([], inl Aborted) /\
  exit_code (status (unwrap (P:=Toy.legacy_prims) true argv_T)) = None.
Proof.
  apply (length_prefix_mismatch_aborts (P:=Toy.legacy_prims) true argv_T us_L []).
  - vm_compute. reflexivity.
  - vm_compute. discriminate.
Defined.

End Runs.

(** * The further properties on concrete runs *)

Module MoreRuns.
Import Scenario Scenario2.

Local Abbreviation toy := Toy.prims.
#[local] Existing Instance Toy.prims.

(** The second node id is rejected, with its suffix in the message. *)
Lemma create_errx_cause_witness :
  (length argv_bad < 3 /\
   "zz/0102 not a valid pubkey" = "create requires at least one nodeid") \/
  exists k,
    2 + k < length argv_bad /\
    (forall j, j < k -> is_Some (node_of_arg (arg argv_bad (2 + j)))) /\
    node_of_arg (arg argv_bad (2 + k)) = None /\
    "zz/0102 not a valid pubkey" = (arg argv_bad (2 + k) ++ " not a valid pubkey")%string.
Proof.
  apply (create_errx_cause (P:=toy) argv_bad "zz/0102 not a valid pubkey").
  vm_compute. reflexivity.
Defined.

(** Node A forwards on the three-node route. *)
Lemma forward_run_lines_witness :
  exists k E ss us outer enc dec nb,
    hex_decode (arg argv_A 2) sizeof_privkey = Some k /\
    pubkey_from_hexstr (arg argv_A 4) = Some E /\
    secp256k1_ecdh E k = Some ss /\
    unwrap_process true argv_A = ([], inr us) /\
    unwrap_decode (us_rs us) = ([], inr outer) /\
    nextcase (us_rs us) = ONION_FORWARD /\
    enctlv outer = Some enc /\
    aead_decrypt enc npub (subkey_from_hmac "rho" ss) = Some dec /\
    lines_A = [ ("Contents: " ++ tal_hex dec ++ nl)%string;
                ("Next blinding: " ++ pubkey_to_string nb ++ nl)%string;
                ("Next onion: " ++ tal_hex (serialize_onionpacket (next (us_rs us)))
                   ++ nl)%string ].
Proof.
  apply (forward_run_lines (P:=toy) true argv_A lines_A).
  vm_compute. reflexivity.
Defined.

(** Node B as a later hop: ECDH of the onion's ephemeral key with B's
    blinded private key. *)
Lemma onion_secret_is_blinded_ecdh_witness :
  secp256k1_ecdh (Prims:=toy) (ephemeralkey op_B) bk_B = Some (us_onion_ss us_B).
Proof.
  apply (onion_secret_is_blinded_ecdh (P:=toy) ToyFacts.group_laws
           argv_B [] us_B kB nB session onion_B op_B bk_B).
  - vm_compute. reflexivity.
  - vm_compute. reflexivity.
  - vm_compute. reflexivity.
  - vm_compute. reflexivity.
  - vm_compute. reflexivity.
  - vm_compute. reflexivity.
  - vm_compute. reflexivity.
Defined.

(** The three-node route. *)
Lemma receiver_derives_sender_secrets_witness :
  exists E,
    create_lines3 !! 0 = Some (blinding_line E) /\
    E_at (memset x06 sizeof_privkey) E nodes 0 = Some E /\
    forall i k, keys !! i = Some k ->
      exists Ei ss,
        E_at (memset x06 sizeof_privkey) E nodes i = Some Ei /\
        ss_at (memset x06 sizeof_privkey) E nodes i = Some ss /\
        secp256k1_ecdh Ei k = Some ss /\
        (S i < length nodes ->
         E_at (memset x06 sizeof_privkey) E nodes (S i) <> None /\
         secp256k1_ec_pubkey_tweak_mul Ei (sha256 (pubkey_to_der Ei ++ ss))
         = E_at (memset x06 sizeof_privkey) E nodes (S i)).
Proof.
  apply (receiver_derives_sender_secrets (P:=toy) ToyFacts.group_laws
           create_argv nodes keys create_lines3).
  - repeat constructor.
  - repeat constructor.
  - vm_compute. reflexivity.
Defined.

(** The three-node route: every call of the ratchet succeeds. *)
Lemma create_outcome_witness :
  (derivable (P:=toy) e0 E0 nodes /\
   exists lines, create_from e0 create_argv = (lines, inr tt)) \/
  (~ derivable (P:=toy) e0 E0 nodes /\ create_from e0 create_argv = ([], inl Aborted)).
Proof.
  apply (create_outcome (P:=toy) e0 E0 create_argv nodes).
  - repeat constructor.
  - vm_compute. lia.
  - vm_compute. reflexivity.
Defined.

(** Node 0xea alone: the product of the ephemeral private key and h is
    zero. *)
Lemma create_aborts_on_unused_tweak_witness :
  create_from (P:=toy) e0 [prog; "create"; Toy.pubkey_to_string nZ]
  = ([], inl Aborted).
Proof.
  apply (create_aborts_on_unused_tweak (P:=toy) e0 E0 prog
           (Toy.pubkey_to_string nZ) nZ ss_Z).
  - vm_compute. reflexivity.
  - vm_compute. reflexivity.
  - vm_compute. reflexivity.
  - vm_compute. reflexivity.
Defined.

(** Node A's entry on a two-node route, and what A prints on it. *)
Lemma printed_payload_opens_witness :
  create_print (P:=toy) st_AB 0 tt
  = ([(pubkey_to_string nA ++ "/" ++ tal_hex (raw_payload (us_rs us_AB)) ++ " ")%string],
     inr tt) /\
  exists outer,
    unwrap_decode (P:=toy) (us_rs us_AB) = ([], inr outer) /\
    stdout (unwrap_deliver us_AB outer) !! 0
    = Some ("Contents: "
              ++ tal_hex (towire_encmsg_tlvs (mk_payload (Some nB) None)) ++ nl)%string.
Proof.
  apply (printed_payload_opens (P:=toy) ToyFacts.codec_laws st_AB 0 nA rho_A nB us_AB).
  - vm_compute. reflexivity.
  - vm_compute. reflexivity.
  - vm_compute. reflexivity.
  - vm_compute. reflexivity.
  - vm_compute. reflexivity.
  - reflexivity.
  - reflexivity.
Defined.

(** The three-node run: slot 2 of every array is written, slot 3 of
    none. *)
Lemma create_arrays_in_bounds_witness :
  ((is_Some (cs_nodes st_3 !! 2) <-> 2 < length create_argv - 2) /\
   (is_Some (cs_pk_e st_3 !! 2) <-> 2 < length create_argv - 2) /\
   (is_Some (cs_b st_3 !! 2) <-> 2 < length create_argv - 2) /\
   (is_Some (cs_rho st_3 !! 2) <-> 2 < length create_argv - 2)) /\
  ((is_Some (cs_nodes st_3 !! 3) <-> 3 < length create_argv - 2) /\
   (is_Some (cs_pk_e st_3 !! 3) <-> 3 < length create_argv - 2) /\
   (is_Some (cs_b st_3 !! 3) <-> 3 < length create_argv - 2) /\
   (is_Some (cs_rho st_3 !! 3) <-> 3 < length create_argv - 2)).
Proof.
  assert (for_loop (length create_argv - 2) 0
            (create_derive (P:=toy) create_argv (length create_argv - 2))
            (mk_cs e0 ∅ {[ 0 := E0 ]} ∅ ∅) = ([], inr st_3)) as Hloop
    by (vm_compute; reflexivity).
  split.
  - apply (create_arrays_in_bounds (P:=toy) e0 E0 create_argv [] st_3);
      [vm_compute; lia | exact Hloop].
  - apply (create_arrays_in_bounds (P:=toy) e0 E0 create_argv [] st_3);
      [vm_compute; lia | exact Hloop].
Defined.

(** The route of A and B, extended by C. *)
Lemma route_extension_keeps_prefix_witness :
  (forall i, i < length [nA; nB] -> create_lines3 !! i = create_lines2 !! i) /\
  exists b tail,
    create_lines2 !! length [nA; nB]
    = Some (pubkey_to_string (Prims:=toy) b ++ "/00" ++ nl)%string /\
    create_lines3 !! length [nA; nB]
    = Some (pubkey_to_string (Prims:=toy) b ++ "/" ++ tail)%string.
Proof.
  apply (route_extension_keeps_prefix (P:=toy) create_argv2
           [Toy.pubkey_to_string nC] [nA; nB] [nC] create_lines2 create_lines3).
  - repeat constructor.
  - repeat constructor.
  - vm_compute. reflexivity.
  - vm_compute. reflexivity.
Defined.

(** One run for each usage error. *)
Lemma main_usage_errors_witness :
  main (P:=toy) false [prog]
  = ([], inl (Exited 1 "You must specify create or unwrap")) /\
  main (P:=toy) false [prog; "Create"; Toy.pubkey_to_string nA]
  = ([], inl (Exited 1 "Either create or unwrap!")) /\
  main (P:=toy) false [prog; "create"]
  = ([], inl (Exited 1 "create requires at least one nodeid")) /\
  main (P:=toy) true [prog; "unwrap"; Toy.tal_hex kA]
  = ([], inl (Exited 1 "unwrap requires privkey, onion and blinding")).
Proof.
  split; [|split; [|split]].
  - apply (main_usage_errors (P:=toy) false [prog]). simpl. lia.
  - apply (main_usage_errors (P:=toy) false [prog; "Create"; Toy.pubkey_to_string nA]).
    + simpl. lia.
    + discriminate.
    + discriminate.
  - apply (main_usage_errors (P:=toy) false [prog; "create"]); reflexivity.
  - apply (main_usage_errors (P:=toy) true [prog; "unwrap"; Toy.tal_hex kA]).
    + simpl. lia.
    + simpl. lia.
    + reflexivity.
Defined.

(** Node A alone on its route. *)
Lemma last_payload_terminates_witness :
  tal_hex (Prims:=toy) (raw_payload (us_rs us_T)) = "00" /\
  exists outer,
    unwrap_decode (P:=toy) (us_rs us_T) = ([], inr outer) /\
    unwrap_deliver us_T outer = ([TERMINAL], inl (Exited 0 "")).
Proof.
  apply (last_payload_terminates (P:=toy) ToyFacts.codec_laws us_T); reflexivity.
Defined.

End MoreRuns.

